(** * Verification of [tools/update-docs.ts] (eslint-plugin-yml)

    The tool rewrites the markdown documentation of every lint rule: header,
    footer, example-code-block tags, YAML front matter.  All of it is string
    manipulation driven by JavaScript regular expressions, so the development
    starts with a shallow embedding of the ECMAScript regular-expression
    semantics (backtracking matchers in continuation-passing style, as in the
    language specification), of [String.prototype.replace] with its [$]
    substitution patterns, and of the few string and array built-ins the tool
    calls.  The tool's functions are then transcribed one by one. *)

From Stdlib Require Import NArith ZArith String Ascii Decimal DecimalString.
From stdpp Require Import base numbers option list sorting strings gmap.

Local Open Scope N_scope.
Local Open Scope nat_scope.

(** ** Text

    A JavaScript string is modelled as the list of its Unicode code points
    (the regular expressions of the tool all carry the [u] flag, so they see
    code points, not UTF-16 code units). *)

Definition char := N.
Definition text := list char.

Definition str (s : string) : text :=
  map N_of_ascii (list_ascii_of_string s).

Definition LF : char := 10%N.
Definition CR : char := 13%N.
Definition DOLLAR : char := 36%N.
Definition GT : char := 62%N.
Definition BACKSLASH : char := 92%N.
Definition DQUOTE : char := 34%N.
Definition SPACE : char := 32%N.

(** Every string of [ls] followed by a line feed. *)
Definition lines (ls : list string) : text :=
  concat (map (fun l => str l ++ [LF]) ls).

(** ECMAScript [LineTerminator]: LF, CR, LS, PS. *)
Definition isLineTerminator (c : char) : bool :=
  (c =? 10)%N || (c =? 13)%N || (c =? 8232)%N || (c =? 8233)%N.

(** ECMAScript [WhiteSpace] or [LineTerminator]: what [\s] matches and what
    [String.prototype.trim] strips. *)
Definition isWhiteSpace (c : char) : bool :=
  (c =? 9)%N || (c =? 11)%N || (c =? 12)%N || (c =? 32)%N || (c =? 160)%N ||
  (c =? 5760)%N || ((8192 <=? c)%N && (c <=? 8202)%N) || (c =? 8239)%N ||
  (c =? 8287)%N || (c =? 12288)%N || (c =? 65279)%N || isLineTerminator c.

(** Character classes of the tool's patterns. *)
Definition cc_dot (c : char) : bool := negb (isLineTerminator c).   (* [.]      *)
Definition cc_any (c : char) : bool := true.                        (* [[\s\S]] *)
Definition cc_is (a : char) (c : char) : bool := (c =? a)%N.        (* a literal *)
Definition cc_not (a : char) (c : char) : bool := negb (c =? a)%N.  (* [[^a]]   *)

(** ** Built-in string and array functions *)

(** [String.prototype.trim]. *)
Fixpoint trimStart (s : text) : text :=
  match s with
  | c :: s' => if isWhiteSpace c then trimStart s' else s
  | [] => []
  end.

Definition trim (s : text) : text := rev (trimStart (rev (trimStart s))).

(** [Array.prototype.join]. *)
Fixpoint join (sep : text) (items : list text) : text :=
  match items with
  | [] => []
  | [x] => x
  | x :: rest => x ++ sep ++ join sep rest
  end.

(** UTF-16 code units of a code point: the default comparison of
    [Array.prototype.sort] orders strings by code units. *)
Definition utf16 (c : char) : list N :=
  if (c <? 65536)%N then [c]
  else [(55296 + (c - 65536) / 1024)%N; (56320 + (c - 65536) mod 1024)%N].

Fixpoint units_le (a b : list N) : bool :=
  match a, b with
  | [], _ => true
  | _ :: _, [] => false
  | x :: a', y :: b' => (x <? y)%N || ((x =? y)%N && units_le a' b')
  end.

(** [a] does not sort after [b] under the default comparator. *)
Definition sort_le (a b : text) : Prop :=
  units_le (flat_map utf16 a) (flat_map utf16 b) = true.

Global Instance sort_le_dec a b : Decision (sort_le a b).
Proof. unfold sort_le. apply _. Defined.

(** [Array.prototype.sort] without a comparator, on an array of strings. *)
Definition sort (items : list text) : list text := merge_sort sort_le items.

(** ** Regular expressions: backtracking matchers

    Following the ECMAScript specification, a pattern denotes a [Matcher]: a
    function of a match state and a continuation.  The state records the end
    index reached so far, the input that remains after it and the captures. *)

Record MatchState := mkState {
  endIndex : nat;
  remaining : text;
  captures : list (option text)
}.

Definition Continuation := MatchState -> option MatchState.
Definition Matcher := MatchState -> Continuation -> option MatchState.

(** One character of a class. *)
Definition m_char (p : char -> bool) : Matcher := fun x c =>
  match remaining x with
  | ch :: r =>
      if p ch then c (mkState (S (endIndex x)) r (captures x)) else None
  | [] => None
  end.

Definition m_empty : Matcher := fun x c => c x.

Definition m_seq (m1 m2 : Matcher) : Matcher := fun x c =>
  m1 x (fun y => m2 y c).

Definition m_seqs (ms : list Matcher) : Matcher := foldr m_seq m_empty ms.

(** A literal string. *)
Definition m_lit (s : text) : Matcher := m_seqs (map (fun a => m_char (cc_is a)) s).

(** Capturing group number [S i]. *)
Definition m_group (i : nat) (m : Matcher) : Matcher := fun x c =>
  m x (fun y =>
    let cap := take (endIndex y - endIndex x) (remaining x) in
    c (mkState (endIndex y) (remaining y) (<[i := Some cap]> (captures y)))).

(** [^] and [$], without the [m] flag. *)
Definition m_bol : Matcher := fun x c =>
  if Nat.eqb (endIndex x) 0 then c x else None.

Definition m_eol : Matcher := fun x c =>
  match remaining x with [] => c x | _ :: _ => None end.

Definition clear_captures (groups : list nat) (x : MatchState) : MatchState :=
  mkState (endIndex x) (remaining x)
          (foldr (fun i caps => <[i := None]> caps) (captures x) groups).

(** [RepeatMatcher] of the specification, for an unbounded maximum.  [groups]
    are the capturing groups inside the repeated atom, reset at every
    iteration.  An iteration that consumes nothing once the minimum is reached
    is rejected, so [fuel] above the remaining length is never exhausted. *)
Fixpoint RepeatMatcher (fuel : nat) (m : Matcher) (min : nat) (greedy : bool)
    (groups : list nat) (x : MatchState) (c : Continuation) : option MatchState :=
  match fuel with
  | O => None
  | S fuel' =>
      let d : Continuation := fun y =>
        if Nat.eqb min 0 && Nat.eqb (endIndex y) (endIndex x) then None
        else RepeatMatcher fuel' m (pred min) greedy groups y c in
      let xr := clear_captures groups x in
      if negb (Nat.eqb min 0) then m xr d
      else if greedy then
        match m xr d with Some z => Some z | None => c x end
      else
        match c x with Some z => Some z | None => m xr d end
  end.

Definition m_repeat (min : nat) (greedy : bool) (groups : list nat) (m : Matcher)
  : Matcher := fun x c =>
  RepeatMatcher (S (S (length (remaining x)))) m min greedy groups x c.

Definition m_star (m : Matcher) : Matcher := m_repeat 0 true [] m.       (* m*  *)
Definition m_plus (m : Matcher) : Matcher := m_repeat 1 true [] m.       (* m+  *)
Definition m_star_lazy (m : Matcher) : Matcher := m_repeat 0 false [] m. (* m*? *)

(** [m?] for an atom that cannot match the empty string. *)
Definition m_opt (m : Matcher) : Matcher := fun x c =>
  match m x c with Some z => Some z | None => c x end.

(** ** Executing a pattern *)

Record RegExp := mkRegExp {
  matcher : Matcher;
  nCaptures : nat
}.

(** [RegExpBuiltinExec] for a non-sticky pattern: the first index at or after
    [i] where the pattern matches; [s] is the input from index [i] on. *)
Fixpoint exec_from (re : RegExp) (i : nat) (s : text) : option (nat * MatchState) :=
  match matcher re (mkState i s (replicate (nCaptures re) None)) Some with
  | Some y => Some (i, y)
  | None =>
      match s with
      | [] => None
      | _ :: s' => exec_from re (S i) s'
      end
  end.

(** [RegExp.prototype.test] on a fresh pattern. *)
Definition test (re : RegExp) (s : text) : bool :=
  match exec_from re 0 s with Some _ => true | None => false end.

(** ** [GetSubstitution]: the [$] patterns of a replacement string *)

Definition isDigit (c : char) : bool := (48 <=? c)%N && (c <=? 57)%N.
Definition digitValue (c : char) : nat := N.to_nat (c - 48).

Definition capture_text (caps : list (option text)) (index : nat) : text :=
  match caps !! (index - 1) with
  | Some (Some t) => t
  | _ => []
  end.

Section GetSubstitution.
Variables (matched str0 : text) (position : nat) (caps : list (option text)).

Fixpoint GetSubstitution (template : text) : text :=
  match template with
  | [] => []
  | c :: t1 =>
    if negb (c =? DOLLAR)%N then c :: GetSubstitution t1
    else
      match t1 with
      | [] => [c]
      | d :: t2 =>
        if (d =? DOLLAR)%N then DOLLAR :: GetSubstitution t2
        else if (d =? 38)%N (* $& *) then matched ++ GetSubstitution t2
        else if (d =? 96)%N (* $` *) then take position str0 ++ GetSubstitution t2
        else if (d =? 39)%N (* $' *) then
          drop (position + length matched) str0 ++ GetSubstitution t2
        else if isDigit d then
          let one :=
            if (1 <=? digitValue d) && (digitValue d <=? length caps)
            then capture_text caps (digitValue d) ++ GetSubstitution t2
            else c :: d :: GetSubstitution t2 in
          match t2 with
          | e :: t3 =>
            if isDigit e then
              let index := 10 * digitValue d + digitValue e in
              if length caps <? index then one
              else if 1 <=? index
              then capture_text caps index ++ GetSubstitution t3
              else c :: d :: e :: GetSubstitution t3
            else one
          | [] => one
          end
        else c :: GetSubstitution t1
      end
  end.
End GetSubstitution.

(** ** [String.prototype.replace] with a regular expression *)

(** What replaces one match: given the matched text, its position and the
    captures. *)
Definition Replacer := text -> nat -> list (option text) -> text.

Definition by_template (str0 template : text) : Replacer :=
  fun matched position caps => GetSubstitution matched str0 position caps template.

(** Without the [g] flag: the first match only. *)
Definition replace_first (re : RegExp) (repl : Replacer) (s : text) : text :=
  match exec_from re 0 s with
  | Some (p, y) =>
      take p s ++ repl (take (endIndex y - p) (drop p s)) p (captures y)
             ++ remaining y
  | None => s
  end.

(** With the [g] flag: every match, from left to right, each search resuming
    where the previous match ended (one further after an empty match).  [s] is
    the input from index [i] on. *)
Fixpoint replace_loop (fuel : nat) (re : RegExp) (repl : Replacer) (i : nat) (s : text)
  : text :=
  match fuel with
  | O => s
  | S fuel' =>
    match exec_from re i s with
    | None => s
    | Some (p, y) =>
      take (p - i) s
      ++ repl (take (endIndex y - p) (drop (p - i) s)) p (captures y)
      ++ (if Nat.eqb (endIndex y) p then
            match remaining y with
            | [] => []
            | ch :: r => ch :: replace_loop fuel' re repl (S p) r
            end
          else replace_loop fuel' re repl (endIndex y) (remaining y))
    end
  end.

Definition replace_all (re : RegExp) (repl : Replacer) (s : text) : text :=
  replace_loop (S (length s)) re repl 0 s.

(** ** The rule descriptor and the documentation file *)

(** [rule.meta.docs]: [categories] is an array or [null], [replacedBy] an
    array or absent; [extensionRule] is used for its truthiness only. *)
Record RuleDocs := mkDocs {
  ruleId : text;
  ruleName : text;
  description : text;
  categories : option (list text);
  replacedBy : option (list text);
  extensionRule : bool
}.

(** [rule.meta]: [fixable] and [deprecated] are used for their truthiness. *)
Record RuleMeta := mkMeta {
  fixable : bool;
  deprecated : bool;
  docs : RuleDocs
}.

Record RuleModule := mkRule { meta : RuleMeta }.

(** A [DocFile] object.  [rule] is a reference to the descriptor held by the
    rule registry: what a method does to it is done to the registry's object. *)
Record DocFile := mkDocFile {
  rule : RuleModule;
  filePath : text;
  content : text
}.

Definition with_content (d : DocFile) (s : text) : DocFile :=
  mkDocFile (rule d) (filePath d) s.

(** ** [formatItems] and [yamlValue] *)

Definition formatItems (items : list text) : text :=
  if length items <=? 2 then join (str " and ") items
  else str "all of " ++ join (str ", ") (removelast items)
       ++ str " and " ++ List.last items [].

(** The values [yamlValue] is applied to: strings and numbers. *)
Inductive JSValue :=
| VString (s : text)
| VNumber (n : N).

(** Conversion to string inside a template literal. *)
Definition ToString (v : JSValue) : text :=
  match v with
  | VString s => s
  | VNumber n => str (NilZero.string_of_uint (N.to_uint n))
  end.

Definition re_backslash : RegExp := mkRegExp (m_char (cc_is BACKSLASH)) 0.  (* /\\/gu *)
Definition re_dquote : RegExp := mkRegExp (m_char (cc_is DQUOTE)) 0.  (* a double quote, gu *)

(** [s.replace(re, template)] for a global pattern. *)
Definition replace_all_str (re : RegExp) (template : text) (s : text) : text :=
  replace_all re (by_template s template) s.

Definition yamlValue (val : JSValue) : JSValue :=
  match val with
  | VString s =>
      VString ([DQUOTE]
               ++ replace_all_str re_dquote [BACKSLASH; DQUOTE]
                    (replace_all_str re_backslash [BACKSLASH; BACKSLASH] s)
               ++ [DQUOTE])
  | _ => val
  end.

(** ** The patterns of the tool *)

Definition dot : Matcher := m_char cc_dot.
Definition lf : Matcher := m_char (cc_is LF).

(** [/#.+\n+[^\n]*\n+(?:- .+\n+)*\n*/u] *)
Definition headerPattern : RegExp :=
  mkRegExp
    (m_seqs [m_lit (str "#"); m_plus dot; m_plus lf; m_star (m_char (cc_not LF));
             m_plus lf;
             m_star (m_seqs [m_lit (str "- "); m_plus dot; m_plus lf]);
             m_star lf])
    0.

(** [/## Implementation[\s\S]+$/u] *)
Definition footerPattern : RegExp :=
  mkRegExp (m_seqs [m_lit (str "## Implementation"); m_plus (m_char cc_any); m_eol]) 0.

(** [/<eslint-code-block(.*?)>/gu] *)
Definition codeBlockPattern : RegExp :=
  mkRegExp
    (m_seqs [m_lit (str "<eslint-code-block"); m_group 0 (m_star_lazy dot);
             m_lit (str ">")])
    1.

(** [/(<eslint-code-block([\s\S]*?)>)\n+```/gmu] *)
Definition openFencePattern : RegExp :=
  mkRegExp
    (m_seqs [m_group 0 (m_seqs [m_lit (str "<eslint-code-block");
                                m_group 1 (m_star_lazy (m_char cc_any));
                                m_lit (str ">")]);
             m_plus lf; m_lit (str "```")])
    2.

(** [/```\n+<\/eslint-code-block>/gmu] *)
Definition closeFencePattern : RegExp :=
  mkRegExp (m_seqs [m_lit (str "```"); m_plus lf; m_lit (str "</eslint-code-block>")]) 0.

(** [/^---\n(.*\n)+---\n*/gu] *)
Definition fileIntroPattern : RegExp :=
  mkRegExp
    (m_seqs [m_bol; m_lit (str "---"); lf;
             m_repeat 1 true [0] (m_group 0 (m_seqs [m_star dot; lf]));
             m_lit (str "---"); m_star lf])
    1.

(** [/\r?\n/gu] *)
Definition newlinePattern : RegExp :=
  mkRegExp (m_seqs [m_opt (m_char (cc_is CR)); lf]) 0.

(** ** [DocFile.updateHeader] *)

Definition fixNote : text :=
  str "- :wrench: The `--fix` option on the [command line](https://eslint.org/docs/user-guide/command-line-interface#fixing-problems) can automatically fix some of the problems reported by this rule.".

Definition replacedRule (name : text) : text :=
  str "[yml/" ++ name ++ str "](" ++ name ++ str ".md) rule".

Definition preset (cat : text) : text :=
  str "`" ++ [DQUOTE] ++ str "plugin:yml/" ++ cat ++ [DQUOTE] ++ str "`".

Definition deprecatedNote (replaced : option (list text)) : text :=
  match replaced with
  | Some names =>
      str "- :warning: This rule was **deprecated** and replaced by "
      ++ formatItems (map replacedRule names) ++ str "."
  | None => str "- :warning: This rule was **deprecated**."
  end.

Definition presetNote (sorted : list text) : text :=
  str "- :gear: This rule is included in " ++ formatItems (map preset sorted) ++ str ".".

(** The [notes] array just before it is joined. *)
Definition notes (r : RuleModule) : list text :=
  let m := meta r in
  let n1 :=
    if deprecated m then [deprecatedNote (replacedBy (docs m))]
    else match categories (docs m) with
         | Some cats => [presetNote (sort cats)]
         | None => []
         end in
  let n2 := if fixable m then n1 ++ [fixNote] else n1 in
  if 1 <=? length n2 then n2 ++ [[]; []] else n2.

Definition title (r : RuleModule) : text :=
  str "# " ++ ruleId (docs (meta r)) ++ [LF; LF] ++ str "> " ++ description (docs (meta r)).

Definition header (r : RuleModule) : text :=
  title r ++ [LF; LF] ++ join [LF] (notes r).

(** The descriptor after [updateHeader]: on the non-deprecated path
    [categories.sort()] sorts the descriptor's own array in place. *)
Definition rule_after_updateHeader (r : RuleModule) : RuleModule :=
  let m := meta r in
  let d := docs m in
  if deprecated m then r
  else match categories d with
       | Some cats =>
           mkRule (mkMeta (fixable m) (deprecated m)
                     (mkDocs (ruleId d) (ruleName d) (description d)
                             (Some (sort cats)) (replacedBy d) (extensionRule d)))
       | None => r
       end.

Definition updateHeader (d : DocFile) : DocFile :=
  let h := header (rule d) in
  mkDocFile (rule_after_updateHeader (rule d)) (filePath d)
    (if test headerPattern (content d)
     then replace_first headerPattern (by_template (content d) h) (content d)
     else h ++ trim (content d) ++ [LF]).

(** ** [DocFile.updateFooter] *)

Definition footer (r : RuleModule) : text :=
  let name := ruleName (docs (meta r)) in
  lines ["## Implementation"; ""]
  ++ str "- [Rule source](https://github.com/ota-meshi/eslint-plugin-yml/blob/master/src/rules/"
  ++ name ++ str ".ts)" ++ [LF]
  ++ str "- [Test source](https://github.com/ota-meshi/eslint-plugin-yml/blob/master/tests/src/rules/"
  ++ name ++ str ".js)" ++ [LF]
  ++ (if extensionRule (docs (meta r))
      then [LF] ++ str "<sup>Taken with " ++ [10084%N; 65039%N]
           ++ str " [from ESLint core](https://eslint.org/docs/rules/" ++ name
           ++ str ")</sup>" ++ [LF]
      else []).

Definition updateFooter (d : DocFile) : DocFile :=
  let f := footer (rule d) in
  with_content d
    (if test footerPattern (content d)
     then replace_first footerPattern (by_template (content d) f) (content d)
     else trim (content d) ++ [LF; LF] ++ f).

(** ** [DocFile.updateCodeBlocks] *)

(** [str.split(/\s+/u)]: the pieces between maximal runs of white space;
    [cur] is the piece being read, reversed, and [inRun] tells whether the
    previous character was white space. *)
Fixpoint split_ws (cur : text) (inRun : bool) (s : text) : list text :=
  match s with
  | [] => if inRun then [[]] else [rev cur]
  | c :: s' =>
      if isWhiteSpace c then
        if inRun then split_ws [] true s' else rev cur :: split_ws [] true s'
      else split_ws (c :: cur) false s'
  end.

Definition split_whitespace (s : text) : list text := split_ws [] false s.

Definition keep_attr (s : text) : bool :=
  negb (bool_decide (s = [])) && negb (bool_decide (s = str "fix")).

(** The callback given to [replace]: [(_t, str) => ...]. *)
Definition codeBlockTag (fixable : bool) (attrs : text) : text :=
  let ps := List.filter keep_attr (map trim (split_whitespace attrs)) in
  let ps := if fixable then str "fix" :: ps else ps in
  let ps := str "<eslint-code-block" :: ps in
  join [SPACE] ps ++ str ">".

Definition codeBlockReplacer (fixable : bool) : Replacer :=
  fun _ _ caps => codeBlockTag fixable (capture_text caps 1).

Definition updateCodeBlocks (d : DocFile) : DocFile :=
  with_content d
    (replace_all codeBlockPattern (codeBlockReplacer (fixable (meta (rule d))))
       (content d)).

(** ** [DocFile.adjustCodeBlocks] *)

Definition adjustOpen (s : text) : text :=
  replace_all_str openFencePattern (str "$1" ++ [LF; LF] ++ str "```") s.

Definition adjustClose (s : text) : text :=
  replace_all_str closeFencePattern (str "```" ++ [LF; LF] ++ str "</eslint-code-block>") s.

Definition adjustCodeBlocks (d : DocFile) : DocFile :=
  with_content d (adjustClose (adjustOpen (content d))).

(** ** [DocFile.updateFileIntro] *)

Definition fileIntro (r : RuleModule) : list (text * JSValue) :=
  [ (str "pageClass", VString (str "rule-details"));
    (str "sidebarDepth", VNumber 0);
    (str "title", VString (ruleId (docs (meta r))));
    (str "description", VString (description (docs (meta r)))) ].

Definition computed (r : RuleModule) : text :=
  str "---" ++ [LF]
  ++ join [LF] (map (fun kv => fst kv ++ str ": " ++ ToString (yamlValue (snd kv)))
                    (fileIntro r))
  ++ [LF] ++ str "---" ++ [LF].

Definition updateFileIntro (d : DocFile) : DocFile :=
  let c := computed (rule d) in
  with_content d
    (if test fileIntroPattern (content d)
     then replace_all fileIntroPattern (by_template (content d) c) (content d)
     else c ++ trim (content d) ++ [LF]).

(** ** Reading, writing and the main loop *)

(** The file system: the content of every file that exists, by path. *)
Abbreviation FileSystem := (gmap (list N) text).

Section Run.
(** The environment: the documentation root, [path.join] and whether the
    platform is Windows. *)
Variables (ROOT : text) (path_join : text -> text -> text) (isWin : bool).

Definition docPath (r : RuleModule) : text :=
  path_join ROOT (ruleName (docs (meta r)) ++ str ".md").

(** [DocFile.read]: [fs.readFileSync] throws when the file does not exist
    ([None] here). *)
Definition read (fs : FileSystem) (r : RuleModule) : option DocFile :=
  match fs !! docPath r with
  | Some s => Some (mkDocFile r (docPath r) s)
  | None => None
  end.

Definition write (d : DocFile) (fs : FileSystem) : FileSystem :=
  let s := replace_all_str newlinePattern (if isWin then [CR; LF] else [LF])
                           (content d) in
  <[filePath d := s]> fs.

Definition transform (d : DocFile) : DocFile :=
  adjustCodeBlocks (updateFileIntro (updateCodeBlocks (updateFooter (updateHeader d)))).

(** One iteration of the loop: [None] when the read throws. *)
Definition processRule (fs : FileSystem) (r : RuleModule)
  : option (RuleModule * FileSystem) :=
  match read fs r with
  | Some d => let d' := transform d in Some (rule d', write d' fs)
  | None => None
  end.

(** How the run ended. *)
Inductive Outcome :=
| Completed
| Thrown (r : RuleModule).   (* the read for [r] threw *)

(** The loop over the registry: the registry after the run (descriptors
    are shared with it), the file system and the outcome.  An exception
    ends the loop. *)
Fixpoint main (rules : list RuleModule) (fs : FileSystem)
  : list RuleModule * FileSystem * Outcome :=
  match rules with
  | [] => ([], fs, Completed)
  | r :: rest =>
      match processRule fs r with
      | None => (r :: rest, fs, Thrown r)
      | Some (r', fs') =>
          let '(rest', fs'', o) := main rest fs' in
          (r' :: rest', fs'', o)
      end
  end.
End Run.

(** * Definitions of the development

    What the statements and the proofs below use besides the program:
    specifications of single matchers, the scan and stream readings of the
    global replacements, and the rules and documents of the instances. *)

(** What is left of [t] after the literal [s], if [t] starts with it. *)
Fixpoint lit_rest (s t : text) : option text :=
  match s with
  | [] => Some t
  | a :: s' =>
      match t with
      | ch :: t' => if cc_is a ch then lit_rest s' t' else None
      | [] => None
      end
  end.

(** Greedy: as many characters as possible first. *)
Fixpoint greedy_try (p : char -> bool) (i : nat) (t : text)
    (caps : list (option text)) (c : Continuation) : option MatchState :=
  match t with
  | ch :: r =>
      if p ch then
        match greedy_try p (S i) r caps c with
        | Some z => Some z
        | None => c (mkState i t caps)
        end
      else c (mkState i t caps)
  | [] => c (mkState i [] caps)
  end.

(** Lazy: as few characters as possible first. *)
Fixpoint lazy_try (p : char -> bool) (i : nat) (t : text)
    (caps : list (option text)) (c : Continuation) : option MatchState :=
  match c (mkState i t caps) with
  | Some z => Some z
  | None =>
      match t with
      | ch :: r => if p ch then lazy_try p (S i) r caps c else None
      | [] => None
      end
  end.

(** Length of the longest prefix of [t] in the class [p]. *)
Fixpoint span (p : char -> bool) (t : text) : nat :=
  match t with
  | ch :: r => if p ch then S (span p r) else 0
  | [] => 0
  end.

Definition honest (m : Matcher) : Prop :=
  forall x c z, m x c = Some z -> exists y, c y = Some z.

Fixpoint gscan (step : text -> option (text * text)) (fuel : nat) (s : text) : text :=
  match fuel with
  | O => s
  | S fuel' =>
      match step s with
      | Some (o, r) => o ++ gscan step fuel' r
      | None =>
          match s with
          | [] => []
          | ch :: s' => ch :: gscan step fuel' s'
          end
      end
  end.

Definition scan (step : text -> option (text * text)) (s : text) : text :=
  gscan step (S (length s)) s.

(** [step] only ever returns a strictly shorter rest. *)
Definition shrinking (step : text -> option (text * text)) : Prop :=
  forall t o r, step t = Some (o, r) -> length r < length t.

Definition occurs (u t : text) : Prop := exists pre post, t = pre ++ u ++ post.

Fixpoint occursb (u t : text) : bool :=
  match lit_rest u t with
  | Some _ => true
  | None => match t with [] => false | _ :: t' => occursb u t' end
  end.

(** [f] holds of what follows every occurrence of [u] in [t]. *)
Fixpoint after_all (u : text) (f : text -> bool) (t : text) : bool :=
  match lit_rest u t with Some r => f r | None => true end
  && match t with [] => true | _ :: t' => after_all u f t' end.

Definition fixNotes (r : RuleModule) : list text :=
  if fixable (meta r) then [fixNote] else [].

Definition deprecationText (A B C : text) : text :=
  str "- :warning: This rule was **deprecated** and replaced by all of [yml/"
  ++ A ++ str "](" ++ A ++ str ".md) rule, [yml/"
  ++ B ++ str "](" ++ B ++ str ".md) rule and [yml/"
  ++ C ++ str "](" ++ C ++ str ".md) rule.".

(** The replacement text as the specification words it: no [yml/] in the
    link texts. *)
Definition claimedReplacementText (A B C : text) : text :=
  str "replaced by all of ["
  ++ A ++ str "](" ++ A ++ str ".md) rule, ["
  ++ B ++ str "](" ++ B ++ str ".md) rule and ["
  ++ C ++ str "](" ++ C ++ str ".md) rule.".

Definition rule_replaced_by_ABC : RuleModule :=
  mkRule (mkMeta false true
    (mkDocs (str "yml/old-rule") (str "old-rule") (str "disallow old things")
            None (Some [str "A"; str "B"; str "C"]) false)).

Definition doc_old_rule : DocFile :=
  mkDocFile rule_replaced_by_ABC (str "docs/rules/old-rule.md")
    (lines ["# yml/old-rule"; ""; "> disallow old things"; ""; "## Rule Details"]).

Definition rule_unsorted_categories : RuleModule :=
  mkRule (mkMeta false false
    (mkDocs (str "yml/indent") (str "indent") (str "enforce consistent indentation")
            (Some [str "standard"; str "recommended"]) None false)).

Definition doc_unsorted_categories : DocFile :=
  mkDocFile rule_unsorted_categories (str "docs/rules/indent.md")
    (lines ["# yml/indent"; ""; "> enforce consistent indentation"; ""; "## Rule Details"]).

Definition rule_empty_categories : RuleModule :=
  mkRule (mkMeta false false
    (mkDocs (str "yml/spacing") (str "spacing") (str "enforce spacing")
            (Some []) None false)).

Definition rule_fixable_presets : RuleModule :=
  mkRule (mkMeta true false
    (mkDocs (str "yml/quotes") (str "quotes") (str "enforce consistent quotes")
            (Some [str "strict"; str "recommended"]) None false)).

Definition posix_join (a b : text) : text := a ++ str "/" ++ b.

(** Global replacement of one character by a text without [$]. *)
Definition char_step (a : char) (tpl : text) (t : text) : option (text * text) :=
  match t with
  | c :: r => if (c =? a)%N then Some (tpl, r) else None
  | [] => None
  end.

(** The escaping [yamlValue] performs: a backslash before every backslash
    and every double quote, nothing else changed. *)
Definition escape_char (c : char) : text :=
  if (c =? BACKSLASH)%N then [BACKSLASH; BACKSLASH]
  else if (c =? DQUOTE)%N then [BACKSLASH; DQUOTE]
  else [c].

Definition escape (s : text) : text := flat_map escape_char s.

(** Reading back a double-quoted scalar whose only escapes are those of a
    backslash and of a double quote; an unescaped double quote inside it, or
    any other escape, is an error. *)
Fixpoint unescape (s : text) : option text :=
  match s with
  | [] => Some []
  | c :: r =>
      if (c =? BACKSLASH)%N then
        match r with
        | e :: r' =>
            if (e =? BACKSLASH)%N || (e =? DQUOTE)%N
            then cons e <$> unescape r' else None
        | [] => None
        end
      else if (c =? DQUOTE)%N then None
      else cons c <$> unescape r
  end.

Definition unquote (s : text) : option text :=
  match s with
  | q :: r =>
      match rev r with
      | q' :: body =>
          if (q =? DQUOTE)%N && (q' =? DQUOTE)%N then unescape (rev body) else None
      | [] => None
      end
  | [] => None
  end.

Definition rule_dollar_description : RuleModule :=
  mkRule (mkMeta false false
    (mkDocs (str "yml/no-dollar") (str "no-dollar") (str "disallow $$ in plain scalars")
            None None false)).

Definition doc_dollar_description : DocFile :=
  mkDocFile rule_dollar_description (str "docs/rules/no-dollar.md")
    (computed rule_dollar_description ++ lines ["# yml/no-dollar"]).

Definition OPEN : text := str "<eslint-code-block".

(** The attributes of a tag: the text up to the first [>], when no line
    terminator comes before it; with the text after that [>]. *)
Fixpoint tag_close (t : text) : option (text * text) :=
  match t with
  | [] => None
  | ch :: r =>
      if (ch =? GT)%N then Some ([], r)
      else if cc_dot ch then
        match tag_close r with
        | Some (X, r') => Some (ch :: X, r')
        | None => None
        end
      else None
  end.

(** A character that may stand among the attributes of a tag. *)
Definition attr_char (c : char) : Prop := cc_dot c = true /\ c <> GT.

(** What replaces the tag at the head of [t], and what follows the tag. *)
Definition tag_step (fixable : bool) (t : text) : option (text * text) :=
  match lit_rest OPEN t with
  | Some r =>
      match tag_close r with
      | Some (X, r') => Some (codeBlockTag fixable X, r')
      | None => None
      end
  | None => None
  end.

Definition nonws (c : char) : Prop := isWhiteSpace c = false.

(** The attributes kept from a tag. *)
Definition tokens (attrs : text) : list text :=
  List.filter keep_attr (map trim (split_whitespace attrs)).

(** Every item preceded by a space. *)
Definition spaced (ps : list text) : text := concat (map (cons SPACE) ps).

Definition with_fix (fixable : bool) (ps : list text) : list text :=
  if fixable then str "fix" :: ps else ps.

(** A word of an attribute list: not empty, without white space. *)
Definition word (p : text) : Prop := p <> [] /\ Forall nonws p.

(** [OPEN] after its first character, [<]. *)
Definition OPEN_NAME : text := str "eslint-code-block".

Definition FENCE : text := str "```".
Definition CLOSE : text := str "</eslint-code-block>".

(** [t] starts with one or more line feeds followed by the literal [L]: the
    number of line feeds and what follows [L]. *)
Definition run_then (L : text) (t : text) : option (nat * text) :=
  match span (cc_is LF) t with
  | 0 => None
  | S k =>
      match lit_rest L (drop (S k) t) with
      | Some r => Some (S k, r)
      | None => None
      end
  end.

Definition close_out : text := FENCE ++ [LF; LF] ++ CLOSE.

Definition close_step (t : text) : option (text * text) :=
  match lit_rest FENCE t with
  | Some r0 =>
      match run_then CLOSE r0 with
      | Some (_, r) => Some (close_out, r)
      | None => None
      end
  | None => None
  end.

(** The first [>] of [t] that is followed by line feeds and a fence: the
    text in front of it, the number of line feeds, the text after the
    fence. *)
Fixpoint find_close (t : text) : option (text * nat * text) :=
  match t with
  | [] => None
  | c :: t' =>
      match (if (c =? GT)%N then run_then FENCE t' else None) with
      | Some (k, r) => Some ([], k, r)
      | None =>
          match find_close t' with
          | Some (X, k, r) => Some (c :: X, k, r)
          | None => None
          end
      end
  end.

(** [X] holds no [>] followed by line feeds and a fence, when [w] follows
    [X]. *)
Definition quiet (X w : text) : Prop :=
  forall a b, X = a ++ GT :: b -> run_then FENCE (b ++ w) = None.

(** What replaces the opening tag and fence at the head of [t], and what
    follows them. *)
Definition open_out (X : text) : text := OPEN ++ X ++ [GT] ++ [LF; LF] ++ FENCE.

Definition open_step (t : text) : option (text * text) :=
  match lit_rest OPEN t with
  | Some r0 =>
      match find_close r0 with
      | Some (X, _, r) => Some (open_out X, r)
      | None => None
      end
  | None => None
  end.

Definition BACKTICK : char := 96%N.
Definition LT : char := 60%N.

Definition starts_open (t : text) : bool :=
  match lit_rest OPEN t with Some _ => true | None => false end.

Definition fence_follows (t : text) : bool :=
  match run_then FENCE t with Some _ => true | None => false end.

Definition skip_lf (t : text) : text := drop (span (cc_is LF) t) t.

Fixpoint go (n : nat) (act : bool) (t : text) : text :=
  match n with
  | O => t
  | S n' =>
      match t with
      | [] => []
      | c :: t' =>
          let act1 := act || starts_open t in
          if act1 && (c =? GT)%N && fence_follows t'
          then GT :: LF :: LF :: go n' false (skip_lf t')
          else c :: go n' act1 t'
      end
  end.

Definition stream (act : bool) (t : text) : text := go (length t) act t.

Definition CLOSE_BODY : text := str "/eslint-code-block".

Definition doc_blocks : DocFile :=
  mkDocFile rule_fixable_presets (str "docs/rules/quotes.md")
    (lines ["<eslint-code-block fix>"; "```yaml"; "a: 1"; "```"; ""; ""; "";
            "</eslint-code-block>"]).

Definition DASHES : text := str "---".

(** One line of the block, [(.*\n)]. *)
Definition lineMatcher : Matcher := m_group 0 (m_seqs [m_star dot; lf]).

(** What follows the lines in the pattern: [---\n*]. *)
Definition closing : Continuation :=
  fun y => m_seqs [m_lit (str "---"); m_star lf] y Some.

(** The first line of [t]: its length and what follows its line feed.  A line
    holds no line terminator. *)
Definition line_rest (t : text) : option (nat * text) :=
  match drop (span cc_dot t) t with
  | ch :: r => if cc_is LF ch then Some (span cc_dot t, r) else None
  | [] => None
  end.

Definition block (Ls : list text) : text := concat (map (fun L => L ++ [LF]) Ls).

Definition doc_front_matter : DocFile :=
  mkDocFile rule_fixable_presets (str "docs/rules/quotes.md")
    (lines ["---"; "pageClass: old"; "title: old"; "---"; ""; "# yml/quotes"]).

(** What replaces the line end at the head of [t] ([\r?\n]), and what follows
    it. *)
Definition newline_step (nl : text) (t : text) : option (text * text) :=
  match t with
  | c :: r =>
      if (c =? LF)%N then Some (nl, r)
      else if (c =? CR)%N then
        match r with
        | c' :: r' => if (c' =? LF)%N then Some (nl, r') else None
        | [] => None
        end
      else None
  | [] => None
  end.

(** The line end of the platform. *)
Definition newline (isWin : bool) : text := if isWin then [CR; LF] else [LF].

(** Every line feed of [t] stands after a carriage return. *)
Definition lf_after_cr (t : text) : Prop :=
  forall pre post, t = pre ++ LF :: post -> exists pre', pre = pre' ++ [CR].

Definition not_CR (c : char) : bool := negb (c =? CR)%N.

(** The text [write] stores for a document. *)
Definition written (isWin : bool) (d : DocFile) : text :=
  replace_all_str newlinePattern (if isWin then [CR; LF] else [LF]) (content d).

Definition fs_two_rules : FileSystem :=
  {[ str "docs/rules/indent.md" := content doc_unsorted_categories;
     str "docs/rules/old-rule.md" := content doc_old_rule;
     str "docs/README.md" := lines ["# Rules"] ]}.

Definition IMPL : text := str "## Implementation".

(** A match of the footer pattern starts at the head of [t]: the heading and
    one character at least. *)
Definition heads_footer (t : text) : bool :=
  match lit_rest IMPL t with
  | Some (_ :: _) => true
  | _ => false
  end.

Definition doc_with_footer : DocFile :=
  mkDocFile rule_unsorted_categories (str "docs/rules/indent.md")
    (lines ["# yml/indent"; ""; "## Implementation"; ""; "- [old link](old.ts)"]).

Definition doc_heading_at_end : DocFile :=
  mkDocFile rule_unsorted_categories (str "docs/rules/indent.md")
    (lines ["# yml/indent"; ""] ++ IMPL).

Definition not_LF (c : char) : bool := negb (c =? LF)%N.

Definition doc_fix_twice : DocFile :=
  mkDocFile rule_fixable_presets (str "docs/rules/quotes.md")
    (lines ["# yml/quotes"; ""] ++ OPEN ++ str "  fix   rules fix " ++ GT :: lines [""; "text"]).

Definition HASH : char := 35%N.




Definition doc_no_header : DocFile :=
  mkDocFile rule_fixable_presets (str "docs/rules/quotes.md")
    (lines [""; "Some text."; ""] ++ [SPACE]).

Definition doc_old_header : DocFile :=
  mkDocFile rule_fixable_presets (str "docs/rules/quotes.md")
    (lines ["---"; "title: x"; "---"; ""; "# yml/quotes"; "> old description"; "";
            "- :gear: old note"; "- :wrench: old note"; ""; ""; "## Rule Details"]).

(** The lines between the two [---] of the generated block. *)
Definition intro_lines (r : RuleModule) : list text :=
  map (fun kv => fst kv ++ str ": " ++ ToString (yamlValue (snd kv))) (fileIntro r).

(** The characters [yamlValue] escapes. *)
Definition escaped (c : char) : bool := (c =? BACKSLASH)%N || (c =? DQUOTE)%N.

(** The generated block around the id and the description, both escaped. *)
Definition intro_head : text :=
  str "---" ++ [LF]
  ++ str "pageClass: " ++ [DQUOTE] ++ str "rule-details" ++ [DQUOTE] ++ [LF]
  ++ str "sidebarDepth: 0" ++ [LF]
  ++ str "title: " ++ [DQUOTE].

Definition intro_mid : text := [DQUOTE] ++ [LF] ++ str "description: " ++ [DQUOTE].

Definition intro_tail : text := [DQUOTE] ++ [LF] ++ str "---" ++ [LF].

(** No line feed of [P] stands right after a [>] or a backtick; [bad] tells
    whether the character in front of [P] is one of them. *)
Fixpoint guard (bad : bool) (P : text) : bool :=
  match P with
  | [] => true
  | c :: P' =>
      if (c =? LF)%N then negb bad && guard false P'
      else guard ((c =? GT)%N || (c =? BACKTICK)%N) P'
  end.

Definition doc_blank : DocFile :=
  mkDocFile rule_fixable_presets (str "docs/rules/quotes.md") [].

Definition doc_trailing_space : DocFile :=
  mkDocFile rule_fixable_presets (str "docs/rules/quotes.md")
    (lines ["<eslint-code-block fix> "; "```yaml"; "a: 1"; "```"; "</eslint-code-block>"]).

(** White space inside a tag: not a line terminator. *)
Definition inline_space (c : char) : Prop := isWhiteSpace c = true /\ cc_dot c = true.

(** Attributes written as white space and words in turn: each pair is the
    white space in front of a word, and the word. *)
Definition attr_segments (ps : list (text * text)) : text :=
  concat (map (fun p => fst p ++ snd p) ps).

Definition not_fix (w : text) : bool := negb (bool_decide (w = str "fix")).

Definition white (c : char) : Prop := isWhiteSpace c = true.

(** * Properties of the matchers *)

(** ** Literals *)

Lemma lit_rest_Some s t r : lit_rest s t = Some r <-> t = s ++ r.
Proof.
  revert t. induction s as [|a s IH]; intros t; simpl.
  - split; congruence.
  - destruct t as [|ch t]; [split; discriminate|].
    unfold cc_is. destruct (N.eqb_spec ch a) as [->|Hne].
    + rewrite IH. split; congruence.
    + split; [discriminate|]. intros [= ? ?]. congruence.
Qed.

Lemma lit_rest_app s r : lit_rest s (s ++ r) = Some r.
Proof. by apply lit_rest_Some. Qed.

Lemma lit_rest_None s t : lit_rest s t = None <-> forall r, t <> s ++ r.
Proof.
  split.
  - intros H r Hr. apply lit_rest_Some in Hr. congruence.
  - intros H. destruct (lit_rest s t) as [r|] eqn:E; [|done].
    apply lit_rest_Some in E. by destruct (H r).
Qed.

Lemma m_seqs_cons m ms x c : m_seqs (m :: ms) x c = m x (fun y => m_seqs ms y c).
Proof. reflexivity. Qed.

Lemma m_seqs_nil x c : m_seqs [] x c = c x.
Proof. reflexivity. Qed.

Lemma m_lit_eq s i t caps c :
  m_lit s (mkState i t caps) c =
  match lit_rest s t with
  | Some r => c (mkState (i + length s) r caps)
  | None => None
  end.
Proof.
  revert i t. induction s as [|a s IH]; intros i t; simpl.
  - unfold m_lit; simpl. unfold m_empty. by rewrite Nat.add_0_r.
  - change (m_lit (a :: s)) with (m_seq (m_char (cc_is a)) (m_lit s)).
    unfold m_seq, m_char; simpl. destruct t as [|ch t]; [done|].
    destruct (cc_is a ch); [|done]. rewrite IH.
    destruct (lit_rest s t); [|done]. f_equal. f_equal. lia.
Qed.

(** ** Repetition of a character class *)

Lemma RepeatMatcher_S fuel m min greedy groups x c :
  RepeatMatcher (S fuel) m min greedy groups x c =
  let d : Continuation := fun y =>
    if Nat.eqb min 0 && Nat.eqb (endIndex y) (endIndex x) then None
    else RepeatMatcher fuel m (pred min) greedy groups y c in
  let xr := clear_captures groups x in
  if negb (Nat.eqb min 0) then m xr d
  else if greedy then
    match m xr d with Some z => Some z | None => c x end
  else
    match c x with Some z => Some z | None => m xr d end.
Proof. reflexivity. Qed.

Lemma m_char_eq p i t caps c :
  m_char p (mkState i t caps) c =
  match t with
  | ch :: r => if p ch then c (mkState (S i) r caps) else None
  | [] => None
  end.
Proof. reflexivity. Qed.

Lemma clear_captures_nil x : clear_captures [] x = x.
Proof. by destruct x. Qed.

Lemma eqb_S_self i : Nat.eqb (S i) i = false.
Proof. apply Nat.eqb_neq. lia. Qed.

Lemma RepeatMatcher_char_greedy p fuel i t caps c :
  length t < fuel ->
  RepeatMatcher fuel (m_char p) 0 true [] (mkState i t caps) c
  = greedy_try p i t caps c.
Proof.
  revert i t. induction fuel as [|fuel IH]; intros i t Hlen; [lia|].
  rewrite RepeatMatcher_S. cbv zeta. rewrite clear_captures_nil, m_char_eq.
  change (Nat.eqb 0 0) with true; change (Nat.eqb 1 0) with false.
  cbn [remaining endIndex captures negb andb pred].
  destruct t as [|ch r]; [done|]. cbn [length greedy_try] in *.
  destruct (p ch); [|done].
  rewrite eqb_S_self, IH by lia. reflexivity.
Qed.

Lemma RepeatMatcher_char_lazy p fuel i t caps c :
  length t < fuel ->
  RepeatMatcher fuel (m_char p) 0 false [] (mkState i t caps) c
  = lazy_try p i t caps c.
Proof.
  revert i t. induction fuel as [|fuel IH]; intros i t Hlen; [lia|].
  rewrite RepeatMatcher_S. cbv zeta. rewrite clear_captures_nil, m_char_eq.
  change (Nat.eqb 0 0) with true; change (Nat.eqb 1 0) with false.
  cbn [remaining endIndex captures negb andb pred].
  destruct t as [|ch r]; cbn [length lazy_try] in *.
  - by destruct (c _).
  - destruct (c _); [done|]. destruct (p ch); [|done].
    rewrite eqb_S_self, IH by lia. reflexivity.
Qed.

Lemma m_star_char p i t caps c :
  m_star (m_char p) (mkState i t caps) c = greedy_try p i t caps c.
Proof. unfold m_star, m_repeat. apply RepeatMatcher_char_greedy. simpl. lia. Qed.

Lemma m_star_lazy_char p i t caps c :
  m_star_lazy (m_char p) (mkState i t caps) c = lazy_try p i t caps c.
Proof. unfold m_star_lazy, m_repeat. apply RepeatMatcher_char_lazy. simpl. lia. Qed.

Lemma m_plus_char p i t caps c :
  m_plus (m_char p) (mkState i t caps) c =
  match t with
  | ch :: r => if p ch then greedy_try p (S i) r caps c else None
  | [] => None
  end.
Proof.
  unfold m_plus, m_repeat. rewrite RepeatMatcher_S. cbv zeta.
  rewrite clear_captures_nil, m_char_eq.
  change (Nat.eqb 0 0) with true; change (Nat.eqb 1 0) with false.
  cbn [remaining endIndex captures negb andb pred].
  destruct t as [|ch r]; [done|]. destruct (p ch); [|done].
  apply RepeatMatcher_char_greedy. simpl. lia.
Qed.

Lemma span_le p t : span p t <= length t.
Proof. induction t as [|ch r IH]; simpl; [lia|]. destruct (p ch); simpl; lia. Qed.

(** A continuation that fails in front of a character of the class sees the
    longest run only. *)
Lemma greedy_try_max p i t caps c :
  (forall j ch r, p ch = true -> c (mkState j (ch :: r) caps) = None) ->
  greedy_try p i t caps c = c (mkState (i + span p t) (drop (span p t) t) caps).
Proof.
  intros Hc. revert i. induction t as [|ch r IH]; intros i; simpl.
  - by rewrite Nat.add_0_r.
  - destruct (p ch) eqn:E; simpl.
    + rewrite IH. replace (S i + span p r) with (i + S (span p r)) by lia.
      destruct (c (mkState (i + S (span p r)) _ caps)) eqn:E2; [done|].
      by apply Hc.
    + by rewrite Nat.add_0_r.
Qed.

(** A continuation that always succeeds stops the greedy run at its end. *)
Lemma greedy_try_Some p i t caps :
  greedy_try p i t caps Some = Some (mkState (i + span p t) (drop (span p t) t) caps).
Proof.
  revert i. induction t as [|ch r IH]; intros i; simpl.
  - by rewrite Nat.add_0_r.
  - destruct (p ch) eqn:E; simpl.
    + rewrite IH. do 2 f_equal. lia.
    + by rewrite Nat.add_0_r.
Qed.

Lemma span_drop_head p t ch r : drop (span p t) t = ch :: r -> p ch = false.
Proof.
  induction t as [|a t IH]; simpl; [done|].
  destruct (p a) eqn:E; simpl; [done|]. by intros [= -> _].
Qed.

(** ** Matchers only succeed through their continuation *)

Lemma honest_char p : honest (m_char p).
Proof.
  intros x c z. unfold m_char. destruct (remaining x); [done|].
  destruct (p _); [|done]. eauto.
Qed.

Lemma honest_seq m1 m2 : honest m1 -> honest m2 -> honest (m_seq m1 m2).
Proof.
  intros H1 H2 x c z H. apply H1 in H as [y Hy]. by apply H2 in Hy.
Qed.

Lemma honest_empty : honest m_empty.
Proof. intros x c z H. eauto. Qed.

Lemma honest_seqs ms : Forall honest ms -> honest (m_seqs ms).
Proof.
  induction 1 as [|m ms Hm _ IH]; [apply honest_empty|].
  by apply honest_seq.
Qed.

Lemma honest_lit s : honest (m_lit s).
Proof.
  apply honest_seqs. induction s; simpl; constructor; [apply honest_char|done].
Qed.

Lemma honest_RepeatMatcher fuel m min greedy groups :
  honest m -> honest (RepeatMatcher fuel m min greedy groups).
Proof.
  intros Hm. revert min. induction fuel as [|fuel IH]; intros min x c z; [done|].
  simpl. destruct (negb (Nat.eqb min 0)).
  - intros H. apply Hm in H as [y Hy].
    destruct (_ && _); [done|]. by apply IH in Hy.
  - destruct greedy.
    + destruct (m _ _) eqn:E.
      * intros [= ->]. apply Hm in E as [y Hy].
        destruct (_ && _); [done|]. by apply IH in Hy.
      * eauto.
    + destruct (c x) eqn:E; [intros [= ->]; eauto|].
      intros H. apply Hm in H as [y Hy].
      destruct (_ && _); [done|]. by apply IH in Hy.
Qed.

Lemma honest_repeat min greedy groups m : honest m -> honest (m_repeat min greedy groups m).
Proof. intros Hm x c z. unfold m_repeat. by apply honest_RepeatMatcher. Qed.

Lemma honest_group i m : honest m -> honest (m_group i m).
Proof. intros Hm x c z H. apply Hm in H as [y Hy]. eauto. Qed.

(** ** Global replacement as a scan

    When a pattern cannot match the empty string and neither the match at a
    position nor what replaces it depends on that position, a global
    replacement is a scan of the text: [step t] is what replaces the match at
    the head of [t], with the text that follows it. *)

Section Scan.
Variable step : text -> option (text * text).
Hypothesis step_shrinks : shrinking step.

Lemma gscan_fuel f g s :
  length s < f -> length s < g -> gscan step f s = gscan step g s.
Proof.
  revert g s. induction f as [|f IH]; intros g s Hf Hg; [lia|].
  destruct g as [|g]; [lia|]. simpl.
  destruct (step s) as [[o r]|] eqn:E.
  - apply step_shrinks in E. f_equal. apply IH; lia.
  - destruct s as [|ch s']; [done|]. simpl in *. f_equal. apply IH; lia.
Qed.

Lemma scan_match s o r : step s = Some (o, r) -> scan step s = o ++ scan step r.
Proof.
  intros E. unfold scan at 1. cbn [gscan]. rewrite E. f_equal.
  apply step_shrinks in E. unfold scan. apply gscan_fuel; lia.
Qed.

Lemma scan_skip ch s : step (ch :: s) = None -> scan step (ch :: s) = ch :: scan step s.
Proof.
  intros E. unfold scan at 1. cbn [gscan]. rewrite E. reflexivity.
Qed.

Lemma scan_nil : scan step [] = [].
Proof.
  unfold scan. simpl. destruct (step []) as [[o r]|] eqn:E; [|done].
  apply step_shrinks in E. simpl in E. lia.
Qed.

(** Induction along the scan. *)
Lemma scan_ind (P : text -> Prop) :
  P [] ->
  (forall ch s, step (ch :: s) = None -> P s -> P (ch :: s)) ->
  (forall s o r, step s = Some (o, r) -> P r -> P s) ->
  forall s, P s.
Proof.
  intros Hnil Hskip Hmatch s.
  remember (length s) as n eqn:Hn. revert s Hn.
  induction n as [n IH] using lt_wf_ind. intros s ->.
  destruct (step s) as [[o r]|] eqn:E.
  - apply (Hmatch _ _ _ E). apply (IH (length r)); [by eapply step_shrinks|done].
  - destruct s as [|ch s']; [done|].
    apply Hskip; [done|]. apply (IH (length s')); [simpl; lia|done].
Qed.

(** The scan copies the text up to the first match. *)
Lemma scan_app_skip u v :
  (forall u1 u2, u = u1 ++ u2 -> u2 <> [] -> step (u2 ++ v) = None) ->
  scan step (u ++ v) = u ++ scan step v.
Proof.
  induction u as [|ch u IH]; intros H; [done|].
  simpl. rewrite scan_skip.
  - f_equal. apply IH. intros u1 u2 -> Hne. apply (H (ch :: u1)); done.
  - apply (H [] (ch :: u)); done.
Qed.

Variables (re : RegExp) (repl : Replacer).

(** The pattern and the replacer agree with [step]. *)
Hypothesis step_spec : forall i t,
  match matcher re (mkState i t (replicate (nCaptures re) None)) Some with
  | Some y =>
      exists n, 1 <= n /\ endIndex y = i + n /\ remaining y = drop n t /\
        step t = Some (repl (take n t) i (captures y), drop n t)
  | None => step t = None
  end.

Lemma exec_from_ge i s p y : exec_from re i s = Some (p, y) -> i <= p.
Proof.
  revert i. induction s as [|ch s IH]; intros i; simpl.
  - destruct (matcher re _ _); [|done]. intros [= <- _]. lia.
  - destruct (matcher re _ _); [intros [= <- _]; lia|].
    intros H. apply IH in H. lia.
Qed.

Lemma replace_loop_skip fuel i ch s :
  step (ch :: s) = None ->
  replace_loop (S fuel) re repl i (ch :: s)
  = ch :: replace_loop (S fuel) re repl (S i) s.
Proof.
  intros E. cbn [replace_loop exec_from].
  pose proof (step_spec i (ch :: s)) as H.
  destruct (matcher re _ _) as [y|].
  { destruct H as (n & _ & _ & _ & H). congruence. }
  destruct (exec_from re (S i) s) as [[p y]|] eqn:Ex; [|done].
  apply exec_from_ge in Ex.
  replace (p - i) with (S (p - S i)) by lia. reflexivity.
Qed.

Lemma replace_loop_gscan fuel g i s :
  length s < fuel -> length s < g ->
  replace_loop fuel re repl i s = gscan step g s.
Proof.
  revert g i s. induction fuel as [|fuel IH]; intros g i s Hf Hg; [lia|].
  revert g i Hf Hg. induction s as [|ch s IHs]; intros g i Hf Hg.
  - destruct g; [simpl in *; lia|].
    cbn [replace_loop exec_from gscan].
    pose proof (step_spec i []) as H.
    destruct (matcher re _ _) as [y|].
    + destruct H as (n & Hn & _ & _ & H). apply step_shrinks in H.
      simpl in H. lia.
    + by rewrite H.
  - destruct g as [|g]; [lia|].
    destruct (step (ch :: s)) as [[o r]|] eqn:E.
    + cbn [replace_loop exec_from gscan]. rewrite E.
      pose proof (step_spec i (ch :: s)) as H.
      destruct (matcher re _ _) as [y|]; [|congruence].
      destruct H as (n & Hn & Hy & Hr & H). rewrite E in H.
      injection H as -> ->.
      rewrite Nat.sub_diag, Hy. cbn [take drop app].
      replace (i + n - i) with n by lia.
      replace (Nat.eqb (i + n) i) with false by (symmetry; apply Nat.eqb_neq; lia).
      rewrite Hr. f_equal. apply step_shrinks in E. simpl in *.
      apply IH; lia.
    + rewrite replace_loop_skip by done. cbn [gscan]. rewrite E. f_equal.
      simpl in *. apply IHs; lia.
Qed.

Lemma replace_all_scan s : replace_all re repl s = scan step s.
Proof. unfold replace_all, scan. apply replace_loop_gscan; lia. Qed.
End Scan.

(** ** Properties of [GetSubstitution] *)

Section GetSubstitutionFacts.
Variables (matched str0 : text) (position : nat) (caps : list (option text)).
Local Abbreviation GS := (GetSubstitution matched str0 position caps).

(** A template without [$] stands for itself. *)
Lemma GetSubstitution_plain_app a b : DOLLAR ∉ a -> GS (a ++ b) = a ++ GS b.
Proof.
  induction a as [|c a IH]; intros H; [done|].
  apply not_elem_of_cons in H as [Hc Ha].
  cbn [app GetSubstitution].
  destruct (N.eqb_spec c DOLLAR); [done|]. cbn [negb]. by rewrite IH.
Qed.

Lemma GetSubstitution_plain a : DOLLAR ∉ a -> GS a = a.
Proof.
  intros H. rewrite <- (app_nil_r a) at 1.
  rewrite GetSubstitution_plain_app by done. simpl. apply app_nil_r.
Qed.

Lemma GetSubstitution_cons3 c d e t3 :
  GS (c :: d :: e :: t3) =
  if negb (c =? DOLLAR)%N then c :: GS (d :: e :: t3)
  else if (d =? DOLLAR)%N then DOLLAR :: GS (e :: t3)
  else if (d =? 38)%N then matched ++ GS (e :: t3)
  else if (d =? 96)%N then take position str0 ++ GS (e :: t3)
  else if (d =? 39)%N then drop (position + length matched) str0 ++ GS (e :: t3)
  else if isDigit d then
    let one :=
      if (1 <=? digitValue d) && (digitValue d <=? length caps)
      then capture_text caps (digitValue d) ++ GS (e :: t3)
      else c :: d :: GS (e :: t3) in
    if isDigit e then
      let index := 10 * digitValue d + digitValue e in
      if length caps <? index then one
      else if 1 <=? index then capture_text caps index ++ GS t3
      else c :: d :: e :: GS t3
    else one
  else c :: GS (d :: e :: t3).
Proof. reflexivity. Qed.

Lemma GetSubstitution_cons2 c d :
  GS [c; d] =
  if negb (c =? DOLLAR)%N then c :: GS [d]
  else if (d =? DOLLAR)%N then [DOLLAR]
  else if (d =? 38)%N then matched ++ []
  else if (d =? 96)%N then take position str0 ++ []
  else if (d =? 39)%N then drop (position + length matched) str0 ++ []
  else if isDigit d then
    if (1 <=? digitValue d) && (digitValue d <=? length caps)
    then capture_text caps (digitValue d) ++ []
    else [c; d]
  else c :: GS [d].
Proof. reflexivity. Qed.

Lemma GetSubstitution_cons1 c : GS [c] = [c].
Proof. simpl. by destruct (negb _). Qed.

Lemma GetSubstitution_LF b : GS (LF :: b) = LF :: GS b.
Proof. reflexivity. Qed.

(** A line feed ends every [$] pattern: the template is expanded line by
    line. *)
Lemma GetSubstitution_app_LF a b : GS (a ++ LF :: b) = GS a ++ LF :: GS b.
Proof.
  remember (length a) as n eqn:Hn. revert a Hn.
  induction n as [n IH] using lt_wf_ind. intros a ->.
  assert (IH' : forall a', length a' < length a ->
            GS (a' ++ LF :: b) = GS a' ++ LF :: GS b).
  { intros a' Hlt. by apply (IH (length a')). }
  clear IH.
  destruct a as [|c [|d [|e t3]]]; cbn [app length] in *.
  - reflexivity.
  - rewrite GetSubstitution_cons1. cbn [app]. 
    change (GS (c :: LF :: b)) with
      (if negb (c =? DOLLAR)%N then c :: GS (LF :: b) else c :: GS (LF :: b)).
    by destruct (negb _).
  - rewrite GetSubstitution_cons3, GetSubstitution_cons2.
    change (isDigit LF) with false. cbv zeta.
    pose proof (IH' [d] ltac:(simpl; lia)) as Hd. cbn [app] in Hd.
    rewrite !GetSubstitution_LF in *.
    repeat match goal with
           | |- context [if ?b then _ else _] => destruct b
           end;
      rewrite <- ?app_assoc; cbn [app]; rewrite ?Hd; reflexivity.
  - rewrite !GetSubstitution_cons3. cbv zeta.
    pose proof (IH' t3 ltac:(simpl; lia)) as H3.
    pose proof (IH' (e :: t3) ltac:(simpl; lia)) as H2.
    pose proof (IH' (d :: e :: t3) ltac:(simpl; lia)) as H1.
    cbn [app] in H1, H2, H3.
    repeat match goal with
           | |- context [if ?b then _ else _] => destruct b
           end;
      rewrite ?H1, ?H2, ?H3, <- ?app_assoc; reflexivity.
Qed.
End GetSubstitutionFacts.

(** ** Occurrences of a text in another *)

Lemma occursb_eq u t :
  occursb u t =
  match lit_rest u t with
  | Some _ => true
  | None => match t with [] => false | _ :: t' => occursb u t' end
  end.
Proof. by destruct t. Qed.

Lemma occursb_spec u t : occursb u t = true <-> occurs u t.
Proof.
  split.
  - induction t as [|ch t IH]; simpl.
    + destruct (lit_rest u []) as [r|] eqn:E; [|done].
      apply lit_rest_Some in E. intros _. by exists [], r.
    + destruct (lit_rest u (ch :: t)) as [r|] eqn:E.
      * apply lit_rest_Some in E. intros _. by exists [], r.
      * intros H. destruct (IH H) as (pre & post & ->). by exists (ch :: pre), post.
  - intros (pre & post & ->). induction pre as [|ch pre IH]; simpl.
    + by rewrite occursb_eq, lit_rest_app.
    + rewrite IH. by destruct (lit_rest _ _).
Qed.

Lemma after_all_eq u f t :
  after_all u f t =
  match lit_rest u t with Some r => f r | None => true end
  && match t with [] => true | _ :: t' => after_all u f t' end.
Proof. by destruct t. Qed.

Lemma after_all_spec u f t pre post :
  after_all u f t = true -> t = pre ++ u ++ post -> f post = true.
Proof.
  revert t. induction pre as [|ch pre IH]; intros t H ->; simpl in *.
  - rewrite after_all_eq, lit_rest_app in H. by apply andb_prop in H as [? _].
  - apply andb_prop in H as [_ H]. by eapply IH.
Qed.

(** ** The default sort order *)

Lemma units_le_total a b : units_le a b = true \/ units_le b a = true.
Proof.
  revert b. induction a as [|x a IH]; intros [|y b]; simpl; auto.
  destruct (N.ltb_spec x y), (N.ltb_spec y x); simpl; auto; try lia.
  assert (x = y) as -> by lia. rewrite N.eqb_refl. simpl. apply IH.
Qed.

Lemma units_le_trans a b c :
  units_le a b = true -> units_le b c = true -> units_le a c = true.
Proof.
  revert b c. induction a as [|x a IH]; intros [|y b] [|z c]; simpl; auto; try done.
  destruct (N.ltb_spec x y), (N.ltb_spec y z), (N.ltb_spec x z); simpl; auto; try lia.
  - destruct (N.eqb_spec y z); simpl; [lia|done].
  - destruct (N.eqb_spec x y); simpl; [lia|done].
  - destruct (N.eqb_spec x y), (N.eqb_spec y z), (N.eqb_spec x z); simpl; try done; try lia.
    apply IH.
Qed.

Global Instance sort_le_total : Total sort_le.
Proof. intros a b. apply units_le_total. Qed.

Global Instance sort_le_trans : Transitive sort_le.
Proof. intros a b c. apply units_le_trans. Qed.

(** [sort] returns the items in non-decreasing order. *)
Lemma sort_sorted items : StronglySorted sort_le (sort items).
Proof. apply StronglySorted_merge_sort; apply _. Qed.

Lemma sort_permutation items : sort items ≡ₚ items.
Proof. apply merge_sort_Permutation. Qed.

Lemma sort_nil_inv items : sort items = [] -> items = [].
Proof.
  intros H. pose proof (sort_permutation items) as P. rewrite H in P.
  symmetry in P. by apply Permutation_nil_r in P.
Qed.

(** ** [formatItems] *)

Lemma formatItems_nil : formatItems [] = [].
Proof. reflexivity. Qed.

Lemma formatItems_one a : formatItems [a] = a.
Proof. reflexivity. Qed.

Lemma formatItems_two a b : formatItems [a; b] = a ++ str " and " ++ b.
Proof. reflexivity. Qed.

Lemma removelast_snoc {A} (l : list A) z : removelast (l ++ [z]) = l.
Proof.
  induction l as [|x l IH]; [done|]. simpl.
  destruct (l ++ [z]) eqn:E; [by destruct l|]. by rewrite IH.
Qed.

Lemma last_snoc {A} (l : list A) z d : List.last (l ++ [z]) d = z.
Proof.
  induction l as [|x l IH]; [done|]. simpl.
  destruct (l ++ [z]) eqn:E; [by destruct l|]. done.
Qed.

Lemma formatItems_many l z :
  2 <= length l ->
  formatItems (l ++ [z]) = str "all of " ++ join (str ", ") l ++ str " and " ++ z.
Proof.
  intros H. unfold formatItems.
  rewrite length_app. simpl.
  destruct (Nat.leb_spec (length l + 1) 2); [lia|].
  by rewrite removelast_snoc, last_snoc.
Qed.

(** ** The header rewrite *)

Lemma exec_from_matcher re i s p y :
  exec_from re i s = Some (p, y) ->
  exists t, matcher re (mkState p t (replicate (nCaptures re) None)) Some = Some y.
Proof.
  revert i. induction s as [|ch s IH]; intros i; simpl.
  - destruct (matcher re _ _) eqn:E; [|done]. intros [= <- <-]. eauto.
  - destruct (matcher re _ _) eqn:E; [intros [= <- <-]; eauto|]. apply IH.
Qed.

(** What follows a match of the header pattern does not start with a line
    feed: the pattern ends with a greedy [\n*]. *)
Lemma headerPattern_rest i s p y :
  exec_from headerPattern i s = Some (p, y) -> head (remaining y) <> Some LF.
Proof.
  intros H. apply exec_from_matcher in H as [t H].
  unfold headerPattern, matcher in H.
  do 6 (rewrite m_seqs_cons in H;
        match type of H with
        | ?m _ _ = _ =>
            let Hh := fresh in
            assert (Hh : honest m)
              by (first [ apply honest_lit | apply honest_repeat ];
                  first [ apply honest_char
                        | apply honest_seqs; repeat constructor;
                          first [ apply honest_lit
                                | apply honest_repeat; apply honest_char ] ]);
            apply Hh in H as [? H]
        end).
  rewrite m_seqs_cons in H.
  match type of H with _ ?x0 _ = _ => destruct x0 as [j u caps] end.
  unfold lf in H. rewrite m_star_char in H.
  change (fun y0 => m_seqs [] y0 Some) with (@Some MatchState) in H.
  rewrite greedy_try_Some in H. injection H as <-. simpl.
  destruct (drop _ u) as [|ch r] eqn:E; [done|].
  apply span_drop_head in E. unfold cc_is in E. simpl.
  intros [= ->]. done.
Qed.

Lemma updateHeader_content d :
  content (updateHeader d) =
  if test headerPattern (content d)
  then replace_first headerPattern (by_template (content d) (header (rule d))) (content d)
  else header (rule d) ++ trim (content d) ++ [LF].
Proof. reflexivity. Qed.

(** The two ways the header reaches the document: spliced over the old
    header, after substitution of its [$] patterns, or put in front of a
    document that has none. *)
Lemma updateHeader_cases d :
  (exists pre post m p caps,
     content (updateHeader d)
     = pre ++ GetSubstitution m (content d) p caps (header (rule d)) ++ post
     /\ head post <> Some LF)
  \/ (test headerPattern (content d) = false
      /\ content (updateHeader d) = header (rule d) ++ trim (content d) ++ [LF]).
Proof.
  rewrite updateHeader_content. unfold test, replace_first.
  destruct (exec_from headerPattern 0 (content d)) as [[p y]|] eqn:E.
  - left. do 5 eexists. split; [reflexivity|]. by eapply headerPattern_rest.
  - by right.
Qed.

Lemma join_cons2 sep x y l : join sep (x :: y :: l) = x ++ sep ++ join sep (y :: l).
Proof. reflexivity. Qed.

Lemma fixNote_plain : DOLLAR ∉ fixNote.
Proof. refine (bool_decide_unpack _ _). vm_compute. exact I. Qed.

Lemma notes_deprecated r :
  deprecated (meta r) = true ->
  notes r = deprecatedNote (replacedBy (docs (meta r))) :: fixNotes r ++ [[]; []].
Proof. intros H. unfold notes, fixNotes. rewrite H. by destruct (fixable _). Qed.

Lemma notes_preset r cats :
  deprecated (meta r) = false -> categories (docs (meta r)) = Some cats ->
  notes r = presetNote (sort cats) :: fixNotes r ++ [[]; []].
Proof. intros H1 H2. unfold notes, fixNotes. rewrite H1, H2. by destruct (fixable _). Qed.

Lemma notes_plain r :
  deprecated (meta r) = false -> categories (docs (meta r)) = None ->
  notes r = if fixable (meta r) then [fixNote; []; []] else [].
Proof. intros H1 H2. unfold notes. rewrite H1, H2. by destruct (fixable _). Qed.

(** The first note of a header survives the substitution when it holds no
    [$]. *)
Lemma header_first_note r n ns m s p caps :
  notes r = n :: ns ++ [[]; []] -> DOLLAR ∉ n ->
  exists a b, GetSubstitution m s p caps (header r) = a ++ n ++ [LF] ++ b
              /\ b = GetSubstitution m s p caps (join [LF] (ns ++ [[]; []])).
Proof.
  intros Hn Hd.
  assert (Hh : header r
               = (title r ++ [LF]) ++ LF :: (n ++ LF :: join [LF] (ns ++ [[]; []]))).
  { unfold header. rewrite Hn.
    destruct (ns ++ [[]; []]) as [|n2 l] eqn:E; [by destruct ns|].
    rewrite join_cons2, <- !app_assoc. reflexivity. }
  rewrite Hh, GetSubstitution_app_LF.
  rewrite (GetSubstitution_plain_app _ _ _ _ n) by done.
  rewrite GetSubstitution_LF.
  exists (GetSubstitution m s p caps (title r ++ [LF]) ++ [LF]).
  eexists. split; [|reflexivity].
  rewrite <- !app_assoc. reflexivity.
Qed.

(** ** Texts without [$] *)

Ltac plain :=
  repeat first
    [ assumption
    | apply not_elem_of_nil
    | (refine (bool_decide_unpack _ _); vm_compute; exact I)
    | apply not_elem_of_app; split ].

Lemma plain_join sep items :
  DOLLAR ∉ sep -> Forall (fun x => DOLLAR ∉ x) items -> DOLLAR ∉ join sep items.
Proof.
  intros Hs. induction 1 as [|x l Hx Hl IH]; [apply not_elem_of_nil|].
  destruct l as [|y l]; [done|]. rewrite join_cons2. plain.
Qed.

Lemma Forall_removelast {A} (P : A -> Prop) l : Forall P l -> Forall P (removelast l).
Proof.
  induction 1 as [|x l Hx Hl IH]; [constructor|].
  simpl. destruct l; [constructor|]. by constructor.
Qed.

Lemma Forall_last {A} (P : A -> Prop) l d : P d -> Forall P l -> P (List.last l d).
Proof.
  intros Hd. induction 1 as [|x l Hx Hl IH]; [done|].
  simpl. by destruct l.
Qed.

Lemma plain_formatItems items :
  Forall (fun x => DOLLAR ∉ x) items -> DOLLAR ∉ formatItems items.
Proof.
  intros H. unfold formatItems. destruct (_ <=? _).
  - apply plain_join; [plain|done].
  - plain.
    + apply plain_join; [plain|]. by apply Forall_removelast.
    + apply Forall_last; [apply not_elem_of_nil|done].
Qed.

Lemma plain_presetNote cats :
  Forall (fun x => DOLLAR ∉ x) cats -> DOLLAR ∉ presetNote cats.
Proof.
  intros H. unfold presetNote. plain.
  apply plain_formatItems. apply Forall_fmap.
  eapply Forall_impl; [exact H|]. intros c Hc. unfold preset. plain.
Qed.

Lemma plain_sort cats :
  Forall (fun x => DOLLAR ∉ x) cats -> Forall (fun x => DOLLAR ∉ x) (sort cats).
Proof. intros H. by rewrite sort_permutation. Qed.

(** ** [trim] *)

Lemma trimStart_head s c t : trimStart s = c :: t -> isWhiteSpace c = false.
Proof.
  induction s as [|a s IH]; simpl; [done|].
  destruct (isWhiteSpace a) eqn:E; [done|]. by intros [= <- _].
Qed.

Lemma trimStart_suffix s : exists w, s = w ++ trimStart s.
Proof.
  induction s as [|a s [w IH]]; simpl; [by exists []|].
  destruct (isWhiteSpace a); [|by exists []].
  exists (a :: w). simpl. by f_equal.
Qed.

Lemma trim_head s c t : trim s = c :: t -> isWhiteSpace c = false.
Proof.
  unfold trim. intros H.
  destruct (trimStart_suffix (rev (trimStart s))) as [w Hw].
  apply (f_equal (@rev char)) in Hw. rewrite rev_involutive, rev_app_distr, H in Hw.
  simpl in Hw. by apply trimStart_head in Hw.
Qed.

Lemma trim_head_not_LF s : trim s <> [] -> head (trim s ++ [LF]) <> Some LF.
Proof.
  destruct (trim s) as [|c t] eqn:E; [done|]. intros _. simpl.
  apply trim_head in E. intros [= ->]. done.
Qed.

(** ** Claims about the header *)

Lemma deprecatedNote_three A B C :
  deprecatedNote (Some [A; B; C]) = deprecationText A B C.
Proof.
  unfold deprecatedNote, deprecationText, formatItems, replacedRule.
  cbn [map length Nat.leb removelast List.last join].
  rewrite <- !app_assoc. reflexivity.
Qed.

Lemma occurs_intro u pre post t : t = pre ++ u ++ post -> occurs u t.
Proof. intros ->. by exists pre, post. Qed.

(** The first note of the notes block occurs in the rewritten document when
    it holds no [$]. *)
Lemma updateHeader_first_note d n ns :
  notes (rule d) = n :: ns ++ [[]; []] -> DOLLAR ∉ n ->
  occurs n (content (updateHeader d)).
Proof.
  intros Hn Hd.
  destruct (updateHeader_cases d) as [(pre & post & m & p & caps & Hc & _)|[_ Hc]];
    rewrite Hc.
  - destruct (header_first_note _ _ _ m (content d) p caps Hn Hd) as (a & b & -> & _).
    apply (occurs_intro _ (pre ++ a) ([LF] ++ b ++ post)).
    rewrite <- !app_assoc. reflexivity.
  - unfold header. rewrite Hn.
    destruct (ns ++ [[]; []]) as [|n2 l] eqn:E; [by destruct ns|].
    rewrite join_cons2.
    apply (occurs_intro _ (title (rule d) ++ [LF; LF])
             ([LF] ++ join [LF] (n2 :: l) ++ trim (content d) ++ [LF])).
    rewrite <- !app_assoc. reflexivity.
Qed.

(** C1, as amended: for a deprecated rule replaced by [A], [B] and [C] (names
    without [$]) the rewritten document carries the note "...replaced by all
    of [yml/A](A.md) rule, [yml/B](B.md) rule and [yml/C](C.md) rule.", and
    [formatItems] renders one item by itself, two as "a and b", three or more
    as "all of a, b and c". *)
Theorem C1_deprecation_note (d : DocFile) (A B C : text) :
  deprecated (meta (rule d)) = true ->
  replacedBy (docs (meta (rule d))) = Some [A; B; C] ->
  DOLLAR ∉ A -> DOLLAR ∉ B -> DOLLAR ∉ C ->
  occurs (deprecationText A B C) (content (updateHeader d))
  /\ (forall a, formatItems [a] = a)
  /\ (forall a b, formatItems [a; b] = a ++ str " and " ++ b)
  /\ (forall l z, 2 <= length l ->
        formatItems (l ++ [z]) = str "all of " ++ join (str ", ") l ++ str " and " ++ z).
Proof.
  intros Hdep Hrep HA HB HC. split; [|split; [|split]].
  - apply (updateHeader_first_note d _ (fixNotes (rule d))).
    + rewrite (notes_deprecated _ Hdep), Hrep, deprecatedNote_three. reflexivity.
    + unfold deprecationText. plain.
  - apply formatItems_one.
  - apply formatItems_two.
  - apply formatItems_many.
Qed.

Lemma C1_deprecation_note_witness :
  occurs (deprecationText (str "A") (str "B") (str "C"))
         (content (updateHeader doc_old_rule)).
Proof.
  apply (C1_deprecation_note doc_old_rule (str "A") (str "B") (str "C"));
    first [ reflexivity | refine (bool_decide_unpack _ _); vm_compute; exact I ].
Defined.

(** C1 as the specification states it fails: the link texts carry the
    [yml/] prefix, so "[A](A.md)" never appears. *)
Lemma C1_counterexample :
  deprecated (meta (rule doc_old_rule)) = true
  /\ replacedBy (docs (meta (rule doc_old_rule))) = Some [str "A"; str "B"; str "C"]
  /\ ~ occurs (claimedReplacementText (str "A") (str "B") (str "C"))
              (content (updateHeader doc_old_rule)).
Proof.
  split; [reflexivity|]. split; [reflexivity|].
  intros H. apply occursb_spec in H. vm_compute in H. discriminate.
Qed.

(** ** The descriptor after the header rewrite *)

(** Everything but the category list is left as it was, and the category
    list is a sorted permutation of what it was. *)
Lemma updateHeader_rule_frame d :
  let r := rule d in
  let r' := rule (updateHeader d) in
  fixable (meta r') = fixable (meta r)
  /\ deprecated (meta r') = deprecated (meta r)
  /\ ruleId (docs (meta r')) = ruleId (docs (meta r))
  /\ ruleName (docs (meta r')) = ruleName (docs (meta r))
  /\ description (docs (meta r')) = description (docs (meta r))
  /\ replacedBy (docs (meta r')) = replacedBy (docs (meta r))
  /\ extensionRule (docs (meta r')) = extensionRule (docs (meta r))
  /\ categories (docs (meta r'))
     = if deprecated (meta r) then categories (docs (meta r))
       else sort <$> categories (docs (meta r)).
Proof.
  destruct d as [[[f dep [i nm ds cats rep ext]]] path s]. simpl.
  unfold rule_after_updateHeader. simpl.
  destruct dep; [done|]. by destruct cats.
Qed.

(** C2: the header rewrite changes the descriptor: on the non-deprecated path
    [categories.sort()] sorts the descriptor's own array, so a rule registered
    with the categories [standard; recommended] has [recommended; standard]
    afterwards. *)
Theorem C2_updateHeader_sorts_descriptor :
  categories (docs (meta (rule doc_unsorted_categories)))
    = Some [str "standard"; str "recommended"]
  /\ categories (docs (meta (rule (updateHeader doc_unsorted_categories))))
    = Some [str "recommended"; str "standard"]
  /\ rule (updateHeader doc_unsorted_categories) <> rule doc_unsorted_categories.
Proof.
  split; [reflexivity|]. split; [vm_compute; reflexivity|].
  intros H. apply (f_equal (fun r => categories (docs (meta r)))) in H.
  vm_compute in H. discriminate.
Qed.

(** ** The preset note *)

(** Without a category list there is no preset note. *)
Lemma notes_without_categories r :
  deprecated (meta r) = false -> categories (docs (meta r)) = None ->
  forall cats, presetNote cats ∉ notes r.
Proof.
  intros H1 H2 cats. rewrite (notes_plain _ H1 H2).
  destruct (fixable _); [|apply not_elem_of_nil].
  rewrite !elem_of_cons, elem_of_nil.
  intros [H|[H|[H|[]]]]; apply (f_equal (fun t : text => t !! 3)) in H;
    vm_compute in H; discriminate.
Qed.

(** With a category list the first note is the preset note, over the sorted
    list. *)
Lemma notes_with_categories r cats :
  deprecated (meta r) = false -> categories (docs (meta r)) = Some cats ->
  head (notes r) = Some (presetNote (sort cats))
  /\ StronglySorted sort_le (sort cats) /\ sort cats ≡ₚ cats.
Proof.
  intros H1 H2. rewrite (notes_preset _ _ H1 H2).
  split; [done|]. split; [apply sort_sorted|apply sort_permutation].
Qed.

(** C3: a rule whose category list is the empty array belongs to no preset,
    yet the header rewrite gives it a preset note: [if (categories)] holds of
    an empty array. *)
Theorem C3_empty_categories_note :
  deprecated (meta rule_empty_categories) = false
  /\ categories (docs (meta rule_empty_categories)) = Some []
  /\ content (updateHeader (mkDocFile rule_empty_categories (str "docs/rules/spacing.md") []))
     = lines ["# yml/spacing"; ""; "> enforce spacing"; "";
              "- :gear: This rule is included in ."; ""; ""].
Proof. split; [reflexivity|]. split; [reflexivity|]. vm_compute. reflexivity. Qed.

(** ** Preset note and fix note together *)

Lemma fixNote_last r :
  fixable (meta r) = true -> exists first, notes r = first ++ [fixNote; []; []].
Proof.
  intros H. unfold notes. rewrite H.
  destruct (deprecated _); [by eexists [_]|].
  destruct (categories _); [by eexists [_]|by exists []].
Qed.

Lemma updateHeader_two_notes d n1 n2 :
  notes (rule d) = [n1; n2; []; []] -> DOLLAR ∉ n1 -> DOLLAR ∉ n2 ->
  trim (content d) <> [] ->
  exists pre post,
    content (updateHeader d) = pre ++ n1 ++ [LF] ++ n2 ++ [LF; LF] ++ post
    /\ head post <> Some LF.
Proof.
  intros Hn H1 H2 Hne.
  destruct (updateHeader_cases d) as [(pre & post & m & p & caps & Hc & Hp)|[_ Hc]];
    rewrite Hc.
  - destruct (header_first_note _ _ [n2] m (content d) p caps Hn H1) as (a & b & -> & ->).
    exists (pre ++ a), post. split; [|done].
    change (join [LF] ([n2] ++ [[]; []])) with (n2 ++ [LF; LF]).
    rewrite (GetSubstitution_plain_app _ _ _ _ n2) by done.
    rewrite <- !app_assoc. reflexivity.
  - exists (title (rule d) ++ [LF; LF]), (trim (content d) ++ [LF]).
    split; [|by apply trim_head_not_LF].
    unfold header. rewrite Hn. cbn [join]. rewrite <- !app_assoc. reflexivity.
Qed.

(** C4, as amended: for a non-deprecated, fixable rule in at least one preset
    (preset names without [$]) and a document that is not blank, the rewritten
    document holds the preset note over the sorted names, then the fix note,
    then exactly one blank line before what follows; and the fix note is the
    last note of every fixable rule, deprecated or not. *)
Theorem C4_preset_then_fix_note (d : DocFile) (cats : list text) :
  deprecated (meta (rule d)) = false ->
  fixable (meta (rule d)) = true ->
  categories (docs (meta (rule d))) = Some cats ->
  cats <> [] ->
  Forall (fun c => DOLLAR ∉ c) cats ->
  trim (content d) <> [] ->
  (exists pre post,
     content (updateHeader d)
     = pre ++ presetNote (sort cats) ++ [LF] ++ fixNote ++ [LF; LF] ++ post
     /\ head post <> Some LF)
  /\ StronglySorted sort_le (sort cats) /\ sort cats ≡ₚ cats
  /\ (forall r, fixable (meta r) = true -> exists first, notes r = first ++ [fixNote; []; []]).
Proof.
  intros Hdep Hfix Hcats _ Hplain Hne. split; [|split; [|split]].
  - apply updateHeader_two_notes; [|by apply plain_presetNote, plain_sort
                                    |apply fixNote_plain|done].
    rewrite (notes_preset _ _ Hdep Hcats). unfold fixNotes. by rewrite Hfix.
  - apply sort_sorted.
  - apply sort_permutation.
  - apply fixNote_last.
Qed.

Lemma C4_preset_then_fix_note_witness :
  exists pre post,
    content (updateHeader
               (mkDocFile rule_fixable_presets (str "docs/rules/quotes.md")
                  (lines ["# yml/quotes"; ""; "> old description"; ""; "## Rule Details"])))
    = pre ++ presetNote (sort [str "strict"; str "recommended"]) ++ [LF]
      ++ fixNote ++ [LF; LF] ++ post
    /\ head post <> Some LF.
Proof.
  apply (C4_preset_then_fix_note
           (mkDocFile rule_fixable_presets (str "docs/rules/quotes.md")
              (lines ["# yml/quotes"; ""; "> old description"; ""; "## Rule Details"]))
           [str "strict"; str "recommended"]);
    first [ reflexivity | discriminate
          | repeat constructor; refine (bool_decide_unpack _ _); vm_compute; exact I
          | vm_compute; discriminate ].
Defined.

(** C4 as the specification states it fails on a blank document: the
    rewritten document is the header and one line feed, so that three line
    feeds, two blank lines, follow the fix note. *)
Lemma C4_counterexample :
  content (updateHeader doc_blank)
  = title rule_fixable_presets ++ [LF; LF]
    ++ presetNote (sort [str "strict"; str "recommended"]) ++ [LF]
    ++ fixNote ++ [LF; LF; LF]
  /\ ~ exists pre post,
         content (updateHeader doc_blank)
         = pre ++ presetNote (sort [str "strict"; str "recommended"]) ++ [LF]
           ++ fixNote ++ [LF; LF] ++ post
         /\ head post <> Some LF.
Proof.
  split; [vm_compute; reflexivity|].
  intros (pre & post & H & Hp).
  assert (E : content (updateHeader doc_blank)
              = pre ++ (presetNote (sort [str "strict"; str "recommended"]) ++ [LF]
                        ++ fixNote ++ [LF; LF]) ++ post).
  { rewrite H, <- !app_assoc. reflexivity. }
  eapply (after_all_spec _ (fun t => bool_decide (head t = Some LF))) in E.
  - apply bool_decide_eq_true in E. done.
  - vm_compute. reflexivity.
Qed.

(** ** The main loop and missing files *)

Section RunFacts.
Variables (ROOT : text) (path_join : text -> text -> text) (isWin : bool).

Local Abbreviation docPath' := (docPath ROOT path_join).
Local Abbreviation processRule' := (processRule ROOT path_join isWin).
Local Abbreviation main' := (main ROOT path_join isWin).

Lemma read_missing (fs : FileSystem) (r : RuleModule) :
  fs !! docPath' r = None -> read ROOT path_join fs r = None.
Proof. intros H. unfold read. by rewrite H. Qed.

Lemma processRule_missing (fs : FileSystem) (r : RuleModule) :
  fs !! docPath' r = None -> processRule' fs r = None.
Proof. intros H. unfold processRule. by rewrite read_missing. Qed.

(** A rule whose file exists is processed, and only its own file is
    written. *)
Lemma processRule_present (fs : FileSystem) (r : RuleModule) (s : text) :
  fs !! docPath' r = Some s ->
  exists r' s', processRule' fs r = Some (r', <[docPath' r := s']> fs).
Proof.
  intros H. unfold processRule, read. rewrite H. by do 2 eexists.
Qed.

Lemma main_app (before rest : list RuleModule) (fs fs1 : FileSystem)
    (before' : list RuleModule) :
  main' before fs = (before', fs1, Completed) ->
  main' (before ++ rest) fs =
  let '(rest', fs2, o) := main' rest fs1 in (before' ++ rest', fs2, o).
Proof.
  revert fs before'. induction before as [|r before IH]; intros fs before' H; simpl in *.
  - injection H as <- <-. by destruct (main' rest fs) as [[? ?] ?].
  - destruct (processRule' fs r) as [[r' fs']|]; [|done].
    destruct (main' before fs') as [[b' fs''] o] eqn:E.
    injection H as <- <- ->.
    rewrite (IH _ _ E). by destruct (main' rest fs'') as [[? ?] ?].
Qed.

(** C8: when the documentation file of a rule is missing, the read throws
    before anything is transformed or written for that rule: the file system
    is the one the earlier rules left, the descriptors of that rule and of the
    rules after it are untouched, and the run ends there. *)
Theorem C8_missing_file_aborts_without_write
    (before after : list RuleModule) (r : RuleModule)
    (fs fs1 : FileSystem) (before' : list RuleModule) :
  main' before fs = (before', fs1, Completed) ->
  fs1 !! docPath' r = None ->
  processRule' fs1 r = None
  /\ main' (before ++ r :: after) fs = (before' ++ r :: after, fs1, Thrown r).
Proof.
  intros Hb Hr. split; [by apply processRule_missing|].
  rewrite (main_app _ _ _ _ _ Hb). simpl.
  by rewrite processRule_missing.
Qed.
End RunFacts.

Lemma C8_missing_file_aborts_without_write_witness :
  let fs : FileSystem :=
    {[ str "docs/rules/indent.md" := content doc_unsorted_categories ]} in
  processRule (str "docs/rules") posix_join false fs rule_fixable_presets = None
  /\ main (str "docs/rules") posix_join false
          ([] ++ [rule_fixable_presets; rule_unsorted_categories]) fs
     = ([] ++ [rule_fixable_presets; rule_unsorted_categories], fs,
        Thrown rule_fixable_presets).
Proof.
  intros fs.
  apply (C8_missing_file_aborts_without_write (str "docs/rules") posix_join false
           [] [rule_unsorted_categories] rule_fixable_presets fs fs []).
  - reflexivity.
  - vm_compute. reflexivity.
Defined.

(** ** The front matter: [yamlValue] *)

Lemma char_step_shrinks a tpl : shrinking (char_step a tpl).
Proof.
  intros [|c t] o r; simpl; [done|].
  destruct (c =? a)%N; [|done]. intros [= _ <-]. lia.
Qed.

Lemma replace_char_all a tpl s :
  DOLLAR ∉ tpl ->
  replace_all_str (mkRegExp (m_char (cc_is a)) 0) tpl s
  = flat_map (fun c => if (c =? a)%N then tpl else [c]) s.
Proof.
  intros Hp. unfold replace_all_str.
  rewrite (replace_all_scan (char_step a tpl) (char_step_shrinks a tpl)).
  - induction s as [|c s IH]; [apply scan_nil, char_step_shrinks|].
    simpl. destruct (c =? a)%N eqn:E.
    + rewrite (scan_match _ (char_step_shrinks a tpl) _ tpl s), IH; [done|].
      simpl. by rewrite E.
    + rewrite scan_skip by (simpl; by rewrite E). by rewrite IH.
  - intros i t. cbn [matcher nCaptures replicate]. rewrite m_char_eq.
    destruct t as [|c r]; [done|]. unfold cc_is. simpl.
    destruct (c =? a)%N; [|done].
    exists 1. split; [lia|]. split; [simpl; lia|]. split; [reflexivity|].
    unfold by_template. by rewrite GetSubstitution_plain.
Qed.

Lemma yamlValue_string s :
  yamlValue (VString s) = VString ([DQUOTE] ++ escape s ++ [DQUOTE]).
Proof.
  unfold yamlValue, re_backslash, re_dquote.
  rewrite !replace_char_all by plain. do 3 f_equal.
  unfold escape. induction s as [|c s IH]; [done|].
  cbn [flat_map]. rewrite flat_map_app. f_equal; [|exact IH].
  unfold escape_char.
  destruct (N.eqb_spec c BACKSLASH) as [->|Hb]; [reflexivity|].
  cbn [flat_map app]. by destruct (c =? DQUOTE)%N.
Qed.

Lemma yamlValue_number n : yamlValue (VNumber n) = VNumber n.
Proof. reflexivity. Qed.

Lemma unescape_escape s : unescape (escape s) = Some s.
Proof.
  induction s as [|c s IH]; [done|].
  unfold escape in *. cbn [flat_map]. unfold escape_char at 1.
  destruct (N.eqb_spec c BACKSLASH) as [->|Hb].
  { cbn. by rewrite IH. }
  destruct (N.eqb_spec c DQUOTE) as [->|Hq].
  { cbn. by rewrite IH. }
  cbn [app unescape].
  destruct (N.eqb_spec c BACKSLASH); [done|].
  destruct (N.eqb_spec c DQUOTE); [done|]. by rewrite IH.
Qed.

(** What [yamlValue] emits for a string reads back as that string. *)
Lemma yamlValue_roundtrip s : unquote (ToString (yamlValue (VString s))) = Some s.
Proof.
  rewrite yamlValue_string. cbn [ToString app unquote].
  rewrite rev_app_distr. cbn [rev app]. rewrite N.eqb_refl. cbn [andb].
  rewrite rev_involutive. apply unescape_escape.
Qed.

(** The block the front-matter rewrite builds. *)
Lemma computed_eq r :
  computed r =
  str "---" ++ [LF]
  ++ str "pageClass: " ++ [DQUOTE] ++ str "rule-details" ++ [DQUOTE] ++ [LF]
  ++ str "sidebarDepth: 0" ++ [LF]
  ++ str "title: " ++ [DQUOTE] ++ escape (ruleId (docs (meta r))) ++ [DQUOTE] ++ [LF]
  ++ str "description: " ++ [DQUOTE] ++ escape (description (docs (meta r)))
  ++ [DQUOTE] ++ [LF]
  ++ str "---" ++ [LF].
Proof.
  unfold computed, fileIntro. cbn [map fst snd join].
  rewrite !yamlValue_string, yamlValue_number. cbn [ToString].
  change (escape (str "rule-details")) with (str "rule-details").
  change (str (NilZero.string_of_uint (N.to_uint 0))) with (str "0").
  rewrite <- !app_assoc. reflexivity.
Qed.

(** A document without a front-matter block gets the block in front of it. *)
Lemma updateFileIntro_absent d :
  test fileIntroPattern (content d) = false ->
  content (updateFileIntro d) = computed (rule d) ++ trim (content d) ++ [LF].
Proof. intros H. unfold updateFileIntro, with_content. simpl. by rewrite H. Qed.

(** C5: the block built for a description with [$$] holds the description
    as it is, but once spliced over an existing front-matter block by
    [String.prototype.replace] the document holds a single [$]: the value
    emitted no longer reads back as the description. *)
Theorem C5_replacement_patterns_expanded :
  occurs (str "description: " ++ [DQUOTE] ++ str "disallow $$ in plain scalars" ++ [DQUOTE])
         (computed rule_dollar_description)
  /\ content (updateFileIntro doc_dollar_description)
     = str "---" ++ [LF]
       ++ str "pageClass: " ++ [DQUOTE] ++ str "rule-details" ++ [DQUOTE] ++ [LF]
       ++ str "sidebarDepth: 0" ++ [LF]
       ++ str "title: " ++ [DQUOTE] ++ str "yml/no-dollar" ++ [DQUOTE] ++ [LF]
       ++ str "description: " ++ [DQUOTE] ++ str "disallow $ in plain scalars"
       ++ [DQUOTE] ++ [LF]
       ++ str "---" ++ [LF]
       ++ lines ["# yml/no-dollar"].
Proof.
  split.
  - apply occursb_spec. vm_compute. reflexivity.
  - vm_compute. reflexivity.
Qed.

(** ** Example-code-block tags: [updateCodeBlocks] *)

Lemma tag_close_Some t X r :
  tag_close t = Some (X, r) <-> t = X ++ GT :: r /\ Forall attr_char X.
Proof.
  revert X r. induction t as [|ch t IH]; intros X r; simpl.
  - split; [done|]. intros [H _]. by destruct X.
  - destruct (N.eqb_spec ch GT) as [->|Hne].
    + split.
      * intros [= <- <-]. by split.
      * intros [H HX]. destruct X as [|x X]; [by injection H as <-|].
        injection H as <- _. apply Forall_cons in HX as [[_ ?] _]. done.
    + destruct (cc_dot ch) eqn:Ed.
      * destruct (tag_close t) as [[X' r']|] eqn:E.
        -- split.
           ++ intros [= <- <-]. destruct (proj1 (IH X' r') eq_refl) as [-> HX].
              split; [done|]. constructor; [by split|done].
           ++ intros [H HX]. destruct X as [|x X]; [by injection H|].
              injection H as <- H. apply Forall_cons in HX as [_ HX].
              by injection (proj2 (IH X r) (conj H HX)) as -> ->.
        -- split; [done|]. intros [H HX].
           destruct X as [|x X]; [by injection H|].
           injection H as <- H. apply Forall_cons in HX as [_ HX].
           by pose proof (proj2 (IH X r) (conj H HX)).
      * split; [done|]. intros [H HX].
        destruct X as [|x X]; [by injection H|].
        injection H as <- H. apply Forall_cons in HX as [[? _] _]. congruence.
Qed.

Lemma lazy_tag_close i0 r0 pre t :
  r0 = pre ++ t ->
  lazy_try cc_dot (i0 + length pre) t [None]
    (fun y => m_lit (str ">")
                (mkState (endIndex y) (remaining y)
                   (<[0 := Some (take (endIndex y - i0) r0)]> (captures y)))
                (fun w => m_seqs [] w Some))
  = match tag_close t with
    | Some (X, r') => Some (mkState (i0 + length pre + length X + 1) r' [Some (pre ++ X)])
    | None => None
    end.
Proof.
  revert pre. induction t as [|ch t IH]; intros pre Hr0.
  - cbn [lazy_try tag_close endIndex remaining captures]. by rewrite m_lit_eq.
  - cbn [lazy_try tag_close endIndex remaining captures]. rewrite m_lit_eq.
    change (str ">") with [GT]. cbn [lit_rest]. unfold cc_is at 1.
    destruct (N.eqb_spec ch GT) as [->|Hne].
    + rewrite m_seqs_nil. do 2 f_equal; [simpl; lia|].
      replace (i0 + length pre - i0) with (length pre) by lia.
      rewrite Hr0, take_app_length, app_nil_r. reflexivity.
    + destruct (cc_dot ch); [|done].
      specialize (IH (pre ++ [ch])). rewrite length_app in IH. cbn [length] in IH.
      replace (S (i0 + length pre)) with (i0 + (length pre + 1)) by lia.
      etransitivity; [exact (IH ltac:(by rewrite Hr0, <- app_assoc))|].
      destruct (tag_close t) as [[X r']|]; [|done].
      rewrite <- app_assoc. do 2 f_equal. simpl. lia.
Qed.

Lemma codeBlockPattern_match i t :
  matcher codeBlockPattern (mkState i t [None]) Some
  = match lit_rest OPEN t with
    | Some r =>
        match tag_close r with
        | Some (X, r') => Some (mkState (i + length OPEN + length X + 1) r' [Some X])
        | None => None
        end
    | None => None
    end.
Proof.
  unfold codeBlockPattern, matcher. rewrite m_seqs_cons, m_lit_eq.
  fold OPEN. destruct (lit_rest OPEN t) as [r|]; [|done].
  rewrite m_seqs_cons. unfold m_group, dot.
  rewrite m_star_lazy_char. cbn [endIndex remaining].
  pose proof (lazy_tag_close (i + length OPEN) r [] r eq_refl) as H.
  cbn [length app] in H. rewrite Nat.add_0_r in H.
  etransitivity; [|exact H]. reflexivity.
Qed.

Lemma tag_step_Some fixable t o r :
  tag_step fixable t = Some (o, r) <->
  exists X, t = OPEN ++ X ++ GT :: r /\ Forall attr_char X /\ o = codeBlockTag fixable X.
Proof.
  unfold tag_step. split.
  - destruct (lit_rest OPEN t) as [r0|] eqn:E; [|done].
    apply lit_rest_Some in E as ->.
    destruct (tag_close r0) as [[X r']|] eqn:E; [|done].
    apply tag_close_Some in E as [-> HX]. intros [= <- <-]. by exists X.
  - intros (X & -> & HX & ->). rewrite lit_rest_app.
    by rewrite (proj2 (tag_close_Some (X ++ GT :: r) X r)).
Qed.

Lemma tag_step_shrinks fixable : shrinking (tag_step fixable).
Proof.
  intros t o r H. apply tag_step_Some in H as (X & -> & _ & _).
  rewrite !length_app. simpl. lia.
Qed.

Lemma drop_tag X r :
  drop (length OPEN + length X + 1) (OPEN ++ X ++ GT :: r) = r.
Proof.
  replace (OPEN ++ X ++ GT :: r) with ((OPEN ++ X ++ [GT]) ++ r)
    by (by rewrite <- !app_assoc).
  apply drop_app_length'. rewrite !length_app. simpl. lia.
Qed.

Lemma updateCodeBlocks_scan d :
  content (updateCodeBlocks d)
  = scan (tag_step (fixable (meta (rule d)))) (content d).
Proof.
  unfold updateCodeBlocks, with_content. cbn [content].
  apply replace_all_scan; [apply tag_step_shrinks|].
  intros i t. cbn [nCaptures replicate]. rewrite codeBlockPattern_match.
  unfold tag_step. destruct (lit_rest OPEN t) as [r|] eqn:E; [|done].
  destruct (tag_close r) as [[X r']|] eqn:E2; [|done].
  apply lit_rest_Some in E as ->. apply tag_close_Some in E2 as [-> HX].
  exists (length OPEN + length X + 1). cbn [endIndex remaining captures].
  rewrite drop_tag. split; [lia|]. split; [lia|]. split; reflexivity.
Qed.

(** ** Idempotent scans *)

Lemma scan_idempotent step :
  shrinking step ->
  (forall s o r, step s = Some (o, r) -> forall t, step (o ++ t) = Some (o, t)) ->
  (forall c s, step (c :: s) = None -> step (c :: scan step s) = None) ->
  forall s, scan step (scan step s) = scan step s.
Proof.
  intros Hs H1 H2. apply (scan_ind step Hs).
  - by rewrite !scan_nil.
  - intros ch s E IH. rewrite (scan_skip _ _ _ E).
    by rewrite (scan_skip _ _ _ (H2 _ _ E)), IH.
  - intros s o r E IH. rewrite (scan_match _ Hs _ _ _ E).
    by rewrite (scan_match _ Hs _ _ _ (H1 _ _ _ E _)), IH.
Qed.

(** A scan whose matches all start with the character [a] copies the text in
    front of the first [a]. *)
Lemma scan_prefix step a :
  shrinking step ->
  (forall t o r, step t = Some (o, r) -> head t = Some a /\ head o = Some a) ->
  forall s u v, scan step s = u ++ v -> a ∉ u -> exists v', s = u ++ v'.
Proof.
  intros Hs Ha. apply (scan_ind step Hs (fun s => forall u v, _ -> _ -> _)).
  - intros u v. rewrite scan_nil by done. intros H _.
    symmetry in H. apply app_eq_nil in H as [-> _]. by exists [].
  - intros ch s E IH u v. rewrite (scan_skip _ _ _ E). intros H Hu.
    destruct u as [|c u]; [by eexists|].
    injection H as <- H. apply not_elem_of_cons in Hu as [_ Hu].
    destruct (IH _ _ H Hu) as [v' ->]. by exists v'.
  - intros s o r E _ u v. rewrite (scan_match _ Hs _ _ _ E). intros H Hu.
    destruct u as [|c u]; [by eexists|].
    destruct (Ha _ _ _ E) as [_ Ho]. destruct o as [|c' o]; [done|].
    injection Ho as ->. injection H as <- _.
    apply not_elem_of_cons in Hu as [? _]. done.
Qed.

(** ** The attributes of a rewritten tag *)

Lemma join_space x ps : join [SPACE] (x :: ps) = x ++ spaced ps.
Proof.
  revert x. induction ps as [|p ps IH]; intros x.
  - simpl. by rewrite app_nil_r.
  - rewrite join_cons2, IH. reflexivity.
Qed.

Lemma codeBlockTag_eq fixable attrs :
  codeBlockTag fixable attrs
  = OPEN ++ spaced (with_fix fixable (tokens attrs)) ++ [GT].
Proof.
  unfold codeBlockTag, with_fix, tokens.
  destruct fixable; rewrite join_space, <- app_assoc; reflexivity.
Qed.

Lemma trimStart_id t : Forall nonws t -> trimStart t = t.
Proof. destruct 1 as [|c t Hc _]; [done|]. simpl. by rewrite Hc. Qed.

Lemma trim_id t : Forall nonws t -> trim t = t.
Proof.
  intros H. unfold trim. rewrite (trimStart_id t H).
  rewrite trimStart_id; [apply rev_involutive|].
  apply Forall_forall. intros c Hc. rewrite list_elem_of_In, <- in_rev in Hc.
  rewrite Forall_forall in H. apply H. by apply list_elem_of_In.
Qed.

Lemma trimStart_Forall (P : char -> Prop) t : Forall P t -> Forall P (trimStart t).
Proof.
  induction 1 as [|c t Hc Ht IH]; [constructor|]. simpl.
  destruct (isWhiteSpace c); [done|by constructor].
Qed.

Lemma rev_Forall (P : char -> Prop) t : Forall P t -> Forall P (rev t).
Proof.
  intros H. apply Forall_forall. intros c Hc.
  rewrite list_elem_of_In, <- in_rev in Hc.
  rewrite Forall_forall in H. apply H. by apply list_elem_of_In.
Qed.

Lemma trim_Forall (P : char -> Prop) t : Forall P t -> Forall P (trim t).
Proof.
  intros H. unfold trim.
  by apply rev_Forall, trimStart_Forall, rev_Forall, trimStart_Forall.
Qed.

(** The pieces of a split hold characters of the text only, and no white
    space. *)
Lemma split_ws_Forall (P : char -> Prop) s cur b :
  Forall P s -> Forall P cur -> Forall (Forall P) (split_ws cur b s).
Proof.
  intros Hs. revert cur b. induction Hs as [|c s Hc Hs IH]; intros cur b Hcur; simpl.
  - destruct b; repeat constructor. by apply rev_Forall.
  - destruct (isWhiteSpace c).
    + destruct b; [by apply IH|]. constructor; [by apply rev_Forall|by apply IH].
    + apply IH. by constructor.
Qed.

Lemma split_ws_nonws s cur b :
  Forall nonws cur -> Forall (Forall nonws) (split_ws cur b s).
Proof.
  revert cur b. induction s as [|c s IH]; intros cur b Hcur; simpl.
  - destruct b; repeat constructor. by apply rev_Forall.
  - destruct (isWhiteSpace c) eqn:E.
    + destruct b; [by apply IH|]. constructor; [by apply rev_Forall|by apply IH].
    + apply IH. by constructor.
Qed.

Lemma split_ws_word p s cur b :
  Forall nonws p ->
  split_ws cur b (p ++ s)
  = split_ws (rev p ++ cur) (match p with [] => b | _ :: _ => false end) s.
Proof.
  intros Hp. revert cur b. induction Hp as [|c p Hc Hp IH]; intros cur b; [done|].
  cbn [app split_ws]. rewrite Hc, IH. cbn [rev]. rewrite <- app_assoc.
  by destruct p.
Qed.

Lemma split_ws_spaced ps cur :
  Forall word ps ->
  split_ws cur false (spaced ps)
  = match ps with [] => [rev cur] | _ :: _ => rev cur :: ps end.
Proof.
  intros H. revert cur. induction H as [|p ps [Hne Hp] Hps IH]; intros cur; [done|].
  unfold spaced. cbn [map concat app split_ws].
  change (isWhiteSpace SPACE) with true. cbn iota. f_equal.
  fold (spaced ps). rewrite split_ws_word by done.
  destruct p as [|c p]; [done|]. rewrite IH, app_nil_r, rev_involutive.
  by destruct ps.
Qed.

Lemma keep_attr_word p : keep_attr p = true -> Forall nonws p -> word p.
Proof.
  unfold keep_attr. intros H Hp. split; [|done]. intros ->. done.
Qed.

Lemma tokens_spec attrs :
  Forall (fun p => keep_attr p = true /\ Forall nonws p) (tokens attrs).
Proof.
  unfold tokens. apply Forall_forall. intros p Hp.
  apply list_elem_of_In, filter_In in Hp as [Hp Hk]. split; [done|].
  apply in_map_iff in Hp as (q & <- & Hq).
  pose proof (split_ws_nonws attrs [] false (Forall_nil_2 _)) as H.
  rewrite Forall_forall in H. apply trim_Forall, H. by apply list_elem_of_In.
Qed.

Lemma filter_keep_all (ps : list text) :
  Forall (fun p => keep_attr p = true) ps -> List.filter keep_attr ps = ps.
Proof.
  induction 1 as [|p ps Hp _ IH]; [done|]. simpl. by rewrite Hp, IH.
Qed.

Lemma map_trim_words (ps : list text) :
  Forall (Forall nonws) ps -> map trim ps = ps.
Proof.
  induction 1 as [|p ps Hp _ IH]; [done|]. simpl. by rewrite trim_id, IH.
Qed.

(** Rewriting the attributes twice gives what rewriting them once gives. *)
Lemma tokens_spaced fixable attrs :
  tokens (spaced (with_fix fixable (tokens attrs))) = tokens attrs.
Proof.
  pose proof (tokens_spec attrs) as H.
  set (ts := tokens attrs) in *.
  assert (Hw : Forall word (with_fix fixable ts)).
  { unfold with_fix. destruct fixable.
    - constructor.
      + split; [done|]. repeat constructor.
      + eapply Forall_impl; [exact H|]. intros p [? ?]. by apply keep_attr_word.
    - eapply Forall_impl; [exact H|]. intros p [? ?]. by apply keep_attr_word. }
  assert (Hk : List.filter keep_attr ts = ts).
  { apply filter_keep_all. eapply Forall_impl; [exact H|]. by intros p [? _]. }
  unfold tokens at 1, split_whitespace. rewrite (split_ws_spaced _ [] Hw).
  destruct (with_fix fixable ts) as [|p ps] eqn:E.
  - destruct fixable; [done|]. simpl in E. subst ts. by rewrite E.
  - rewrite <- E in Hw |- *. cbn [rev map]. change (trim []) with (@nil char).
    cbn [List.filter]. change (keep_attr []) with false. cbn iota.
    rewrite map_trim_words.
    + unfold with_fix. destruct fixable; [|done].
      cbn [List.filter]. change (keep_attr (str "fix")) with false. done.
    + eapply Forall_impl; [exact Hw|]. by intros q [_ ?].
Qed.

Lemma attr_char_spaced fixable attrs :
  Forall attr_char attrs ->
  Forall attr_char (spaced (with_fix fixable (tokens attrs))).
Proof.
  intros H.
  assert (Ht : Forall (Forall attr_char) (tokens attrs)).
  { unfold tokens. apply Forall_forall. intros p Hp.
    apply list_elem_of_In, filter_In in Hp as [Hp _].
    apply in_map_iff in Hp as (q & <- & Hq).
    pose proof (split_ws_Forall attr_char attrs [] false H (Forall_nil_2 _)) as Hs.
    rewrite Forall_forall in Hs. apply trim_Forall, Hs. by apply list_elem_of_In. }
  assert (Hf : Forall (Forall attr_char) (with_fix fixable (tokens attrs))).
  { unfold with_fix. destruct fixable; [|done]. constructor; [|done].
    repeat constructor; done. }
  unfold spaced. induction Hf as [|p ps Hp _ IH]; [constructor|].
  cbn [map concat]. apply Forall_app. split; [|done].
  constructor; [by split|done].
Qed.

(** ** The attribute normalization is idempotent *)

Lemma cons_eq_inv {A} (a b : A) (l k : list A) : a :: l = b :: k -> a = b /\ l = k.
Proof. by intros [= -> ->]. Qed.

Lemma attr_char_OPEN : Forall attr_char OPEN.
Proof. repeat constructor; done. Qed.

Lemma OPEN_eq : OPEN = 60%N :: OPEN_NAME.
Proof. reflexivity. Qed.

Lemma attr_char_OPEN_NAME : Forall attr_char OPEN_NAME.
Proof. repeat constructor; done. Qed.

Lemma OPEN_NAME_no_lt : 60%N ∉ OPEN_NAME.
Proof. refine (bool_decide_unpack _ _). vm_compute. exact I. Qed.

Lemma tag_close_app a b :
  Forall attr_char a ->
  tag_close (a ++ b)
  = match tag_close b with Some (X, r) => Some (a ++ X, r) | None => None end.
Proof.
  induction 1 as [|c a [Hd Hg] _ IH]; simpl.
  - by destruct (tag_close b) as [[? ?]|].
  - destruct (N.eqb_spec c GT); [done|]. rewrite Hd, IH.
    by destruct (tag_close b) as [[? ?]|].
Qed.

(** A rewritten tag is matched again as a whole, and rewritten into itself. *)
Lemma tag_step_stable fixable s o r t :
  tag_step fixable s = Some (o, r) -> tag_step fixable (o ++ t) = Some (o, t).
Proof.
  intros H. apply tag_step_Some in H as (X & -> & HX & ->).
  apply tag_step_Some. exists (spaced (with_fix fixable (tokens X))).
  split; [|split].
  - rewrite codeBlockTag_eq, <- !app_assoc. reflexivity.
  - by apply attr_char_spaced.
  - by rewrite !codeBlockTag_eq, tokens_spaced.
Qed.

(** Where the scanned text reaches a [>] over attribute characters, so does
    the text. *)
Lemma scan_tag_close fixable s X r :
  scan (tag_step fixable) s = X ++ GT :: r -> Forall attr_char X ->
  exists X' r', s = X' ++ GT :: r' /\ Forall attr_char X'.
Proof.
  revert s X r.
  apply (scan_ind (tag_step fixable) (tag_step_shrinks fixable)
           (fun s => forall X r,
              scan (tag_step fixable) s = X ++ GT :: r -> Forall attr_char X ->
              exists X' r', s = X' ++ GT :: r' /\ Forall attr_char X')).
  - intros X r. rewrite scan_nil by apply tag_step_shrinks. by destruct X.
  - intros ch s E IH X r. rewrite (scan_skip _ _ _ E). intros H HX.
    destruct X as [|x X].
    + injection H as -> _. by exists [], s.
    + injection H as <- H. apply Forall_cons in HX as [Hx HX].
      destruct (IH _ _ H HX) as (X' & r' & -> & HX').
      exists (ch :: X'), r'. split; [done|by constructor].
  - intros s o r0 E _ X r _ _.
    apply tag_step_Some in E as (Y & -> & HY & _).
    exists (OPEN ++ Y), r0. split; [by rewrite <- app_assoc|].
    apply Forall_app. split; [apply attr_char_OPEN|done].
Qed.

Lemma tag_step_head fixable t o r :
  tag_step fixable t = Some (o, r) -> head t = Some 60%N /\ head o = Some 60%N.
Proof.
  intros H. apply tag_step_Some in H as (X & -> & _ & ->).
  by rewrite codeBlockTag_eq.
Qed.

(** The scan creates no tag. *)
Lemma tag_step_none_scan fixable c s :
  tag_step fixable (c :: s) = None ->
  tag_step fixable (c :: scan (tag_step fixable) s) = None.
Proof.
  intros Hn.
  destruct (tag_step fixable (c :: scan _ s)) as [[o r]|] eqn:E; [|done].
  exfalso. apply tag_step_Some in E as (X & E & HX & _).
  rewrite OPEN_eq in E. cbn [app] in E. apply cons_eq_inv in E as [-> E].
  destruct (scan_prefix _ 60%N (tag_step_shrinks fixable) (tag_step_head fixable)
              _ _ _ E OPEN_NAME_no_lt) as [v' Hv].
  rewrite app_assoc in E.
  destruct (scan_tag_close fixable _ _ _ E) as (X' & r' & Hs & HX').
  { apply Forall_app. split; [apply attr_char_OPEN_NAME|done]. }
  assert (Hc : tag_close s = Some (X', r')) by (by apply tag_close_Some).
  rewrite Hv, tag_close_app in Hc by apply attr_char_OPEN_NAME.
  unfold tag_step in Hn. rewrite OPEN_eq, Hv in Hn.
  change (60%N :: OPEN_NAME ++ v') with ((60%N :: OPEN_NAME) ++ v') in Hn.
  rewrite lit_rest_app in Hn.
  destruct (tag_close v') as [[? ?]|]; done.
Qed.

Lemma updateCodeBlocks_rule d : rule (updateCodeBlocks d) = rule d.
Proof. reflexivity. Qed.

Lemma updateCodeBlocks_content_idempotent d :
  content (updateCodeBlocks (updateCodeBlocks d)) = content (updateCodeBlocks d).
Proof.
  rewrite (updateCodeBlocks_scan (updateCodeBlocks d)), updateCodeBlocks_rule.
  rewrite updateCodeBlocks_scan.
  apply scan_idempotent.
  - apply tag_step_shrinks.
  - intros s o r H t. by eapply tag_step_stable.
  - apply tag_step_none_scan.
Qed.

(** C6: the code-block attribute normalization is idempotent, for every rule
    (fixable or not) and every document text. *)
Theorem C6_updateCodeBlocks_idempotent (d : DocFile) :
  updateCodeBlocks (updateCodeBlocks d) = updateCodeBlocks d.
Proof.
  pose proof (updateCodeBlocks_content_idempotent d) as H.
  unfold updateCodeBlocks at 1 3. unfold updateCodeBlocks at 1 in H.
  unfold with_content in *. cbn [rule filePath content] in *. by f_equal.
Qed.

(** The instance the specification names: a fixable rule and a tag with an
    attribute. *)
Example updateCodeBlocks_someattr :
  let d := mkDocFile rule_fixable_presets (str "docs/rules/quotes.md")
             (lines ["<eslint-code-block someattr>"; ""; "```yaml"; "a: 1"; "```"; "";
                     "</eslint-code-block>"]) in
  content (updateCodeBlocks d)
  = lines ["<eslint-code-block fix someattr>"; ""; "```yaml"; "a: 1"; "```"; "";
           "</eslint-code-block>"]
  /\ updateCodeBlocks (updateCodeBlocks d) = updateCodeBlocks d.
Proof. split; vm_compute; reflexivity. Qed.

(** ** Fenced code blocks: [adjustCodeBlocks] *)

Lemma span_replicate_LF k t :
  head t <> Some LF -> span (cc_is LF) (replicate k LF ++ t) = k.
Proof.
  intros H. induction k as [|k IH]; simpl.
  - destruct t as [|c t]; [done|]. simpl. unfold cc_is.
    destruct (N.eqb_spec c LF) as [->|]; done.
  - by rewrite IH.
Qed.

Lemma span_LF_spec t :
  t = replicate (span (cc_is LF) t) LF ++ drop (span (cc_is LF) t) t.
Proof.
  induction t as [|c t IH]; [done|]. simpl. unfold cc_is at 1 3.
  destruct (N.eqb_spec c LF) as [->|]; [|done]. simpl. by f_equal.
Qed.

Lemma run_then_Some L t k r :
  head L <> Some LF -> L <> [] ->
  run_then L t = Some (k, r) <-> 1 <= k /\ t = replicate k LF ++ L ++ r.
Proof.
  intros HL HL'. unfold run_then. split.
  - destruct (span (cc_is LF) t) as [|n] eqn:E; [done|].
    destruct (lit_rest L _) as [r'|] eqn:E2; [|done].
    intros [= <- <-]. split; [lia|].
    apply lit_rest_Some in E2. rewrite <- E2, <- E. apply span_LF_spec.
  - intros [Hk ->]. rewrite span_replicate_LF.
    + destruct k as [|k]; [lia|].
      rewrite drop_app_length' by (by rewrite length_replicate).
      by rewrite lit_rest_app.
    + destruct L; [done|]. done.
Qed.

Lemma greedy_lf_then L j t caps :
  head L <> Some LF -> L <> [] ->
  m_plus lf (mkState j t caps) (fun z => m_lit L z (fun w => m_seqs [] w Some))
  = match run_then L t with
    | Some (k, r) => Some (mkState (j + k + length L) r caps)
    | None => None
    end.
Proof.
  intros HL HL'. unfold lf. rewrite m_plus_char. unfold run_then.
  destruct t as [|c t]; [done|]. cbn [span]. unfold cc_is at 1 3.
  destruct (N.eqb_spec c LF) as [->|]; [|done].
  rewrite greedy_try_max.
  - rewrite m_lit_eq. cbn [drop]. destruct (lit_rest L _); [|done].
    rewrite m_seqs_nil. do 2 f_equal. lia.
  - intros j' ch r Hch. rewrite m_lit_eq.
    unfold cc_is in Hch. apply N.eqb_eq in Hch as ->.
    destruct L as [|a L]; [done|]. cbn [lit_rest]. unfold cc_is.
    destruct (N.eqb_spec LF a) as [<-|]; done.
Qed.

(** *** The closing side *)

Lemma close_step_Some t o r :
  close_step t = Some (o, r) <->
  exists k, 1 <= k /\ t = FENCE ++ replicate k LF ++ CLOSE ++ r /\ o = close_out.
Proof.
  unfold close_step. split.
  - destruct (lit_rest FENCE t) as [r0|] eqn:E; [|done].
    apply lit_rest_Some in E as ->.
    destruct (run_then CLOSE r0) as [[k r']|] eqn:E; [|done].
    apply run_then_Some in E as [Hk ->]; [|done..].
    intros [= <- <-]. by exists k.
  - intros (k & Hk & -> & ->). rewrite lit_rest_app.
    by rewrite (proj2 (run_then_Some CLOSE (replicate k LF ++ CLOSE ++ r) k r
                         ltac:(done) ltac:(done)) (conj Hk eq_refl)).
Qed.

Lemma close_step_shrinks : shrinking close_step.
Proof.
  intros t o r H. apply close_step_Some in H as (k & Hk & -> & _).
  rewrite !length_app. simpl. lia.
Qed.

Lemma closeFencePattern_match i t :
  matcher closeFencePattern (mkState i t []) Some
  = match lit_rest FENCE t with
    | Some r0 =>
        match run_then CLOSE r0 with
        | Some (k, r) => Some (mkState (i + length FENCE + k + length CLOSE) r [])
        | None => None
        end
    | None => None
    end.
Proof.
  unfold closeFencePattern, matcher. rewrite m_seqs_cons, m_lit_eq.
  fold FENCE. destruct (lit_rest FENCE t) as [r0|]; [|done].
  rewrite m_seqs_cons.
  change (fun y => m_seqs [m_lit (str "</eslint-code-block>")] y Some)
    with (fun z => m_lit CLOSE z (fun w => m_seqs [] w Some)).
  by rewrite greedy_lf_then.
Qed.

Lemma adjustClose_scan s : adjustClose s = scan close_step s.
Proof.
  unfold adjustClose, replace_all_str.
  apply replace_all_scan; [apply close_step_shrinks|].
  intros i t. cbn [nCaptures replicate]. rewrite closeFencePattern_match.
  unfold close_step. destruct (lit_rest FENCE t) as [r0|] eqn:E; [|done].
  destruct (run_then CLOSE r0) as [[k r]|] eqn:E2; [|done].
  apply lit_rest_Some in E as ->.
  apply run_then_Some in E2 as [Hk ->]; [|done..].
  exists (length FENCE + k + length CLOSE). cbn [endIndex remaining captures].
  assert (Hd : drop (length FENCE + k + length CLOSE)
                 (FENCE ++ replicate k LF ++ CLOSE ++ r) = r).
  { replace (FENCE ++ replicate k LF ++ CLOSE ++ r)
      with ((FENCE ++ replicate k LF ++ CLOSE) ++ r) by (by rewrite <- !app_assoc).
    apply drop_app_length'. rewrite !length_app, length_replicate. lia. }
  rewrite Hd. split; [lia|]. split; [lia|]. split; reflexivity.
Qed.

(** *** The opening side *)

Lemma lazy_any_find (K : Continuation) (F : text -> nat -> text -> MatchState)
    i0 r0 caps0 :
  (forall pre t, r0 = pre ++ t ->
     K (mkState (i0 + length pre) t caps0)
     = match t with
       | c :: t' =>
           if (c =? GT)%N then
             match run_then FENCE t' with
             | Some (k, r) => Some (F pre k r)
             | None => None
             end
           else None
       | [] => None
       end) ->
  forall pre t, r0 = pre ++ t ->
    lazy_try cc_any (i0 + length pre) t caps0 K
    = match find_close t with
      | Some (X, k, r) => Some (F (pre ++ X) k r)
      | None => None
      end.
Proof.
  intros HK pre t. revert pre. induction t as [|c t IH]; intros pre Hr0.
  - cbn [lazy_try find_close]. by rewrite (HK pre []).
  - cbn [lazy_try find_close]. rewrite (HK pre (c :: t)) by done.
    change (cc_any c) with true. cbn iota.
    specialize (IH (pre ++ [c])). rewrite length_app in IH. cbn [length] in IH.
    replace (S (i0 + length pre)) with (i0 + (length pre + 1)) by lia.
    rewrite IH by (by rewrite <- app_assoc).
    destruct (c =? GT)%N.
    + destruct (run_then FENCE t) as [[k r]|].
      * by rewrite app_nil_r.
      * destruct (find_close t) as [[[X k] r]|]; [|done]. by rewrite <- app_assoc.
    + destruct (find_close t) as [[[X k] r]|]; [|done]. by rewrite <- app_assoc.
Qed.

Lemma openFencePattern_match i t :
  matcher openFencePattern (mkState i t [None; None]) Some
  = match lit_rest OPEN t with
    | Some r0 =>
        match find_close r0 with
        | Some (X, k, r) =>
            Some (mkState (i + length OPEN + length X + 1 + k + length FENCE) r
                    [Some (take (length OPEN + length X + 1) t); Some X])
        | None => None
        end
    | None => None
    end.
Proof.
  unfold openFencePattern, matcher. rewrite m_seqs_cons. unfold m_group at 1.
  rewrite m_seqs_cons, m_lit_eq. fold OPEN.
  destruct (lit_rest OPEN t) as [r0|] eqn:E; [|done].
  rewrite m_seqs_cons. unfold m_group. rewrite m_star_lazy_char.
  cbn [endIndex remaining captures].
  pose proof (lazy_any_find
    (fun y =>
       m_seqs [m_lit (str ">")]
         (mkState (endIndex y) (remaining y)
            (<[1:=Some (take (endIndex y - (i + length OPEN)) r0)]> (captures y)))
         (fun y0 =>
            m_seqs [m_plus lf; m_lit (str "```")]
              (mkState (endIndex y0) (remaining y0)
                 (<[0:=Some (take (endIndex y0 - i) t)]> (captures y0))) Some))
    (fun X k r =>
       mkState (i + length OPEN + length X + 1 + k + length FENCE) r
         [Some (take (length OPEN + length X + 1) t); Some X])
    (i + length OPEN) r0 [None; None]) as H.
  match type of H with ?A -> _ => assert (HK : A); [clear H|] end.
  2: { specialize (H HK [] r0 eq_refl). cbn [length app] in H.
       rewrite Nat.add_0_r in H. exact H. }
  intros pre u Hr0. cbv beta. rewrite m_seqs_cons. cbn [endIndex remaining captures].
  rewrite m_lit_eq. change (str ">") with [GT]. cbn [lit_rest].
  destruct u as [|c u]; [done|]. unfold cc_is.
  destruct (c =? GT)%N; [|done].
  rewrite m_seqs_nil, m_seqs_cons. cbn [endIndex remaining captures].
  change (fun y => m_seqs [m_lit (str "```")] y Some)
    with (fun z => m_lit FENCE z (fun w => m_seqs [] w Some)).
  rewrite greedy_lf_then. 2, 3: done.
  destruct (run_then FENCE u) as [[k r]|]; [|done].
  do 2 f_equal.
  cbn [length]. cbn [list_insert insert].
  replace (i + length OPEN + length pre + 1 - i)
    with (length OPEN + length pre + 1) by lia.
  replace (i + length OPEN + length pre - (i + length OPEN))
    with (length pre) by lia.
  rewrite Hr0, take_app_length. reflexivity.
Qed.

Lemma quiet_nil w : quiet [] w.
Proof. intros a b H. by destruct a. Qed.

Lemma quiet_cons c X w :
  quiet (c :: X) w <-> (c = GT -> run_then FENCE (X ++ w) = None) /\ quiet X w.
Proof.
  split.
  - intros H. split.
    + intros ->. by apply (H []).
    + intros a b ->. by apply (H (c :: a)).
  - intros [H1 H2] a b H. destruct a as [|a0 a].
    + injection H as -> ->. by apply H1.
    + injection H as -> ->. by apply (H2 a).
Qed.

Lemma find_close_Some t X k r :
  find_close t = Some (X, k, r) <->
  t = X ++ GT :: replicate k LF ++ FENCE ++ r /\ 1 <= k
  /\ quiet X (GT :: replicate k LF ++ FENCE ++ r).
Proof.
  revert X. induction t as [|c t IH]; intros X.
  - cbn [find_close]. split; [done|]. intros [H _]. by destruct X.
  - cbn [find_close].
    destruct (if (c =? GT)%N then run_then FENCE t else None) as [[k' r']|] eqn:E.
    + destruct (N.eqb_spec c GT) as [->|]; [|done].
      apply run_then_Some in E as [Hk ->]; [|done..]. split.
      * intros [= <- <- <-]. split; [done|]. split; [done|]. apply quiet_nil.
      * intros (H & Hk' & Hq). destruct X as [|x X].
        -- cbn [app] in H. apply cons_eq_inv in H as [_ H].
           assert (E : run_then FENCE (replicate k' LF ++ FENCE ++ r')
                       = Some (k, r)).
           { rewrite H. by apply run_then_Some. }
           rewrite (proj2 (run_then_Some FENCE _ k' r' ltac:(done) ltac:(done))
                      (conj Hk eq_refl)) in E.
           by injection E as -> ->.
        -- cbn [app] in H. apply cons_eq_inv in H as [<- H].
           apply quiet_cons in Hq as [Hq _]. specialize (Hq eq_refl).
           rewrite <- H in Hq.
           by rewrite (proj2 (run_then_Some FENCE _ k' r' ltac:(done) ltac:(done))
                         (conj Hk eq_refl)) in Hq.
    + destruct (find_close t) as [[[X' k0] r0]|] eqn:E2.
      * split.
        -- intros [= <- <- <-]. destruct (proj1 (IH X') eq_refl) as (-> & Hk & Hq).
           split; [done|]. split; [done|]. apply quiet_cons. split; [|done].
           intros ->. rewrite N.eqb_refl in E. exact E.
        -- intros (H & Hk & Hq). destruct X as [|x X].
           ++ cbn [app] in H. apply cons_eq_inv in H as [-> H].
              rewrite N.eqb_refl in E. rewrite H in E.
              by rewrite (proj2 (run_then_Some FENCE _ k r ltac:(done) ltac:(done))
                            (conj Hk eq_refl)) in E.
           ++ cbn [app] in H. apply cons_eq_inv in H as [<- H].
              apply quiet_cons in Hq as [_ Hq].
              by injection (proj2 (IH X) (conj H (conj Hk Hq))) as -> -> ->.
      * split; [done|]. intros (H & Hk & Hq). destruct X as [|x X].
        -- cbn [app] in H. apply cons_eq_inv in H as [-> H].
           rewrite N.eqb_refl in E. rewrite H in E.
           by rewrite (proj2 (run_then_Some FENCE _ k r ltac:(done) ltac:(done))
                         (conj Hk eq_refl)) in E.
        -- cbn [app] in H. apply cons_eq_inv in H as [<- H].
           apply quiet_cons in Hq as [_ Hq].
           by pose proof (proj2 (IH X) (conj H (conj Hk Hq))).
Qed.

Lemma open_step_Some t o r :
  open_step t = Some (o, r) <->
  exists X k, t = OPEN ++ X ++ GT :: replicate k LF ++ FENCE ++ r /\ 1 <= k
              /\ quiet X (GT :: replicate k LF ++ FENCE ++ r) /\ o = open_out X.
Proof.
  unfold open_step. split.
  - destruct (lit_rest OPEN t) as [r0|] eqn:E; [|done].
    apply lit_rest_Some in E as ->.
    destruct (find_close r0) as [[[X k] r']|] eqn:E; [|done].
    apply find_close_Some in E as (-> & Hk & Hq). intros [= <- <-].
    by exists X, k.
  - intros (X & k & -> & Hk & Hq & ->). rewrite lit_rest_app.
    by rewrite (proj2 (find_close_Some _ X k r) (conj eq_refl (conj Hk Hq))).
Qed.

Lemma open_step_shrinks : shrinking open_step.
Proof.
  intros t o r H. apply open_step_Some in H as (X & k & -> & _).
  rewrite !length_app. cbn [length]. rewrite !length_app, length_replicate. lia.
Qed.

Lemma GetSubstitution_open m s p (c1 : text) (c2 : option text) :
  GetSubstitution m s p [Some c1; c2] (str "$1" ++ [LF; LF] ++ str "```")
  = c1 ++ [LF; LF] ++ FENCE.
Proof.
  change (str "$1" ++ [LF; LF] ++ str "```") with ([DOLLAR; 49%N] ++ LF :: LF :: FENCE).
  rewrite GetSubstitution_app_LF, GetSubstitution_LF, GetSubstitution_cons2.
  rewrite (GetSubstitution_plain _ _ _ _ FENCE) by plain.
  cbn. by rewrite app_nil_r.
Qed.

Lemma adjustOpen_scan s : adjustOpen s = scan open_step s.
Proof.
  unfold adjustOpen, replace_all_str.
  apply replace_all_scan; [apply open_step_shrinks|].
  intros i t. cbn [nCaptures replicate]. rewrite openFencePattern_match.
  unfold open_step. destruct (lit_rest OPEN t) as [r0|] eqn:E; [|done].
  destruct (find_close r0) as [[[X k] r]|] eqn:E2; [|done].
  apply lit_rest_Some in E as ->.
  apply find_close_Some in E2 as (-> & Hk & _).
  exists (length OPEN + length X + 1 + k + length FENCE).
  cbn [endIndex remaining captures].
  assert (Hd : drop (length OPEN + length X + 1 + k + length FENCE)
                 (OPEN ++ X ++ GT :: replicate k LF ++ FENCE ++ r) = r).
  { replace (OPEN ++ X ++ GT :: replicate k LF ++ FENCE ++ r)
      with ((OPEN ++ X ++ [GT] ++ replicate k LF ++ FENCE) ++ r)
      by (by rewrite <- !app_assoc).
    apply drop_app_length'. rewrite !length_app, length_replicate. simpl. lia. }
  assert (Ht : take (length OPEN + length X + 1)
                 (OPEN ++ X ++ GT :: replicate k LF ++ FENCE ++ r)
               = OPEN ++ X ++ [GT]).
  { replace (OPEN ++ X ++ GT :: replicate k LF ++ FENCE ++ r)
      with ((OPEN ++ X ++ [GT]) ++ replicate k LF ++ FENCE ++ r)
      by (by rewrite <- !app_assoc).
    apply take_app_length'. rewrite !length_app. simpl. lia. }
  rewrite Hd, Ht. split; [lia|]. split; [lia|]. split; [reflexivity|].
  unfold by_template, open_out. rewrite GetSubstitution_open.
  by rewrite <- !app_assoc.
Qed.

(** *** Each of the two replacements is idempotent *)

Lemma app_prefix_no_elem (a : char) (u x b y : text) :
  u ++ x = b ++ a :: y -> a ∉ u -> exists b', b = u ++ b'.
Proof.
  revert b. induction u as [|c u IH]; intros b H Hu; [by exists b|].
  apply not_elem_of_cons in Hu as [Hc Hu].
  destruct b as [|d b]; cbn [app] in H; apply cons_eq_inv in H as [-> H]; [done|].
  destruct (IH _ H Hu) as [b' ->]. by exists b'.
Qed.

Lemma GT_not_in_run_fence k : GT ∉ replicate k LF ++ FENCE.
Proof.
  apply not_elem_of_app. split; [|plain].
  intros H. apply elem_of_replicate in H as [? _]. done.
Qed.

(** Whether line feeds and a fence precede the next [>] does not depend on
    what follows that [>]. *)
Lemma run_then_fence_indep b w w' :
  run_then FENCE (b ++ GT :: w) = None -> run_then FENCE (b ++ GT :: w') = None.
Proof.
  intros H. destruct (run_then FENCE (b ++ GT :: w')) as [[k r]|] eqn:E; [|done].
  apply run_then_Some in E as [Hk E]; [|done..].
  symmetry in E. rewrite app_assoc in E.
  destruct (app_prefix_no_elem _ _ _ _ _ E (GT_not_in_run_fence k)) as [b' ->].
  rewrite <- !app_assoc in H.
  by rewrite (proj2 (run_then_Some FENCE _ k (b' ++ GT :: w) ltac:(done) ltac:(done))
                (conj Hk eq_refl)) in H.
Qed.

Lemma quiet_indep X w w' : quiet X (GT :: w) -> quiet X (GT :: w').
Proof. intros H a b Hab. eapply run_then_fence_indep, H, Hab. Qed.

Lemma open_step_stable s o r t :
  open_step s = Some (o, r) -> open_step (o ++ t) = Some (o, t).
Proof.
  intros H. apply open_step_Some in H as (X & k & -> & Hk & Hq & ->).
  apply open_step_Some. exists X, 2. split; [|split; [lia|split; [|done]]].
  - unfold open_out. rewrite <- !app_assoc. reflexivity.
  - eapply quiet_indep, Hq.
Qed.

Lemma close_step_stable s o r t :
  close_step s = Some (o, r) -> close_step (o ++ t) = Some (o, t).
Proof.
  intros H. apply close_step_Some in H as (k & Hk & -> & ->).
  apply close_step_Some. exists 2. split; [lia|]. split; [|done].
  unfold close_out. rewrite <- !app_assoc. reflexivity.
Qed.

(** The first character of a scanned text. *)
Lemma scan_uncons step s c w :
  shrinking step -> scan step s = c :: w ->
  (exists s', s = c :: s' /\ step s = None /\ scan step s' = w)
  \/ (exists o r, step s = Some (o, r) /\ o ++ scan step r = c :: w).
Proof.
  intros Hs H. destruct (step s) as [[o r]|] eqn:E.
  - right. exists o, r. split; [done|]. by rewrite <- (scan_match _ Hs _ _ _ E).
  - left. destruct s as [|c' s'].
    + by rewrite scan_nil in H.
    + rewrite (scan_skip _ _ _ E) in H. apply cons_eq_inv in H as [-> H].
      by exists s'.
Qed.

Lemma close_step_head t o r :
  close_step t = Some (o, r) -> head t = Some BACKTICK /\ head o = Some BACKTICK.
Proof.
  intros H. apply close_step_Some in H as (k & _ & -> & ->). done.
Qed.

Lemma open_step_head t o r :
  open_step t = Some (o, r) -> head t = Some LT /\ head o = Some LT.
Proof.
  intros H. apply open_step_Some in H as (X & k & -> & _ & _ & ->). done.
Qed.

Lemma BACKTICK_not_in_run_close k : BACKTICK ∉ replicate k LF ++ CLOSE.
Proof.
  apply not_elem_of_app. split; [|plain].
  intros H. apply elem_of_replicate in H as [? _]. done.
Qed.

Lemma LT_not_in_run_fence k : LT ∉ replicate k LF ++ FENCE.
Proof.
  apply not_elem_of_app. split; [|plain].
  intros H. apply elem_of_replicate in H as [? _]. done.
Qed.

Lemma replicate_LF_cons k t : 1 <= k -> exists t', replicate k LF ++ t = LF :: t'.
Proof. destruct k; [lia|]. by eexists. Qed.

(** The closing scan creates no match. *)
Lemma close_step_none_scan c s :
  close_step (c :: s) = None -> close_step (c :: scan close_step s) = None.
Proof.
  intros Hn.
  destruct (close_step (c :: scan close_step s)) as [[o r]|] eqn:E; [|done].
  exfalso. apply close_step_Some in E as (k & Hk & E & _).
  change FENCE with [BACKTICK; BACKTICK; BACKTICK] in E. cbn [app] in E.
  apply cons_eq_inv in E as [-> E].
  destruct (replicate_LF_cons k (CLOSE ++ r) Hk) as [t' Ht'].
  destruct (scan_uncons _ _ _ _ close_step_shrinks E)
    as [(s1 & -> & _ & E1)|(o1 & r1 & Ho & E1)].
  2: { apply close_step_Some in Ho as (? & _ & _ & ->).
       rewrite Ht' in E1. discriminate E1. }
  destruct (scan_uncons _ _ _ _ close_step_shrinks E1)
    as [(s2 & -> & _ & E2)|(o2 & r2 & Ho & E2)].
  2: { apply close_step_Some in Ho as (? & _ & _ & ->).
       rewrite Ht' in E2. discriminate E2. }
  rewrite app_assoc in E2.
  destruct (scan_prefix _ BACKTICK close_step_shrinks close_step_head _ _ _ E2
              (BACKTICK_not_in_run_close k)) as [v' ->].
  rewrite <- app_assoc in Hn.
  assert (H : close_step (BACKTICK :: BACKTICK :: BACKTICK
                            :: replicate k LF ++ CLOSE ++ v')
              = Some (close_out, v')).
  { apply close_step_Some. by exists k. }
  congruence.
Qed.

Theorem adjustClose_idempotent s : adjustClose (adjustClose s) = adjustClose s.
Proof.
  rewrite !adjustClose_scan. apply scan_idempotent.
  - apply close_step_shrinks.
  - intros ? ? ? H t. by eapply close_step_stable.
  - apply close_step_none_scan.
Qed.

(** Where a [>] followed by line feeds and a fence is found. *)
Lemma find_close_is_Some t :
  is_Some (find_close t) <->
  exists a w, t = a ++ GT :: w /\ is_Some (run_then FENCE w).
Proof.
  split.
  - intros [[[X k] r] H]. apply find_close_Some in H as (-> & Hk & _).
    exists X, (replicate k LF ++ FENCE ++ r). split; [done|].
    exists (k, r). by apply run_then_Some.
  - intros (a & w & -> & Hw). induction a as [|c a IH]; cbn [app find_close].
    + rewrite N.eqb_refl. destruct Hw as [[k r] ->]. by eexists.
    + destruct (if (c =? GT)%N then _ else _) as [[? ?]|]; [by eexists|].
      destruct IH as [[[X k] r] ->]. by eexists.
Qed.

Lemma find_close_app_plain Y t :
  GT ∉ Y ->
  find_close (Y ++ t)
  = match find_close t with
    | Some (X, k, r) => Some (Y ++ X, k, r)
    | None => None
    end.
Proof.
  induction Y as [|c Y IH]; intros H.
  - cbn [app]. by destruct (find_close t) as [[[? ?] ?]|].
  - apply not_elem_of_cons in H as [Hc HY]. cbn [app find_close].
    destruct (N.eqb_spec c GT); [done|]. rewrite IH by done.
    by destruct (find_close t) as [[[? ?] ?]|].
Qed.

(** The opening scan creates no [>] followed by line feeds and a fence. *)
Lemma find_close_scan s :
  is_Some (find_close (scan open_step s)) -> is_Some (find_close s).
Proof.
  intros H. apply find_close_is_Some in H as (a & w & H & Hw).
  revert s a H.
  apply (scan_ind open_step open_step_shrinks
           (fun s => forall a, scan open_step s = a ++ GT :: w -> is_Some (find_close s))).
  - intros a. rewrite scan_nil by apply open_step_shrinks. by destruct a.
  - intros ch s E IH a. rewrite (scan_skip _ _ _ E). intros H.
    apply find_close_is_Some. destruct a as [|c a]; cbn [app] in H;
      apply cons_eq_inv in H as [-> H].
    + destruct Hw as [[k r] Hw]. apply run_then_Some in Hw as [Hk ->]; [|done..].
      rewrite app_assoc in H.
      destruct (scan_prefix _ LT open_step_shrinks open_step_head _ _ _ H
                  (LT_not_in_run_fence k)) as [v' ->].
      exists [], ((replicate k LF ++ FENCE) ++ v'). split; [done|].
      exists (k, v'). apply run_then_Some; [done..|]. by rewrite <- app_assoc.
    + apply IH, find_close_is_Some in H as (a' & w' & -> & Hw').
      by exists (c :: a'), w'.
  - intros s o r E _ a _.
    apply open_step_Some in E as (X & k & -> & Hk & _).
    apply find_close_is_Some. exists (OPEN ++ X), (replicate k LF ++ FENCE ++ r).
    split; [by rewrite <- app_assoc|]. exists (k, r). by apply run_then_Some.
Qed.

Lemma GT_not_in_OPEN_NAME : GT ∉ OPEN_NAME.
Proof. plain. Qed.

(** The opening scan creates no match. *)
Lemma open_step_none_scan c s :
  open_step (c :: s) = None -> open_step (c :: scan open_step s) = None.
Proof.
  intros Hn.
  destruct (open_step (c :: scan open_step s)) as [[o r]|] eqn:E; [|done].
  exfalso. apply open_step_Some in E as (X & k & E & Hk & _).
  rewrite OPEN_eq in E. cbn [app] in E. apply cons_eq_inv in E as [-> E].
  destruct (scan_prefix _ LT open_step_shrinks open_step_head _ _ _ E
              OPEN_NAME_no_lt) as [v' Hv].
  assert (Hq : is_Some (find_close (scan open_step s))).
  { apply find_close_is_Some.
    exists (OPEN_NAME ++ X), (replicate k LF ++ FENCE ++ r).
    split; [by rewrite E, <- app_assoc|]. exists (k, r). by apply run_then_Some. }
  apply find_close_scan in Hq. rewrite Hv in Hq.
  rewrite find_close_app_plain in Hq by apply GT_not_in_OPEN_NAME.
  unfold open_step in Hn. rewrite OPEN_eq, Hv in Hn.
  change (60%N :: OPEN_NAME ++ v') with ((60%N :: OPEN_NAME) ++ v') in Hn.
  rewrite lit_rest_app in Hn.
  destruct (find_close v') as [[[? ?] ?]|]; [done|]. by destruct Hq.
Qed.

Theorem adjustOpen_idempotent s : adjustOpen (adjustOpen s) = adjustOpen s.
Proof.
  rewrite !adjustOpen_scan. apply scan_idempotent.
  - apply open_step_shrinks.
  - intros ? ? ? H t. by eapply open_step_stable.
  - apply open_step_none_scan.
Qed.

(** *** The opening replacement as a stream

    The opening replacement copies the text, except that after an opening
    tag has begun it rewrites the line feeds between the next [>] that is
    followed by line feeds and a fence, and that fence.  [act] tells whether
    a tag has begun since the last rewrite. *)

Lemma skip_lf_length t : length (skip_lf t) <= length t.
Proof. unfold skip_lf. rewrite length_drop. lia. Qed.

Lemma go_fuel n m act t :
  length t <= n -> length t <= m -> go n act t = go m act t.
Proof.
  revert m act t. induction n as [|n IH]; intros m act t Hn Hm.
  - destruct t; [|simpl in Hn; lia]. by destruct m.
  - destruct m as [|m].
    + destruct t; [done|simpl in Hm; lia].
    + destruct t as [|c t]; [done|]. cbn [go]. simpl in Hn, Hm.
      pose proof (skip_lf_length t).
      destruct (_ && _ && _); f_equal; [do 2 f_equal|]; apply IH; lia.
Qed.

Lemma stream_nil act : stream act [] = [].
Proof. reflexivity. Qed.

Lemma stream_cons act c t :
  stream act (c :: t) =
  if (act || starts_open (c :: t)) && (c =? GT)%N && fence_follows t
  then GT :: LF :: LF :: stream false (skip_lf t)
  else c :: stream (act || starts_open (c :: t)) t.
Proof.
  unfold stream. cbn [length go]. pose proof (skip_lf_length t).
  destruct (_ && _ && _); [|done].
  do 3 f_equal. apply go_fuel; lia.
Qed.

(** A character that is neither [>] nor the [<] of an opening tag is
    copied. *)
Lemma stream_copy act c t :
  c <> GT -> starts_open (c :: t) = false ->
  stream act (c :: t) = c :: stream act t.
Proof.
  intros Hc Ho. rewrite stream_cons, Ho, orb_false_r.
  destruct (N.eqb_spec c GT); [done|]. by rewrite andb_false_r.
Qed.

Lemma starts_open_head c t : c <> LT -> starts_open (c :: t) = false.
Proof.
  intros H. unfold starts_open. rewrite OPEN_eq. cbn [lit_rest]. unfold cc_is.
  destruct (N.eqb_spec c 60%N); done.
Qed.

Lemma stream_copy_plain act Y t :
  GT ∉ Y -> LT ∉ Y -> stream act (Y ++ t) = Y ++ stream act t.
Proof.
  induction Y as [|c Y IH]; intros H1 H2; [done|].
  apply not_elem_of_cons in H1 as [? ?]. apply not_elem_of_cons in H2 as [? ?].
  cbn [app]. rewrite stream_copy, IH; [done..|]. by apply starts_open_head.
Qed.

(** Once a tag has begun, the text is copied up to the [>] to rewrite. *)
Lemma stream_true_cons c t :
  stream true (c :: t) =
  if (c =? GT)%N && fence_follows t
  then GT :: LF :: LF :: stream false (skip_lf t)
  else c :: stream true t.
Proof. by rewrite stream_cons. Qed.

Lemma fence_follows_false t : fence_follows t = false <-> run_then FENCE t = None.
Proof. unfold fence_follows. by destruct (run_then FENCE t). Qed.

Lemma stream_true_quiet Y w :
  quiet Y w -> stream true (Y ++ w) = Y ++ stream true w.
Proof.
  induction Y as [|c Y IH]; intros H; [done|].
  apply quiet_cons in H as [Hc HY]. cbn [app]. rewrite stream_true_cons.
  destruct (N.eqb_spec c GT) as [->|].
  - rewrite (proj2 (fence_follows_false _) (Hc eq_refl)). cbn [andb].
    by rewrite IH.
  - cbn [andb]. by rewrite IH.
Qed.

Lemma quiet_app_plain Y X w : GT ∉ Y -> quiet X w -> quiet (Y ++ X) w.
Proof.
  induction Y as [|c Y IH]; intros H HX; [done|].
  apply not_elem_of_cons in H as [? ?]. cbn [app]. apply quiet_cons.
  split; [done|]. by apply IH.
Qed.

Lemma find_close_cons_None c t :
  find_close (c :: t) = None ->
  (c = GT -> run_then FENCE t = None) /\ find_close t = None.
Proof.
  cbn [find_close]. destruct (N.eqb_spec c GT) as [->|].
  - destruct (run_then FENCE t) as [[? ?]|]; [done|].
    destruct (find_close t) as [[[? ?] ?]|]; done.
  - destruct (find_close t) as [[[? ?] ?]|]; done.
Qed.

(** Without a [>] followed by line feeds and a fence, the stream copies. *)
Lemma stream_no_close act t : find_close t = None -> stream act t = t.
Proof.
  revert act. induction t as [|c t IH]; intros act H; [done|].
  apply find_close_cons_None in H as [Hc Ht]. rewrite stream_cons.
  destruct (N.eqb_spec c GT) as [->|].
  - rewrite (proj2 (fence_follows_false _) (Hc eq_refl)), andb_false_r.
    by rewrite IH.
  - rewrite andb_false_r. cbn [andb]. by rewrite IH.
Qed.

Lemma skip_lf_run k t :
  head t <> Some LF -> skip_lf (replicate k LF ++ t) = t.
Proof.
  intros H. unfold skip_lf. rewrite span_replicate_LF by done.
  apply drop_app_length'. by rewrite length_replicate.
Qed.

Lemma stream_fence act t : stream act (FENCE ++ t) = FENCE ++ stream act t.
Proof. apply stream_copy_plain; plain. Qed.

Lemma fence_follows_run k r : 1 <= k -> fence_follows (replicate k LF ++ FENCE ++ r) = true.
Proof.
  intros Hk. unfold fence_follows.
  by rewrite (proj2 (run_then_Some FENCE _ k r ltac:(done) ltac:(done))
                (conj Hk eq_refl)).
Qed.

(** The [>] to rewrite. *)
Lemma stream_true_fire k r :
  1 <= k ->
  stream true (GT :: replicate k LF ++ FENCE ++ r)
  = GT :: LF :: LF :: FENCE ++ stream false r.
Proof.
  intros Hk. rewrite stream_true_cons, N.eqb_refl, fence_follows_run by done.
  cbn [andb]. rewrite skip_lf_run by done. by rewrite stream_fence.
Qed.

(** The scan of the opening replacement is this stream. *)
Lemma scan_open_stream s : scan open_step s = stream false s.
Proof.
  revert s. apply (scan_ind open_step open_step_shrinks).
  - by rewrite scan_nil by apply open_step_shrinks.
  - intros c s E IH. rewrite (scan_skip _ _ _ E), IH.
    destruct (starts_open (c :: s)) eqn:Eo.
    + unfold starts_open in Eo. unfold open_step in E.
      destruct (lit_rest OPEN (c :: s)) as [r0|] eqn:El; [|done].
      apply lit_rest_Some in El.
      assert (Hn : find_close (c :: s) = None).
      { rewrite El, find_close_app_plain by plain.
        by destruct (find_close r0) as [[[? ?] ?]|]. }
      rewrite (stream_no_close _ _ Hn).
      apply find_close_cons_None in Hn as [_ Hn].
      by rewrite (stream_no_close _ _ Hn).
    + rewrite stream_cons, Eo. reflexivity.
  - intros s o r E IH. rewrite (scan_match _ open_step_shrinks _ _ _ E), IH.
    apply open_step_Some in E as (X & k & -> & Hk & Hq & ->).
    rewrite OPEN_eq. cbn [app]. rewrite stream_cons.
    match goal with
    | |- context [starts_open ?t] => assert (Ho : starts_open t = true)
    end.
    { unfold starts_open. rewrite OPEN_eq.
      change (60%N :: OPEN_NAME ++ ?t) with ((60%N :: OPEN_NAME) ++ t).
      by rewrite lit_rest_app. }
    rewrite Ho. cbn [orb andb]. change (60 =? GT)%N with false. cbn [andb].
    rewrite app_assoc, stream_true_quiet.
    2: { apply quiet_app_plain; [apply GT_not_in_OPEN_NAME|done]. }
    rewrite stream_true_fire by done.
    unfold open_out. rewrite OPEN_eq, <- !app_assoc. reflexivity.
Qed.

(** *** The closing replacement leaves the opening side alone *)

Lemma close_step_head_None c t : c <> BACKTICK -> close_step (c :: t) = None.
Proof.
  intros H. unfold close_step. change FENCE with [BACKTICK; BACKTICK; BACKTICK].
  cbn [lit_rest]. unfold cc_is. destruct (N.eqb_spec c BACKTICK); done.
Qed.

Lemma scan_close_copy Y t :
  BACKTICK ∉ Y -> scan close_step (Y ++ t) = Y ++ scan close_step t.
Proof.
  induction Y as [|c Y IH]; intros H; [done|].
  apply not_elem_of_cons in H as [? ?]. cbn [app].
  rewrite scan_skip by (by apply close_step_head_None). by rewrite IH.
Qed.

Lemma replicate_LF_no_backtick k : BACKTICK ∉ replicate k LF.
Proof. intros H. apply elem_of_replicate in H as [? _]. done. Qed.

Lemma scan_close_keeps_fence r :
  exists w, scan close_step (FENCE ++ r) = FENCE ++ w.
Proof.
  change FENCE with [BACKTICK; BACKTICK; BACKTICK]. cbn [app].
  destruct (close_step (BACKTICK :: BACKTICK :: BACKTICK :: r)) as [[o r1]|] eqn:E1.
  { rewrite (scan_match _ close_step_shrinks _ _ _ E1).
    apply close_step_Some in E1 as (? & _ & _ & ->). by eexists. }
  rewrite (scan_skip _ _ _ E1).
  destruct (close_step (BACKTICK :: BACKTICK :: r)) as [[o r2]|] eqn:E2.
  { rewrite (scan_match _ close_step_shrinks _ _ _ E2).
    apply close_step_Some in E2 as (? & _ & _ & ->). by eexists. }
  rewrite (scan_skip _ _ _ E2).
  destruct (close_step (BACKTICK :: r)) as [[o r3]|] eqn:E3.
  { rewrite (scan_match _ close_step_shrinks _ _ _ E3).
    apply close_step_Some in E3 as (? & _ & _ & ->). by eexists. }
  rewrite (scan_skip _ _ _ E3). by eexists.
Qed.

Lemma close_step_fence t o r : close_step t = Some (o, r) -> exists v, t = FENCE ++ v.
Proof. intros H. apply close_step_Some in H as (k & _ & -> & _). by eexists. Qed.

Lemma scan_close_fence_inv v r :
  scan close_step v = FENCE ++ r -> exists v', v = FENCE ++ v'.
Proof.
  change FENCE with [BACKTICK; BACKTICK; BACKTICK]. cbn [app]. intros H.
  destruct (scan_uncons _ _ _ _ close_step_shrinks H)
    as [(v1 & -> & _ & H1)|(o & r1 & Ho & _)].
  2: { apply close_step_fence in Ho as [? ->]. by eexists. }
  destruct (scan_uncons _ _ _ _ close_step_shrinks H1)
    as [(v2 & -> & _ & H2)|(o & r1 & Ho & _)].
  2: { apply close_step_fence in Ho as [? ->]. by eexists. }
  destruct (scan_uncons _ _ _ _ close_step_shrinks H2)
    as [(v3 & -> & _ & H3)|(o & r1 & Ho & _)].
  2: { apply close_step_fence in Ho as [? ->]. by eexists. }
  by eexists.
Qed.

Lemma BACKTICK_not_in_OPEN_NAME : BACKTICK ∉ OPEN_NAME.
Proof. plain. Qed.

Lemma starts_open_spec t : starts_open t = true <-> exists v, t = OPEN ++ v.
Proof.
  unfold starts_open. split.
  - destruct (lit_rest OPEN t) as [v|] eqn:E; [|done].
    apply lit_rest_Some in E. by exists v.
  - intros [v ->]. by rewrite lit_rest_app.
Qed.

Lemma starts_open_scan_close c z :
  starts_open (c :: scan close_step z) = starts_open (c :: z).
Proof.
  apply eq_true_iff_eq. rewrite !starts_open_spec, OPEN_eq. split.
  - intros [v H]. cbn [app] in H. apply cons_eq_inv in H as [-> H].
    destruct (scan_prefix _ BACKTICK close_step_shrinks close_step_head _ _ _ H
                BACKTICK_not_in_OPEN_NAME) as [v' ->].
    by exists v'.
  - intros [v H]. cbn [app] in H. apply cons_eq_inv in H as [-> ->].
    rewrite scan_close_copy by apply BACKTICK_not_in_OPEN_NAME. by eexists.
Qed.

Lemma fence_follows_spec t :
  fence_follows t = true <-> exists k r, 1 <= k /\ t = replicate k LF ++ FENCE ++ r.
Proof.
  unfold fence_follows. split.
  - destruct (run_then FENCE t) as [[k r]|] eqn:E; [|done].
    apply run_then_Some in E; [|done..]. by exists k, r.
  - intros (k & r & Hk & ->).
    by rewrite (proj2 (run_then_Some FENCE _ k r ltac:(done) ltac:(done))
                  (conj Hk eq_refl)).
Qed.

Lemma fence_follows_scan_close z :
  fence_follows (scan close_step z) = true -> fence_follows z = true.
Proof.
  rewrite !fence_follows_spec. intros (k & r & Hk & H).
  destruct (scan_prefix _ BACKTICK close_step_shrinks close_step_head _ _ _ H
              (replicate_LF_no_backtick k)) as [v ->].
  rewrite scan_close_copy in H by apply replicate_LF_no_backtick.
  apply app_inv_head in H. apply scan_close_fence_inv in H as [v' ->].
  by exists k, v'.
Qed.

Lemma scan_close_run_fence k r :
  exists w, scan close_step (replicate k LF ++ FENCE ++ r) = replicate k LF ++ FENCE ++ w
            /\ scan close_step (FENCE ++ r) = FENCE ++ w.
Proof.
  destruct (scan_close_keeps_fence r) as [w Hw]. exists w.
  by rewrite scan_close_copy, Hw by apply replicate_LF_no_backtick.
Qed.

(** Same line feeds on both sides. *)
Lemma run_fence_inj k r r' :
  replicate k LF ++ FENCE ++ r = LF :: LF :: FENCE ++ r' -> k = 2 /\ r = r'.
Proof.
  destruct k as [|[|[|k]]]; cbn; intros H; try discriminate H.
  split; [done|]. by injection H.
Qed.

Lemma CLOSE_eq : CLOSE = LT :: CLOSE_BODY ++ [GT].
Proof. reflexivity. Qed.

Lemma starts_open_close t : starts_open (LT :: CLOSE_BODY ++ t) = false.
Proof. reflexivity. Qed.

(** The stream copies a match of the closing pattern up to its last
    character. *)
Lemma stream_close act k t :
  stream act (FENCE ++ replicate k LF ++ CLOSE ++ t)
  = FENCE ++ replicate k LF ++ LT :: CLOSE_BODY ++ stream act (GT :: t).
Proof.
  rewrite stream_fence. f_equal.
  rewrite stream_copy_plain.
  2, 3: intros H; apply elem_of_replicate in H as [? _]; done.
  f_equal. rewrite CLOSE_eq. cbn [app]. rewrite <- app_assoc. cbn [app].
  rewrite stream_copy; [|done|apply starts_open_close].
  f_equal. apply stream_copy_plain; plain.
Qed.

(** A text the opening replacement leaves as it is, is left as it is by the
    opening replacement after the closing replacement too. *)
Lemma stream_fixed_scan_close z :
  forall act, stream act z = z -> stream act (scan close_step z) = scan close_step z.
Proof.
  remember (length z) as n eqn:Hn. revert z Hn.
  induction n as [n IH] using lt_wf_ind. intros z -> act Hz.
  destruct (close_step z) as [[o r]|] eqn:E.
  - rewrite (scan_match _ close_step_shrinks _ _ _ E).
    apply close_step_Some in E as (k & Hk & -> & ->).
    rewrite stream_close in Hz.
    do 2 apply app_inv_head in Hz.
    rewrite CLOSE_eq in Hz. cbn [app] in Hz. apply cons_eq_inv in Hz as [_ Hz].
    rewrite <- app_assoc in Hz. apply app_inv_head in Hz. cbn [app] in Hz.
    unfold close_out. change [LF; LF] with (replicate 2 LF).
    rewrite <- !app_assoc, stream_close. do 2 f_equal.
    rewrite CLOSE_eq. cbn [app]. f_equal. rewrite <- app_assoc. f_equal. cbn [app].
    rewrite <- (scan_skip close_step GT r) by (by apply close_step_head_None).
    apply (IH (length (GT :: r))); [|done..].
    rewrite !length_app, length_replicate. simpl. lia.
  - destruct z as [|c z]; [by rewrite scan_nil by apply close_step_shrinks|].
    rewrite (scan_skip _ _ _ E). rewrite stream_cons in Hz. rewrite stream_cons.
    rewrite starts_open_scan_close.
    destruct ((act || starts_open (c :: z)) && (c =? GT)%N) eqn:Ea.
    + destruct (fence_follows z) eqn:Ef.
      * cbn [andb] in Hz. apply andb_prop in Ea as [_ Ec].
        apply N.eqb_eq in Ec as ->. apply cons_eq_inv in Hz as [_ Hz].
        apply fence_follows_spec in Ef as (k & r & Hk & ->).
        rewrite skip_lf_run in Hz by done. rewrite stream_fence in Hz.
        symmetry in Hz. apply run_fence_inj in Hz as [-> Hr].
        destruct (scan_close_run_fence 2 r) as (w & Hw1 & Hw2).
        rewrite Hw1, fence_follows_run by lia. cbn [andb].
        rewrite skip_lf_run by done. cbn [replicate app]. do 3 f_equal.
        rewrite <- Hw2. apply (IH (length (FENCE ++ r))).
        -- cbn [length replicate app]. rewrite !length_app. lia.
        -- done.
        -- rewrite stream_fence. by f_equal.
      * cbn [andb] in Hz. apply cons_eq_inv in Hz as [_ Hz].
        destruct (fence_follows (scan close_step z)) eqn:Ef'.
        { apply fence_follows_scan_close in Ef'. congruence. }
        cbn [andb]. f_equal. apply (IH (length z)); [simpl; lia|done..].
    + cbn [andb] in Hz |- *. apply cons_eq_inv in Hz as [_ Hz].
      f_equal. apply (IH (length z)); [simpl; lia|done..].
Qed.

(** *** The spacing normalization *)

Lemma adjustCodeBlocks_content d :
  content (adjustCodeBlocks d) = adjustClose (adjustOpen (content d)).
Proof. reflexivity. Qed.

(** What the spacing normalization returns is left as it is by the opening
    replacement and by the closing replacement. *)
Lemma adjust_fixed_open s :
  adjustOpen (adjustClose (adjustOpen s)) = adjustClose (adjustOpen s).
Proof.
  rewrite (adjustOpen_scan (adjustClose _)), scan_open_stream, adjustClose_scan.
  apply stream_fixed_scan_close.
  rewrite <- scan_open_stream, <- adjustOpen_scan. apply adjustOpen_idempotent.
Qed.

Lemma adjust_fixed_close s :
  adjustClose (adjustClose (adjustOpen s)) = adjustClose (adjustOpen s).
Proof. apply adjustClose_idempotent. Qed.

(** C10: the code-block spacing normalization is idempotent, for every
    document text. *)
Theorem C10_adjustCodeBlocks_idempotent (d : DocFile) :
  adjustCodeBlocks (adjustCodeBlocks d) = adjustCodeBlocks d.
Proof.
  unfold adjustCodeBlocks at 1 3. unfold with_content.
  cbn [rule filePath]. rewrite adjustCodeBlocks_content. f_equal.
  by rewrite adjust_fixed_open, adjust_fixed_close.
Qed.

(** In a text the opening replacement leaves as it is, an opening tag is
    followed by a fence after exactly two line feeds, when line feeds only
    stand between them. *)
Lemma stream_fixed_spacing y :
  forall act pre attrs k post,
    stream act y = y ->
    y = pre ++ OPEN ++ attrs ++ [GT] ++ replicate k LF ++ FENCE ++ post ->
    GT ∉ attrs -> 1 <= k -> k = 2.
Proof.
  remember (length y) as n eqn:Hn. revert y Hn.
  induction n as [n IH] using lt_wf_ind.
  intros y -> act pre attrs k post Hy Hpat Hattrs Hk.
  destruct pre as [|c pre].
  - cbn [app] in Hpat. subst y. rewrite OPEN_eq in Hy. cbn [app] in Hy.
    rewrite stream_cons in Hy.
    change (60 =? GT)%N with false in Hy. rewrite andb_false_r in Hy.
    cbn [andb] in Hy. apply cons_eq_inv in Hy as [_ Hy].
    assert (Ho : forall b t, b || starts_open (60%N :: OPEN_NAME ++ t) = true).
    { intros b t. apply orb_true_iff. right. apply starts_open_spec.
      exists t. by rewrite OPEN_eq. }
    rewrite Ho in Hy.
    rewrite app_assoc, stream_true_quiet in Hy.
    2: { intros a b Hab.
         assert (GT ∈ OPEN_NAME ++ attrs); [|exfalso].
         { rewrite Hab. apply elem_of_app. right. by left. }
         apply elem_of_app in H as [H|H]; [by apply GT_not_in_OPEN_NAME|done]. }
    apply app_inv_head in Hy. cbn [app] in Hy.
    rewrite stream_true_fire in Hy by done.
    apply cons_eq_inv in Hy as [_ Hy]. symmetry in Hy.
    by apply run_fence_inj in Hy as [-> _].
  - cbn [app] in Hpat. subst y. rewrite stream_cons in Hy.
    destruct (_ && _ && _) eqn:Ef.
    + apply andb_prop in Ef as [_ Ef].
      apply fence_follows_spec in Ef as (j & r & Hj & Er).
      rewrite Er in Hy. apply cons_eq_inv in Hy as [_ Hy].
      rewrite skip_lf_run, stream_fence in Hy by done.
      symmetry in Hy. apply run_fence_inj in Hy as [-> Hr].
      cbn [replicate app] in Er.
      destruct pre as [|c1 [|c2 pre]]; cbn [app] in Er.
      { rewrite OPEN_eq in Er. discriminate Er. }
      { apply cons_eq_inv in Er as [_ Er]. rewrite OPEN_eq in Er. discriminate Er. }
      apply cons_eq_inv in Er as [_ Er]. apply cons_eq_inv in Er as [_ Er].
      apply (IH (length (FENCE ++ r))) with (y := FENCE ++ r) (act := false)
        (pre := pre) (attrs := attrs) (post := post); try done.
      * rewrite <- Er. cbn [app length]. lia.
      * rewrite stream_fence. by f_equal.
    + apply cons_eq_inv in Hy as [_ Hy].
      eapply (IH (length (pre ++ OPEN ++ attrs ++ [GT] ++ replicate k LF ++ FENCE ++ post)));
        [simpl; lia|reflexivity|exact Hy|reflexivity|done|done].
Qed.

Lemma FENCE_eq : FENCE = [BACKTICK; BACKTICK; BACKTICK].
Proof. reflexivity. Qed.

Lemma run_close_inj k r r' :
  replicate k LF ++ CLOSE ++ r = LF :: LF :: CLOSE ++ r' -> k = 2 /\ r = r'.
Proof.
  destruct k as [|[|[|k]]]; cbn; intros H; try discriminate H.
  split; [done|]. by injection H.
Qed.

(** In a text the closing replacement leaves as it is, a fence is followed
    by a closing tag after exactly two line feeds, when line feeds only stand
    between them. *)
Lemma scan_close_fixed_spacing y :
  forall pre k post,
    scan close_step y = y ->
    y = pre ++ FENCE ++ replicate k LF ++ CLOSE ++ post ->
    1 <= k -> k = 2.
Proof.
  remember (length y) as n eqn:Hn. revert y Hn.
  induction n as [n IH] using lt_wf_ind.
  intros y -> pre k post Hy Hpat Hk.
  destruct (close_step y) as [[o r]|] eqn:E.
  - rewrite (scan_match _ close_step_shrinks _ _ _ E) in Hy.
    apply close_step_Some in E as (j & Hj & Ey & ->).
    rewrite Ey in Hy. unfold close_out in Hy. rewrite <- !app_assoc in Hy.
    apply app_inv_head in Hy. symmetry in Hy.
    apply run_close_inj in Hy as [-> Hr].
    destruct (decide (length pre < length close_out)) as [Hlt|Hge].
    + destruct pre as [|c pre].
      * rewrite Hpat in Ey. cbn [app] in Ey. apply app_inv_head in Ey.
        apply run_close_inj in Ey as [? _]. done.
      * exfalso. rewrite Ey in Hpat. clear -Hpat Hlt Hk.
        rewrite FENCE_eq in Hpat. cbn [replicate app] in Hpat.
        let c := eval vm_compute in CLOSE in change CLOSE with c in Hpat.
        cbn [app] in Hpat. simpl in Hlt.
        destruct k as [|k]; [lia|]. cbn [replicate app] in Hpat.
        repeat (apply cons_eq_inv in Hpat as [? Hpat]; subst;
                destruct pre as [|? pre];
                [cbn [app] in Hpat; try discriminate Hpat
                |cbn [app length] in Hpat, Hlt]); try (simpl in Hlt; lia).
    + assert (exists pre', pre = close_out ++ pre') as [pre' ->].
      { exists (drop (length close_out) pre).
        rewrite <- (take_drop (length close_out) pre) at 1. f_equal.
        rewrite Ey in Hpat.
        apply (f_equal (take (length close_out))) in Hpat.
        rewrite (take_app_le pre) in Hpat by lia. rewrite <- Hpat.
        change (replicate 2 LF) with [LF; LF]. reflexivity. }
      apply (IH (length r)) with (y := r) (pre := pre') (post := post); try done.
      * rewrite Ey, !length_app. simpl. lia.
      * rewrite Ey in Hpat. unfold close_out in Hpat.
        rewrite <- !app_assoc in Hpat. by do 3 apply app_inv_head in Hpat.
  - destruct y as [|c y].
    { by destruct pre. }
    rewrite (scan_skip _ _ _ E) in Hy. apply cons_eq_inv in Hy as [_ Hy].
    destruct pre as [|c' pre].
    + cbn [app] in Hpat. rewrite Hpat in E.
      rewrite (proj2 (close_step_Some _ close_out post)) in E; [done|].
      by exists k.
    + cbn [app] in Hpat. apply cons_eq_inv in Hpat as [_ Hpat].
      apply (IH (length y)) with (y := y) (pre := pre) (post := post); try done.
      simpl. lia.
Qed.

Lemma run_then_None L t :
  head L <> Some LF -> L <> [] ->
  run_then L t = None <-> forall j r, 1 <= j -> t <> replicate j LF ++ L ++ r.
Proof.
  intros HL HL'. split.
  - intros H j r Hj Ht.
    assert (run_then L t = Some (j, r)) by (by apply run_then_Some).
    congruence.
  - intros H. destruct (run_then L t) as [[j r]|] eqn:E; [|done].
    apply run_then_Some in E as [Hj Ht]; [|done..]. by destruct (H j r).
Qed.

(** The opening replacement, equation by equation. *)
Lemma adjustOpen_equations :
  adjustOpen [] = []
  /\ (forall X k r,
        1 <= k ->
        (forall a b j r', X = a ++ GT :: b -> 1 <= j ->
           b ++ GT :: replicate k LF ++ FENCE ++ r <> replicate j LF ++ FENCE ++ r') ->
        adjustOpen (OPEN ++ X ++ GT :: replicate k LF ++ FENCE ++ r)
        = OPEN ++ X ++ GT :: LF :: LF :: FENCE ++ adjustOpen r)
  /\ (forall c s,
        (forall X k r, 1 <= k ->
           c :: s <> OPEN ++ X ++ GT :: replicate k LF ++ FENCE ++ r) ->
        adjustOpen (c :: s) = c :: adjustOpen s).
Proof.
  split; [|split].
  - rewrite adjustOpen_scan. apply scan_nil, open_step_shrinks.
  - intros X k r Hk Hq. rewrite !adjustOpen_scan.
    rewrite (scan_match _ open_step_shrinks _ (open_out X) r).
    + unfold open_out. rewrite <- !app_assoc. reflexivity.
    + apply open_step_Some. exists X, k. repeat split; [done|].
      intros a b HX. apply run_then_None; [done..|].
      intros j r' Hj. by apply (Hq a b j r').
  - intros c s Hno. rewrite !adjustOpen_scan. apply scan_skip.
    destruct (open_step (c :: s)) as [[o r]|] eqn:E; [|done].
    apply open_step_Some in E as (X & k & E & Hk & _). by destruct (Hno X k r).
Qed.

(** The closing replacement, equation by equation. *)
Lemma adjustClose_equations :
  adjustClose [] = []
  /\ (forall k r,
        1 <= k ->
        adjustClose (FENCE ++ replicate k LF ++ CLOSE ++ r)
        = FENCE ++ LF :: LF :: CLOSE ++ adjustClose r)
  /\ (forall c s,
        (forall k r, 1 <= k -> c :: s <> FENCE ++ replicate k LF ++ CLOSE ++ r) ->
        adjustClose (c :: s) = c :: adjustClose s).
Proof.
  split; [|split].
  - rewrite adjustClose_scan. apply scan_nil, close_step_shrinks.
  - intros k r Hk. rewrite !adjustClose_scan.
    rewrite (scan_match _ close_step_shrinks _ close_out r).
    + unfold close_out. rewrite <- !app_assoc. reflexivity.
    + apply close_step_Some. by exists k.
  - intros c s Hno. rewrite !adjustClose_scan. apply scan_skip.
    destruct (close_step (c :: s)) as [[o r]|] eqn:E; [|done].
    apply close_step_Some in E as (k & Hk & E & _). by destruct (Hno k r).
Qed.

(** Where a text starts with an opening tag that some [>] followed by line
    feeds and a fence closes, the first such [>] closes it. *)
Lemma open_site_first X k r :
  1 <= k ->
  exists X' k' r',
    OPEN ++ X ++ GT :: replicate k LF ++ FENCE ++ r
    = OPEN ++ X' ++ GT :: replicate k' LF ++ FENCE ++ r'
    /\ 1 <= k'
    /\ (forall a b j r'', X' = a ++ GT :: b -> 1 <= j ->
          b ++ GT :: replicate k' LF ++ FENCE ++ r' <> replicate j LF ++ FENCE ++ r'').
Proof.
  intros Hk.
  assert (Hs : is_Some (find_close (X ++ GT :: replicate k LF ++ FENCE ++ r))).
  { apply find_close_is_Some. exists X, (replicate k LF ++ FENCE ++ r).
    split; [done|]. exists (k, r). by apply run_then_Some. }
  destruct Hs as [[[X' k'] r'] Hf].
  apply find_close_Some in Hf as (E & Hk' & Hq).
  exists X', k', r'. split; [by rewrite E|]. split; [done|].
  intros a b j r'' HX Hj. apply (run_then_None FENCE); [done..| |done].
  by apply (Hq a b).
Qed.

(** C9, as amended: the spacing normalization is the opening replacement
    followed by the closing replacement.  The opening replacement copies the
    text from left to right and, wherever [<eslint-code-block] is followed by
    some text, a [>], one line feed or more and a fence, puts exactly two line
    feeds between the first such [>] and the fence; the closing replacement
    does the same between a fence and [</eslint-code-block>]; nothing else is
    changed.  So in the result an opening tag (its attributes hold no [>]) and
    a fence, or a fence and a closing tag, that have only line feeds between
    them have exactly two: one blank line. *)
Theorem C9_adjustCodeBlocks_spacing (d : DocFile) :
  content (adjustCodeBlocks d) = adjustClose (adjustOpen (content d))
  /\ (adjustOpen [] = []
      /\ (forall X k r,
            1 <= k ->
            (forall a b j r', X = a ++ GT :: b -> 1 <= j ->
               b ++ GT :: replicate k LF ++ FENCE ++ r <> replicate j LF ++ FENCE ++ r') ->
            adjustOpen (OPEN ++ X ++ GT :: replicate k LF ++ FENCE ++ r)
            = OPEN ++ X ++ GT :: LF :: LF :: FENCE ++ adjustOpen r)
      /\ (forall c s,
            (forall X k r, 1 <= k ->
               c :: s <> OPEN ++ X ++ GT :: replicate k LF ++ FENCE ++ r) ->
            adjustOpen (c :: s) = c :: adjustOpen s)
      /\ (forall X k r,
            1 <= k ->
            exists X' k' r',
              OPEN ++ X ++ GT :: replicate k LF ++ FENCE ++ r
              = OPEN ++ X' ++ GT :: replicate k' LF ++ FENCE ++ r'
              /\ 1 <= k'
              /\ (forall a b j r'', X' = a ++ GT :: b -> 1 <= j ->
                    b ++ GT :: replicate k' LF ++ FENCE ++ r'
                    <> replicate j LF ++ FENCE ++ r'')))
  /\ (adjustClose [] = []
      /\ (forall k r,
            1 <= k ->
            adjustClose (FENCE ++ replicate k LF ++ CLOSE ++ r)
            = FENCE ++ LF :: LF :: CLOSE ++ adjustClose r)
      /\ (forall c s,
            (forall k r, 1 <= k -> c :: s <> FENCE ++ replicate k LF ++ CLOSE ++ r) ->
            adjustClose (c :: s) = c :: adjustClose s))
  /\ (forall pre attrs k post,
        content (adjustCodeBlocks d)
        = pre ++ OPEN ++ attrs ++ [GT] ++ replicate k LF ++ FENCE ++ post ->
        GT ∉ attrs -> 1 <= k -> k = 2)
  /\ (forall pre k post,
        content (adjustCodeBlocks d)
        = pre ++ FENCE ++ replicate k LF ++ CLOSE ++ post ->
        1 <= k -> k = 2).
Proof.
  split; [reflexivity|].
  split; [|split; [exact adjustClose_equations|]].
  { destruct adjustOpen_equations as (H1 & H2 & H3).
    exact (conj H1 (conj H2 (conj H3 open_site_first))). }
  rewrite adjustCodeBlocks_content. split.
  - intros pre attrs k post H. eapply stream_fixed_spacing; [|exact H].
    rewrite <- scan_open_stream, <- adjustOpen_scan. apply adjust_fixed_open.
  - intros pre k post H. eapply scan_close_fixed_spacing; [|exact H].
    rewrite <- adjustClose_scan. apply adjust_fixed_close.
Qed.

Lemma C9_adjustCodeBlocks_spacing_witness :
  (content (adjustCodeBlocks doc_blocks)
   = [] ++ OPEN ++ str " fix" ++ [GT] ++ replicate 2 LF ++ FENCE
        ++ lines ["yaml"; "a: 1"; "```"; ""; "</eslint-code-block>"]
   /\ (GT ∉ str " fix") /\ 1 <= 2 /\ 2 = 2)
  /\ (content (adjustCodeBlocks doc_blocks)
      = lines ["<eslint-code-block fix>"; ""; "```yaml"; "a: 1"] ++ FENCE
          ++ replicate 2 LF ++ CLOSE ++ [LF]
      /\ 1 <= 2 /\ 2 = 2)
  /\ adjustOpen (OPEN ++ str " fix" ++ GT :: replicate 3 LF ++ FENCE ++ lines ["yaml"])
     = OPEN ++ str " fix" ++ GT :: LF :: LF :: FENCE ++ adjustOpen (lines ["yaml"])
  /\ adjustClose (FENCE ++ replicate 1 LF ++ CLOSE ++ [LF])
     = FENCE ++ LF :: LF :: CLOSE ++ adjustClose [LF].
Proof.
  assert (H1 : content (adjustCodeBlocks doc_blocks)
               = [] ++ OPEN ++ str " fix" ++ [GT] ++ replicate 2 LF ++ FENCE
                 ++ lines ["yaml"; "a: 1"; "```"; ""; "</eslint-code-block>"])
    by (vm_compute; reflexivity).
  assert (H2 : content (adjustCodeBlocks doc_blocks)
               = lines ["<eslint-code-block fix>"; ""; "```yaml"; "a: 1"] ++ FENCE
                 ++ replicate 2 LF ++ CLOSE ++ [LF])
    by (vm_compute; reflexivity).
  assert (H3 : GT ∉ str " fix") by plain.
  assert (H4 : 1 <= 2) by lia.
  destruct (C9_adjustCodeBlocks_spacing doc_blocks)
    as (_ & (_ & Ho & _ & _) & (_ & Hc & _) & Hno & Hnc).
  refine (conj (conj H1 (conj H3 (conj H4 _))) (conj (conj H2 (conj H4 _)) (conj _ _))).
  - exact (Hno _ _ _ _ H1 H3 H4).
  - exact (Hnc _ _ _ H2 H4).
  - apply Ho; [lia|]. intros a b j r' HX Hj.
    exfalso. assert (GT ∈ str " fix"); [|by apply H3].
    rewrite HX. apply elem_of_app. right. by left.
  - apply Hc. lia.
Defined.

(** C9 as the specification states it fails where something else than a
    line feed follows the tag: with a space after the [>] the tag is left with
    the fence on the very next line, no blank line between them. *)
Lemma C9_counterexample :
  content doc_trailing_space
  = OPEN ++ str " fix" ++ [GT] ++ [SPACE; LF] ++ FENCE
    ++ lines ["yaml"; "a: 1"; "```"; "</eslint-code-block>"]
  /\ content (adjustCodeBlocks doc_trailing_space)
     = lines ["<eslint-code-block fix> "; "```yaml"; "a: 1"; "```"; "";
              "</eslint-code-block>"].
Proof. split; vm_compute; reflexivity. Qed.

(** ** The front matter: [updateFileIntro] on a document that has one *)

Lemma lineMatcher_eq i t caps c :
  lineMatcher (mkState i t caps) c
  = match line_rest t with
    | Some (n, r) =>
        c (mkState (S (i + n)) r (<[0 := Some (take (S (i + n) - i) t)]> caps))
    | None => None
    end.
Proof.
  unfold lineMatcher, m_group. rewrite m_seqs_cons. unfold dot at 1.
  rewrite m_star_char, greedy_try_max.
  2: { intros j ch r Hch. rewrite m_seqs_cons. unfold lf. rewrite m_char_eq.
       unfold cc_is. destruct (N.eqb_spec ch LF) as [->|]; [done|done]. }
  rewrite m_seqs_cons. unfold lf. rewrite m_char_eq. unfold line_rest.
  destruct (drop (span cc_dot t) t) as [|ch r]; [done|].
  destruct (cc_is LF ch); [|done]. by rewrite m_seqs_nil.
Qed.

Lemma span_dot_line L r :
  Forall (fun c => cc_dot c = true) L -> span cc_dot (L ++ LF :: r) = length L.
Proof. induction 1 as [|c L Hc _ IH]; [done|]. cbn [app span length]. by rewrite Hc, IH. Qed.

Lemma line_rest_line L r :
  Forall (fun c => cc_dot c = true) L -> line_rest (L ++ LF :: r) = Some (length L, r).
Proof.
  intros H. unfold line_rest. rewrite span_dot_line by done.
  by rewrite drop_app_length.
Qed.

Lemma line_rest_Some t n r : line_rest t = Some (n, r) -> t = take n t ++ LF :: r.
Proof.
  unfold line_rest. destruct (drop (span cc_dot t) t) as [|ch r'] eqn:E; [done|].
  unfold cc_is. destruct (N.eqb_spec ch LF) as [->|]; [|done].
  intros [= <- <-]. by rewrite <- E, take_drop.
Qed.

Lemma closing_eq i t caps :
  closing (mkState i t caps)
  = match lit_rest DASHES t with
    | Some r =>
        Some (mkState (i + length DASHES + span (cc_is LF) r)
                      (drop (span (cc_is LF) r) r) caps)
    | None => None
    end.
Proof.
  unfold closing. rewrite m_seqs_cons, m_lit_eq. fold DASHES.
  destruct (lit_rest DASHES t) as [r|]; [|done].
  rewrite m_seqs_cons. unfold lf. rewrite m_star_char.
  exact (greedy_try_Some _ _ _ _).
Qed.

Lemma occurs_suffix u pre t : occurs u t -> occurs u (pre ++ t).
Proof.
  intros (a & b & ->). exists (pre ++ a), b. by rewrite <- app_assoc.
Qed.

(** Where no [---] line follows, the lines cannot be closed. *)
Lemma lines_no_closing fuel :
  forall i t caps,
    ~ occurs (LF :: DASHES) (LF :: t) ->
    RepeatMatcher fuel lineMatcher 0 true [0] (mkState i t caps) closing = None.
Proof.
  induction fuel as [|fuel IH]; intros i t caps Hno; [done|].
  rewrite RepeatMatcher_S. cbv zeta.
  change (Nat.eqb 0 0) with true. cbn [negb andb pred].
  unfold clear_captures. cbn [endIndex remaining captures foldr].
  rewrite lineMatcher_eq.
  assert (Hc : closing (mkState i t caps) = None).
  { rewrite closing_eq. destruct (lit_rest DASHES t) as [r|] eqn:E; [|done].
    apply lit_rest_Some in E as ->. destruct Hno. by exists [], r. }
  destruct (line_rest t) as [[n r]|] eqn:E; [|by rewrite Hc].
  cbn [endIndex]. replace (Nat.eqb (S (i + n)) i) with false
    by (symmetry; apply Nat.eqb_neq; lia).
  rewrite IH; [by rewrite Hc|].
  intros Ho. apply Hno. apply line_rest_Some in E. rewrite E.
  apply (occurs_suffix _ (LF :: take n t)) in Ho. exact Ho.
Qed.

(** The lines of a block that is closed by the last [---] line of the text
    are matched up to that line, and the line feeds after it are taken. *)
Lemma lines_closing Ls :
  forall fuel min i caps tail,
    Forall (Forall (fun c => cc_dot c = true)) Ls ->
    ~ occurs (LF :: DASHES) (DASHES ++ tail) ->
    min <= length Ls -> min <= 1 ->
    length (block Ls ++ DASHES ++ tail) < fuel ->
    exists e caps',
      i < e /\ RepeatMatcher fuel lineMatcher min true [0]
                 (mkState i (block Ls ++ DASHES ++ tail) caps) closing
               = Some (mkState e (drop (span (cc_is LF) tail) tail) caps').
Proof.
  induction Ls as [|L Ls IH]; intros fuel min i caps tail HLs Hno Hmin Hmin1 Hfuel;
    (destruct fuel as [|fuel]; [lia|]); rewrite RepeatMatcher_S; cbv zeta;
    unfold clear_captures; cbn [endIndex remaining captures foldr];
    rewrite lineMatcher_eq.
  - cbn [length] in Hmin. replace min with 0 by lia.
    change (Nat.eqb 0 0) with true. cbn [negb andb pred block map concat app].
    assert (Hm : match line_rest (DASHES ++ tail) with
                 | Some (n, r) =>
                     if Nat.eqb (S (i + n)) i then None
                     else RepeatMatcher fuel lineMatcher 0 true [0]
                            (mkState (S (i + n)) r
                               (<[0 := Some (take (S (i + n) - i) (DASHES ++ tail))]>
                                  (<[0 := None]> caps))) closing
                 | None => None
                 end = None).
    { destruct (line_rest (DASHES ++ tail)) as [[n r]|] eqn:E; [|done].
      destruct (Nat.eqb _ _); [done|]. apply lines_no_closing.
      intros Ho. apply Hno. apply line_rest_Some in E. rewrite E.
      by apply occurs_suffix. }
    cbn [endIndex]. rewrite Hm, closing_eq, lit_rest_app.
    eexists _, _. split; [|reflexivity]. simpl. lia.
  - apply Forall_cons in HLs as [HL HLs].
    change (block (L :: Ls)) with ((L ++ [LF]) ++ block Ls).
    rewrite <- !app_assoc. cbn [app].
    rewrite line_rest_line by done. cbn [endIndex].
    replace (Nat.eqb (S (i + length L)) i) with false
      by (symmetry; apply Nat.eqb_neq; lia).
    rewrite andb_false_r.
    destruct (IH fuel (pred min) (S (i + length L))
                (<[0 := Some (take (S (i + length L) - i)
                                 (L ++ LF :: block Ls ++ DASHES ++ tail))]>
                   (<[0 := None]> caps)) tail)
      as (e & caps' & He & ->); try done.
    + cbn [length] in Hmin. lia.
    + lia.
    + change (block (L :: Ls)) with ((L ++ [LF]) ++ block Ls) in Hfuel.
      rewrite !length_app in Hfuel. rewrite !length_app. cbn [length] in Hfuel. lia.
    + exists e, caps'. split; [lia|]. by destruct (negb _).
Qed.

Lemma occurs_skip_prefix u P X :
  LF ∉ P -> occurs (LF :: u) (P ++ X) -> occurs (LF :: u) X.
Proof.
  induction P as [|a P IH]; intros HP; [done|].
  apply not_elem_of_cons in HP as [Ha HP].
  intros (pre & post & H). destruct pre as [|b pre].
  - cbn [app] in H. apply cons_eq_inv in H as [-> _]. done.
  - cbn [app] in H. apply cons_eq_inv in H as [_ H].
    apply IH; [done|]. by exists pre, post.
Qed.

Lemma fileIntroPattern_match Ls tail :
  Ls <> [] ->
  Forall (Forall (fun c => cc_dot c = true)) Ls ->
  ~ occurs (LF :: DASHES) tail ->
  exists e caps',
    0 < e /\ matcher fileIntroPattern
               (mkState 0 (DASHES ++ [LF] ++ block Ls ++ DASHES ++ tail) [None]) Some
             = Some (mkState e (drop (span (cc_is LF) tail) tail) caps').
Proof.
  intros HLs Hdot Hno. unfold fileIntroPattern. cbn [matcher].
  rewrite m_seqs_cons. unfold m_bol. cbn [endIndex].
  change (Nat.eqb 0 0) with true. cbv iota.
  rewrite m_seqs_cons, m_lit_eq. fold DASHES. rewrite lit_rest_app.
  rewrite m_seqs_cons. unfold lf at 1. rewrite m_char_eq. cbn [app].
  change (cc_is LF LF) with true. cbv iota.
  rewrite m_seqs_cons. unfold m_repeat. cbn [remaining]. fold lineMatcher.
  change (fun y : MatchState => m_seqs [m_lit DASHES; m_star lf] y Some) with closing.
  destruct (lines_closing Ls (S (S (length (block Ls ++ DASHES ++ tail)))) 1
              (S (0 + length DASHES)) [None] tail) as (e & caps' & He & ->);
    try done.
  - intros Ho. apply Hno. apply (occurs_skip_prefix _ DASHES); [plain|done].
  - destruct Ls; [done|]. cbn [length]. lia.
  - lia.
  - exists e, caps'. split; [lia|done].
Qed.

(** The pattern is anchored: it matches at the start of the text only. *)
Lemma exec_from_bol s : forall i, 0 < i -> exec_from fileIntroPattern i s = None.
Proof.
  induction s as [|ch s IH]; intros i Hi; cbn [exec_from];
    unfold fileIntroPattern at 1; cbn [matcher]; rewrite m_seqs_cons;
    unfold m_bol; cbn [endIndex];
    replace (Nat.eqb i 0) with false by (symmetry; apply Nat.eqb_neq; lia);
    [done|]. apply IH. lia.
Qed.

Lemma replace_all_fileIntro repl s e r caps' :
  0 < e ->
  matcher fileIntroPattern (mkState 0 s [None]) Some = Some (mkState e r caps') ->
  test fileIntroPattern s = true
  /\ replace_all fileIntroPattern repl s = repl (take e s) 0 caps' ++ r.
Proof.
  intros He Hm.
  assert (Hx : exec_from fileIntroPattern 0 s = Some (0, mkState e r caps')).
  { destruct s; cbn [exec_from]; change (replicate (nCaptures fileIntroPattern) None)
      with [@None text]; by rewrite Hm. }
  split; [unfold test; by rewrite Hx|].
  unfold replace_all. cbn [replace_loop]. rewrite Hx.
  cbn [endIndex remaining captures]. rewrite !Nat.sub_0_r, take_0, drop_0. cbn [app].
  replace (Nat.eqb e 0) with false by (symmetry; apply Nat.eqb_neq; lia).
  f_equal. destruct (length s); cbn [replace_loop]; [done|].
  by rewrite exec_from_bol.
Qed.

(** C7, amended: on a document that begins with a front-matter block (an
    opening [---] line, one line or more, a closing [---]) after which no
    further [---] line stands, the front-matter rewrite puts the generated
    block (it holds no [$]) in the place of the block and of every line feed
    that follows its closing [---]: what stands after these line feeds is kept
    as it is, after the single line feed that ends the generated block. *)
Theorem C7_front_matter_frame (d : DocFile) (Ls : list text) (j : nat) (rest : text) :
  Ls <> [] ->
  Forall (Forall (fun c => cc_dot c = true)) Ls ->
  content d = DASHES ++ [LF] ++ block Ls ++ DASHES ++ replicate j LF ++ rest ->
  head rest <> Some LF ->
  ~ occurs (LF :: DASHES) (replicate j LF ++ rest) ->
  DOLLAR ∉ computed (rule d) ->
  content (updateFileIntro d) = computed (rule d) ++ rest.
Proof.
  intros HLs Hdot Hc Hrest Hno Hplain.
  destruct (fileIntroPattern_match Ls (replicate j LF ++ rest) HLs Hdot Hno)
    as (e & caps' & He & Hm).
  rewrite span_replicate_LF in Hm by done.
  rewrite drop_app_length' in Hm by (symmetry; apply length_replicate).
  rewrite <- Hc in Hm.
  destruct (replace_all_fileIntro (by_template (content d) (computed (rule d)))
              _ _ _ _ He Hm) as [Ht Hr].
  unfold updateFileIntro, with_content. cbn [content]. rewrite Ht, Hr.
  unfold by_template. by rewrite GetSubstitution_plain.
Qed.

Lemma C7_front_matter_frame_witness :
  content (updateFileIntro doc_front_matter)
  = computed rule_fixable_presets ++ lines ["# yml/quotes"].
Proof.
  apply (C7_front_matter_frame doc_front_matter
           [str "pageClass: old"; str "title: old"] 2 (lines ["# yml/quotes"])).
  - discriminate.
  - repeat constructor.
  - reflexivity.
  - discriminate.
  - intros H%occursb_spec. vm_compute in H. discriminate H.
  - plain.
Defined.

(** C7 as the specification states it fails where a blank line follows the
    block: what stands after the closing [---] is a line feed, a blank line
    and the title, and the rewritten document does not end with them. *)
Lemma C7_counterexample :
  content doc_front_matter
  = DASHES ++ [LF] ++ block [str "pageClass: old"; str "title: old"] ++ DASHES
    ++ ([LF; LF] ++ lines ["# yml/quotes"])
  /\ ~ exists X,
         content (updateFileIntro doc_front_matter)
         = X ++ ([LF; LF] ++ lines ["# yml/quotes"]).
Proof.
  split; [reflexivity|].
  assert (Hn : ~ suffix ([LF; LF] ++ lines ["# yml/quotes"])
                        (content (updateFileIntro doc_front_matter))).
  { apply (proj1 (bool_decide_eq_false _)). vm_compute. reflexivity. }
  exact Hn.
Qed.

(** Where a further [---] line stands in the document, the block replaced
    runs to the last of them. *)
Example updateFileIntro_last_dashes :
  content (updateFileIntro
             (mkDocFile rule_fixable_presets (str "docs/rules/quotes.md")
                (lines ["---"; "title: old"; "---"; "# yml/quotes"; "---"; "more"])))
  = computed rule_fixable_presets ++ lines ["more"].
Proof. vm_compute. reflexivity. Qed.

(** ** Writing: [write] *)

Lemma newline_step_shrinks nl : shrinking (newline_step nl).
Proof.
  intros [|c t] o r; simpl; [done|].
  destruct (c =? LF)%N; [intros [= _ <-]; lia|].
  destruct (c =? CR)%N; [|done]. destruct t as [|c' t]; [done|].
  destruct (c' =? LF)%N; [|done]. intros [= _ <-]. simpl. lia.
Qed.

Lemma newline_plain isWin : DOLLAR ∉ newline isWin.
Proof. destruct isWin; plain. Qed.

Lemma newlinePattern_scan isWin s :
  replace_all_str newlinePattern (newline isWin) s
  = scan (newline_step (newline isWin)) s.
Proof.
  unfold replace_all_str.
  apply replace_all_scan; [apply newline_step_shrinks|].
  intros i t. unfold newlinePattern. cbn [matcher nCaptures replicate].
  rewrite m_seqs_cons. unfold m_opt. rewrite m_char_eq.
  unfold by_template.
  destruct t as [|c r]; cbn [newline_step].
  - rewrite m_seqs_cons. unfold lf. by rewrite m_char_eq.
  - unfold cc_is at 1. destruct (N.eqb_spec c LF) as [->|Hlf].
    + change (LF =? CR)%N with false. cbv iota.
      rewrite m_seqs_cons. unfold lf. rewrite m_char_eq.
      change (cc_is LF LF) with true. cbv iota. rewrite m_seqs_nil.
      exists 1. cbn [endIndex remaining captures take drop].
      rewrite GetSubstitution_plain by apply newline_plain.
      repeat split; lia.
    + destruct (N.eqb_spec c CR) as [->|Hcr].
      * rewrite !m_seqs_cons. unfold lf. rewrite !m_char_eq.
        change (cc_is LF CR) with false. cbv iota.
        destruct r as [|c' r']; [done|]. unfold cc_is.
        destruct (c' =? LF)%N; [|done]. rewrite m_seqs_nil.
        exists 2. cbn [endIndex remaining captures take drop].
        rewrite GetSubstitution_plain by apply newline_plain.
        repeat split; lia.
      * rewrite m_seqs_cons. unfold lf. rewrite m_char_eq. unfold cc_is.
        by destruct (N.eqb_spec c LF).
Qed.

(** What [write] stores, and where. *)
Lemma write_lookup (isWin : bool) (d : DocFile) (fs : FileSystem) :
  write isWin d fs !! filePath d
  = Some (scan (newline_step (newline isWin)) (content d)).
Proof.
  unfold write. cbv zeta. rewrite lookup_insert_eq. f_equal.
  exact (newlinePattern_scan isWin (content d)).
Qed.

Lemma scan_newline_lf_after_cr s : lf_after_cr (scan (newline_step [CR; LF]) s).
Proof.
  induction s as [s IH] using (induction_ltof1 _ (@length char)).
  unfold ltof in IH. intros pre post H.
  destruct (newline_step [CR; LF] s) as [[o r]|] eqn:E.
  - rewrite (scan_match _ (newline_step_shrinks _) _ _ _ E) in H.
    pose proof (newline_step_shrinks _ _ _ _ E) as Hlen.
    assert (o = [CR; LF]) as ->.
    { destruct s as [|c s]; [done|]. simpl in E.
      destruct (c =? LF)%N; [by injection E|].
      destruct (c =? CR)%N; [|done]. destruct s as [|c' s]; [done|].
      destruct (c' =? LF)%N; [by injection E|done]. }
    destruct pre as [|a [|b pre]]; cbn [app] in H.
    + discriminate H.
    + apply cons_eq_inv in H as [Ha _]. subst a. by exists [].
    + apply cons_eq_inv in H as [Ha H]. apply cons_eq_inv in H as [Hb H].
      subst a b. destruct (IH r Hlen _ _ H) as [p ->].
      by exists (CR :: LF :: p).
  - destruct s as [|c s]; [rewrite scan_nil in H by apply newline_step_shrinks;
                           by destruct pre|].
    rewrite (scan_skip _ _ _ E) in H.
    destruct pre as [|a pre]; cbn [app] in H.
    + apply cons_eq_inv in H as [Hc _]. subst c. simpl in E. discriminate E.
    + apply cons_eq_inv in H as [Hc H]. subst a.
      destruct (IH s (Nat.lt_succ_diag_r _) _ _ H) as [p ->].
      by exists (c :: p).
Qed.

Lemma scan_newline_filter isWin s :
  List.filter not_CR (scan (newline_step (newline isWin)) s) = List.filter not_CR s.
Proof.
  induction s as [s IH] using (induction_ltof1 _ (@length char)).
  unfold ltof in IH.
  destruct (newline_step (newline isWin) s) as [[o r]|] eqn:E.
  - rewrite (scan_match _ (newline_step_shrinks _) _ _ _ E).
    pose proof (newline_step_shrinks _ _ _ _ E) as Hlen.
    rewrite List.filter_app, (IH r Hlen).
    destruct s as [|c s]; [done|]. simpl in E.
    destruct (N.eqb_spec c LF) as [->|_].
    + injection E as <- <-. by destruct isWin.
    + destruct (N.eqb_spec c CR) as [->|_]; [|done].
      destruct s as [|c' s]; [done|].
      destruct (N.eqb_spec c' LF) as [->|_]; [|done].
      injection E as <- <-. by destruct isWin.
  - destruct s as [|c s]; [by rewrite scan_nil by apply newline_step_shrinks|].
    rewrite (scan_skip _ _ _ E). cbn [List.filter].
    by rewrite (IH s (Nat.lt_succ_diag_r _)).
Qed.

Lemma scan_newline_id s : CR ∉ s -> scan (newline_step [LF]) s = s.
Proof.
  induction s as [|c s IH]; intros H; [apply scan_nil, newline_step_shrinks|].
  apply not_elem_of_cons in H as [Hc Hs].
  destruct (N.eqb_spec c LF) as [->|Hlf].
  - rewrite (scan_match _ (newline_step_shrinks _) _ [LF] s) by done.
    cbn [app]. by rewrite IH.
  - rewrite scan_skip, IH; [done..|]. simpl.
    destruct (N.eqb_spec c LF); [done|]. by destruct (N.eqb_spec c CR).
Qed.

(** X15: On Windows every line feed of the written file stands after a carriage
    return. *)
Theorem write_windows_line_ends (d : DocFile) (fs : FileSystem) :
  exists t, write true d fs !! filePath d = Some t /\ lf_after_cr t.
Proof.
  eexists. split; [apply write_lookup|]. apply scan_newline_lf_after_cr.
Qed.

(** X16: On either platform the written file is the content up to carriage
    returns: nothing else is added, removed or moved. *)
Theorem write_changes_carriage_returns_only (isWin : bool) (d : DocFile) (fs : FileSystem) :
  exists t, write isWin d fs !! filePath d = Some t
            /\ List.filter not_CR t = List.filter not_CR (content d).
Proof.
  eexists. split; [apply write_lookup|]. apply scan_newline_filter.
Qed.

(** X17: Off Windows a content without carriage return is written as it is. *)
Theorem write_unix_plain (d : DocFile) (fs : FileSystem) :
  CR ∉ content d -> write false d fs !! filePath d = Some (content d).
Proof. intros H. rewrite write_lookup. f_equal. by apply scan_newline_id. Qed.

Lemma write_unix_plain_witness :
  write false doc_old_rule ∅ !! filePath doc_old_rule = Some (content doc_old_rule).
Proof. apply write_unix_plain. plain. Defined.

(** ** The run as a whole *)

Lemma transform_filePath d : filePath (transform d) = filePath d.
Proof. reflexivity. Qed.

Lemma transform_rule d : rule (transform d) = rule_after_updateHeader (rule d).
Proof. reflexivity. Qed.

Section MainFacts.
Variables (ROOT : text) (path_join : text -> text -> text) (isWin : bool).

Local Abbreviation docPath0 := (docPath ROOT path_join).
Local Abbreviation processRule0 := (processRule ROOT path_join isWin).
Local Abbreviation main0 := (main ROOT path_join isWin).

Lemma processRule_Some (fs fs' : FileSystem) (r r' : RuleModule) :
  processRule0 fs r = Some (r', fs') ->
  exists s : text,
    fs !! docPath0 r = Some s
    /\ r' = rule_after_updateHeader r
    /\ fs' = <[docPath0 r := written isWin (transform (mkDocFile r (docPath0 r) s))]> fs.
Proof.
  unfold processRule, read.
  destruct (fs !! docPath0 r) as [s|] eqn:E; [|done].
  intros [= <- <-]. by exists s.
Qed.


Lemma processRule_dom (fs fs' : FileSystem) (r r' : RuleModule) :
  processRule0 fs r = Some (r', fs') -> dom fs' = dom fs.
Proof.
  intros E. apply processRule_Some in E as (s & Hs & _ & ->).
  rewrite dom_insert_L. apply elem_of_dom_2 in Hs.
  apply subseteq_union_1_L. by apply singleton_subseteq_l.
Qed.

Lemma main_cons (r : RuleModule) (rest : list RuleModule) (fs : FileSystem) :
  main0 (r :: rest) fs
  = match processRule0 fs r with
    | None => (r :: rest, fs, Thrown r)
    | Some (r', fs') =>
        ((r' :: (main0 rest fs').1.1), (main0 rest fs').1.2, (main0 rest fs').2)
    end.
Proof.
  cbn [main]. destruct (processRule0 fs r) as [[r' fs']|]; [|done].
  by destruct (main0 rest fs') as [[? ?] ?].
Qed.

(** X18: The run creates no file and deletes none, however it ends. *)
Theorem main_keeps_files (rules : list RuleModule) (fs : FileSystem) :
  dom (main0 rules fs).1.2 = dom fs.
Proof.
  revert fs. induction rules as [|r rest IH]; intros fs; [done|].
  rewrite main_cons. destruct (processRule0 fs r) as [[r' fs']|] eqn:E; [|done].
  cbn [fst snd]. rewrite IH. by apply processRule_dom in E.
Qed.


Lemma main_lookup_other (rules : list RuleModule) (fs : FileSystem) (p : text) :
  (forall r, r ∈ rules -> docPath0 r <> p) ->
  (main0 rules fs).1.2 !! p = fs !! p.
Proof.
  revert fs. induction rules as [|r rest IH]; intros fs Hp; [done|].
  rewrite main_cons. destruct (processRule0 fs r) as [[r' fs']|] eqn:E; [|done].
  cbn [fst snd]. rewrite IH.
  - apply processRule_Some in E as (s & _ & _ & ->).
    apply lookup_insert_ne. apply Hp. by left.
  - intros r0 Hr0. apply Hp. by right.
Qed.

(** X20: A file that is the documentation file of no rule is left as it is. *)
Theorem main_other_files (rules : list RuleModule) (fs : FileSystem) (p : text) :
  (forall r, r ∈ rules -> docPath0 r <> p) ->
  (main0 rules fs).1.2 !! p = fs !! p.
Proof. apply main_lookup_other. Qed.

(** X21: After a run that completes, the file of a rule that shares its file with
    no other rule holds the document read at the start, after the five
    rewrites and the line-end conversion. *)
Theorem main_rewrites_file (before after : list RuleModule) (r : RuleModule)
    (fs : FileSystem) (s : text) :
  (main0 (before ++ r :: after) fs).2 = Completed ->
  fs !! docPath0 r = Some s ->
  (forall r0, r0 ∈ before ++ after -> docPath0 r0 <> docPath0 r) ->
  (main0 (before ++ r :: after) fs).1.2 !! docPath0 r
  = Some (written isWin (transform (mkDocFile r (docPath0 r) s))).
Proof.
  revert fs. induction before as [|r0 before IH]; intros fs Hc Hs Hne.
  - cbn [app] in *. rewrite main_cons in *.
    destruct (processRule0 fs r) as [[r' fs']|] eqn:E; [|done].
    cbn [fst snd] in *. rewrite main_lookup_other by done.
    apply processRule_Some in E as (s' & Hs' & _ & ->).
    rewrite lookup_insert_eq. congruence.
  - cbn [app] in *. rewrite main_cons in *.
    destruct (processRule0 fs r0) as [[r0' fs']|] eqn:E; [|done].
    cbn [fst snd] in *. apply IH; [done| |].
    + apply processRule_Some in E as (s' & _ & _ & ->).
      rewrite lookup_insert_ne; [done|]. apply Hne. by left.
    + intros r1 Hr1. apply Hne. by right.
Qed.

(** X22: The registry after a run that completes: for every rule that is not
    deprecated the category list is sorted, nothing else is changed. *)
Theorem main_registry (rules : list RuleModule) (fs : FileSystem) :
  (main0 rules fs).2 = Completed ->
  (main0 rules fs).1.1 = map rule_after_updateHeader rules.
Proof.
  revert fs. induction rules as [|r rest IH]; intros fs; [done|].
  rewrite main_cons. destruct (processRule0 fs r) as [[r' fs']|] eqn:E; [|done].
  cbn [fst snd map]. intros H. rewrite IH by done.
  apply processRule_Some in E as (s & _ & -> & _). done.
Qed.
End MainFacts.

Lemma main_other_files_witness :
  (main (str "docs/rules") posix_join false
        [rule_unsorted_categories; rule_replaced_by_ABC] fs_two_rules).1.2
    !! str "docs/README.md"
  = fs_two_rules !! str "docs/README.md".
Proof.
  apply (main_other_files (str "docs/rules") posix_join false
           [rule_unsorted_categories; rule_replaced_by_ABC] fs_two_rules
           (str "docs/README.md")).
  intros r Hr.
  apply elem_of_cons in Hr as [->|Hr]; [by vm_compute|].
  apply elem_of_cons in Hr as [->|Hr]; [by vm_compute|].
  by apply elem_of_nil in Hr.
Defined.

Lemma main_rewrites_file_witness :
  (main (str "docs/rules") posix_join false
        ([rule_unsorted_categories] ++ rule_replaced_by_ABC :: []) fs_two_rules).1.2
    !! docPath (str "docs/rules") posix_join rule_replaced_by_ABC
  = Some (written false
            (transform (mkDocFile rule_replaced_by_ABC
                          (docPath (str "docs/rules") posix_join rule_replaced_by_ABC)
                          (content doc_old_rule)))).
Proof.
  apply (main_rewrites_file (str "docs/rules") posix_join false
           [rule_unsorted_categories] [] rule_replaced_by_ABC fs_two_rules
           (content doc_old_rule)).
  - vm_compute. reflexivity.
  - vm_compute. reflexivity.
  - intros r Hr.
    apply elem_of_cons in Hr as [->|Hr]; [by vm_compute|].
    by apply elem_of_nil in Hr.
Defined.

Lemma main_registry_witness :
  (main (str "docs/rules") posix_join false
        [rule_unsorted_categories; rule_replaced_by_ABC] fs_two_rules).1.1
  = map rule_after_updateHeader [rule_unsorted_categories; rule_replaced_by_ABC].
Proof.
  apply (main_registry (str "docs/rules") posix_join false
           [rule_unsorted_categories; rule_replaced_by_ABC] fs_two_rules).
  vm_compute. reflexivity.
Defined.

(** ** The footer: [updateFooter] *)

Lemma span_any t : span cc_any t = length t.
Proof. induction t as [|c t IH]; [done|]. simpl. by rewrite IH. Qed.

Lemma footerPattern_match i t :
  matcher footerPattern (mkState i t []) Some
  = if heads_footer t then Some (mkState (i + length t) [] []) else None.
Proof.
  unfold footerPattern, heads_footer. cbn [matcher].
  rewrite m_seqs_cons, m_lit_eq. fold IMPL.
  destruct (lit_rest IMPL t) as [r|] eqn:E; [|done].
  apply lit_rest_Some in E as ->.
  rewrite m_seqs_cons, m_plus_char. destruct r as [|c r]; [done|].
  change (cc_any c) with true. cbv iota.
  rewrite greedy_try_max.
  - rewrite span_any, drop_all, m_seqs_cons. unfold m_eol. cbn [remaining].
    rewrite m_seqs_nil. do 2 f_equal. rewrite !length_app. simpl. lia.
  - intros j ch r' _. rewrite m_seqs_cons. unfold m_eol. by cbn [remaining].
Qed.

(** The heading is not a prefix of a text that starts with a proper,
    non-empty part of the heading followed by the heading. *)
Lemma IMPL_no_border b X r :
  b <> [] -> b ++ IMPL ++ X = IMPL ++ r -> exists b', b = IMPL ++ b'.
Proof.
  intros Hb H. destruct b as [|b0 b]; [done|]. clear Hb.
  let c := eval vm_compute in IMPL in change IMPL with c in *.
  cbn [app] in H.
  do 17 (apply cons_eq_inv in H as [? H]; subst;
         try (destruct b as [|? b]; [cbn [app] in H; discriminate H|];
              cbn [app] in H)).
  by exists b.
Qed.

Lemma exec_from_eq re i s :
  exec_from re i s
  = match matcher re (mkState i s (replicate (nCaptures re) None)) Some with
    | Some y => Some (i, y)
    | None =>
        match s with
        | [] => None
        | _ :: s' => exec_from re (S i) s'
        end
    end.
Proof. by destruct s. Qed.

Lemma heads_footer_true t :
  heads_footer t = true <-> exists c r, t = IMPL ++ c :: r.
Proof.
  unfold heads_footer. split.
  - destruct (lit_rest IMPL t) as [[|c r]|] eqn:E; try done.
    apply lit_rest_Some in E. eauto.
  - intros (c & r & ->). by rewrite lit_rest_app.
Qed.

Lemma occurs_length u t : occurs u t -> length u <= length t.
Proof. intros (a & b & ->). rewrite !length_app. lia. Qed.

Lemma IMPL_not_in_nil : ~ occurs IMPL [].
Proof. intros H%occurs_length. simpl in H. lia. Qed.

Lemma occurs_cons_inv u a t :
  occurs u (a :: t) -> (exists r, a :: t = u ++ r) \/ occurs u t.
Proof.
  intros ([|b p] & q & H).
  - left. by exists q.
  - right. cbn [app] in H. apply cons_eq_inv in H as [_ ->]. by exists p, q.
Qed.

(** The first match of the footer pattern starts at the first heading that
    is followed by a character, and runs to the end of the text. *)
Lemma exec_footer_first pre X :
  forall i,
    ~ occurs IMPL pre -> X <> [] ->
    exec_from footerPattern i (pre ++ IMPL ++ X)
    = Some (i + length pre,
            mkState (i + length pre + length (IMPL ++ X)) [] []).
Proof.
  induction pre as [|a pre IH]; intros i Hno HX; rewrite exec_from_eq;
    cbn [nCaptures footerPattern replicate]; rewrite footerPattern_match.
  - cbn [app length]. destruct X as [|c r]; [done|].
    rewrite (proj2 (heads_footer_true _)) by eauto.
    by rewrite !Nat.add_0_r.
  - destruct (heads_footer ((a :: pre) ++ IMPL ++ X)) eqn:E.
    + apply heads_footer_true in E as (c & r & E).
      apply IMPL_no_border in E as [b' Hb]; [|done].
      destruct Hno. exists [], b'. by rewrite Hb.
    + cbn [app length]. rewrite IH; [|intros Ho; apply Hno;
                                      by apply (occurs_suffix _ [a]) in Ho|done].
      do 2 f_equal; [lia|f_equal; lia].
Qed.

Lemma exec_footer_none s :
  (forall pre c rest, s <> pre ++ IMPL ++ c :: rest) ->
  forall i, exec_from footerPattern i s = None.
Proof.
  induction s as [|a s IH]; intros Hno i; rewrite exec_from_eq;
    cbn [nCaptures footerPattern replicate]; rewrite footerPattern_match.
  - done.
  - destruct (heads_footer (a :: s)) eqn:E.
    + apply heads_footer_true in E as (c & r & E). by destruct (Hno [] c r).
    + apply IH. intros pre c rest ->. by destruct (Hno (a :: pre) c rest).
Qed.

Lemma exec_footer_none_inv s :
  forall i, exec_from footerPattern i s = None ->
  forall pre c rest, s <> pre ++ IMPL ++ c :: rest.
Proof.
  induction s as [|a s IH]; intros i; rewrite exec_from_eq;
    cbn [nCaptures footerPattern replicate]; rewrite footerPattern_match.
  - intros _ [|b pre] c rest; discriminate.
  - destruct (heads_footer (a :: s)) eqn:E; [done|].
    intros H [|b pre] c rest Hs.
    + assert (heads_footer (a :: s) = true); [|congruence].
      apply heads_footer_true. eauto.
    + cbn [app] in Hs. apply cons_eq_inv in Hs as [_ Hs].
      by apply (IH _ H pre c rest).
Qed.

Lemma IMPL_first s :
  occurs IMPL s -> exists pre X, s = pre ++ IMPL ++ X /\ ~ occurs IMPL pre.
Proof.
  induction s as [|a s IH]; intros Ho; [by apply IMPL_not_in_nil in Ho|].
  destruct (lit_rest IMPL (a :: s)) as [X|] eqn:E.
  - apply lit_rest_Some in E. exists [], X. split; [done|apply IMPL_not_in_nil].
  - apply occurs_cons_inv in Ho as [[r Hr]|Ho].
    + apply lit_rest_Some in Hr. congruence.
    + destruct (IH Ho) as (pre & X & -> & Hno). exists (a :: pre), X.
      split; [done|]. intros [[r Hr]|Ho']%occurs_cons_inv; [|done].
      assert (lit_rest IMPL (a :: pre ++ IMPL ++ X) = Some (r ++ IMPL ++ X));
        [|congruence].
      apply lit_rest_Some. change (a :: pre ++ IMPL ++ X) with ((a :: pre) ++ IMPL ++ X).
      rewrite Hr. by rewrite <- app_assoc.
Qed.

Lemma footer_IMPL r : footer r = IMPL ++ LF :: drop (S (length IMPL)) (footer r).
Proof.
  unfold footer, lines. cbn [map concat]. rewrite <- !app_assoc. reflexivity.
Qed.

Lemma footer_plain r : DOLLAR ∉ ruleName (docs (meta r)) -> DOLLAR ∉ footer r.
Proof. intros H. unfold footer, lines. cbn [map concat]. destruct (extensionRule _); plain. Qed.

Lemma updateFooter_first d pre X :
  content d = pre ++ IMPL ++ X -> X <> [] -> ~ occurs IMPL pre ->
  DOLLAR ∉ ruleName (docs (meta (rule d))) ->
  content (updateFooter d) = pre ++ footer (rule d).
Proof.
  intros Hc HX Hno Hp. unfold updateFooter, with_content. cbn [content].
  unfold test, replace_first. rewrite Hc, exec_footer_first by done.
  cbn [endIndex remaining captures]. rewrite Nat.add_0_l.
  rewrite take_app_length, app_nil_r. f_equal.
  unfold by_template. apply GetSubstitution_plain. by apply footer_plain.
Qed.

Lemma updateFooter_none d :
  (forall pre c rest, content d <> pre ++ IMPL ++ c :: rest) ->
  content (updateFooter d) = trim (content d) ++ [LF; LF] ++ footer (rule d).
Proof.
  intros Hno. unfold updateFooter, with_content. cbn [content].
  unfold test. by rewrite exec_footer_none.
Qed.

Lemma occurs_snoc_plain u t c :
  c ∉ u -> u <> [] -> occurs u (t ++ [c]) -> occurs u t.
Proof.
  intros Hc Hu (p & q & H). destruct q as [|x q _] using rev_ind.
  - destruct u as [|y u _] using rev_ind; [done|].
    rewrite app_nil_r, app_assoc in H. apply app_inj_tail in H as [_ ->].
    destruct Hc. apply elem_of_app. right. by left.
  - rewrite !app_assoc in H. apply app_inj_tail in H as [-> _].
    exists p, q. by rewrite <- app_assoc.
Qed.

Lemma trim_infix s : exists a b, s = a ++ trim s ++ b.
Proof.
  destruct (trimStart_suffix s) as [w Hw].
  destruct (trimStart_suffix (rev (trimStart s))) as [w2 Hw2].
  exists w, (rev w2). unfold trim.
  rewrite <- rev_app_distr, <- Hw2, rev_involutive. exact Hw.
Qed.

Lemma occurs_trim u s : occurs u (trim s) -> occurs u s.
Proof.
  intros (p & q & H). destruct (trim_infix s) as (a & b & Hs).
  exists (a ++ p), (q ++ b). rewrite Hs at 1. rewrite H.
  by rewrite <- !app_assoc.
Qed.

Lemma DocFile_eq d1 d2 :
  rule d1 = rule d2 -> filePath d1 = filePath d2 -> content d1 = content d2 ->
  d1 = d2.
Proof. destruct d1, d2. simpl. by intros -> -> ->. Qed.

Lemma updateFooter_content_idempotent d :
  DOLLAR ∉ ruleName (docs (meta (rule d))) ->
  ~ (exists pre, content d = pre ++ IMPL) ->
  content (updateFooter (updateFooter d)) = content (updateFooter d).
Proof.
  intros Hp Hend.
  destruct (occursb IMPL (content d)) eqn:Eo.
  - apply occursb_spec, IMPL_first in Eo as (pre & X & Hc & Hno).
    destruct X as [|c X].
    { destruct Hend. exists pre. by rewrite Hc, app_nil_r. }
    rewrite (updateFooter_first d pre (c :: X)) by done.
    apply (updateFooter_first (updateFooter d) pre
             (LF :: drop (S (length IMPL)) (footer (rule d)))); try done.
    rewrite (updateFooter_first d pre (c :: X)) by done.
    by rewrite <- footer_IMPL.
  - assert (Hno : ~ occurs IMPL (content d)).
    { intros H%occursb_spec. congruence. }
    assert (Hd : forall pre c rest, content d <> pre ++ IMPL ++ c :: rest).
    { intros pre c rest H. apply Hno. by exists pre, (c :: rest). }
    rewrite (updateFooter_none d Hd).
    rewrite (app_assoc (trim (content d)) [LF; LF]).
    apply (updateFooter_first (updateFooter d) (trim (content d) ++ [LF; LF])
             (LF :: drop (S (length IMPL)) (footer (rule d)))); try done.
    + rewrite (updateFooter_none d Hd), <- footer_IMPL. by rewrite <- app_assoc.
    + intros Ho. apply Hno, occurs_trim.
      change [LF; LF] with ([LF] ++ [LF]) in Ho. rewrite app_assoc in Ho.
      do 2 (apply occurs_snoc_plain in Ho; [|plain|done]). exact Ho.
Qed.

(** X5: In a document where the heading [## Implementation] is followed by a
    character, everything from the first such heading to the end of the
    document is replaced by the footer; what precedes the heading is kept.
    The rule name holds no [$]. *)
Theorem updateFooter_replaces_to_end (d : DocFile) (pre : text) (c : char) (rest : text) :
  content d = pre ++ IMPL ++ c :: rest ->
  ~ occurs IMPL pre ->
  DOLLAR ∉ ruleName (docs (meta (rule d))) ->
  content (updateFooter d) = pre ++ footer (rule d).
Proof. intros Hc Hno Hp. by apply (updateFooter_first d pre (c :: rest)). Qed.

(** X6: In a document where no heading [## Implementation] is followed by a
    character (there is none, or the document ends with it), the footer is
    appended to the trimmed document after a blank line: a heading at the very
    end of the document is kept, and the footer brings a second one. *)
Theorem updateFooter_appends (d : DocFile) :
  (forall pre c rest, content d <> pre ++ IMPL ++ c :: rest) ->
  content (updateFooter d) = trim (content d) ++ [LF; LF] ++ footer (rule d).
Proof. apply updateFooter_none. Qed.

(** X7: The footer rewrite is idempotent on every document that does not end
    with the heading [## Implementation] itself, for a rule name without
    [$]. *)
Theorem updateFooter_idempotent (d : DocFile) :
  DOLLAR ∉ ruleName (docs (meta (rule d))) ->
  ~ (exists pre, content d = pre ++ IMPL) ->
  updateFooter (updateFooter d) = updateFooter d.
Proof.
  intros Hp Hend. apply DocFile_eq; [done..|].
  by apply updateFooter_content_idempotent.
Qed.

Lemma updateFooter_replaces_to_end_witness :
  content (updateFooter doc_with_footer)
  = lines ["# yml/indent"; ""] ++ footer rule_unsorted_categories.
Proof.
  apply (updateFooter_replaces_to_end doc_with_footer (lines ["# yml/indent"; ""])
           LF (lines [""; "- [old link](old.ts)"])).
  - reflexivity.
  - intros H%occursb_spec. vm_compute in H. discriminate H.
  - plain.
Defined.

Lemma updateFooter_appends_witness :
  content (updateFooter doc_heading_at_end)
  = trim (content doc_heading_at_end) ++ [LF; LF] ++ footer rule_unsorted_categories.
Proof.
  apply (updateFooter_appends doc_heading_at_end).
  apply (exec_footer_none_inv _ 0). vm_compute. reflexivity.
Defined.

Lemma updateFooter_idempotent_witness :
  updateFooter (updateFooter doc_with_footer) = updateFooter doc_with_footer.
Proof.
  apply (updateFooter_idempotent doc_with_footer).
  - plain.
  - assert (Hn : ~ suffix IMPL (content doc_with_footer)).
    { apply (proj1 (bool_decide_eq_false _)). vm_compute. reflexivity. }
    exact Hn.
Defined.

(** ** What the code-block rewrites leave alone *)

Lemma scan_no_match step s :
  (forall a b, s = a ++ b -> step b = None) -> scan step s = s.
Proof.
  induction s as [|c s IH]; intros H.
  - unfold scan. simpl. by rewrite (H [] []).
  - rewrite scan_skip by apply (H [] (c :: s) eq_refl). f_equal.
    apply IH. intros a b ->. by apply (H (c :: a) b).
Qed.

Lemma scan_filter step (f : char -> bool) :
  shrinking step ->
  (forall t o r, step t = Some (o, r) ->
     exists m, t = m ++ r /\ List.filter f o = List.filter f m) ->
  forall s, List.filter f (scan step s) = List.filter f s.
Proof.
  intros Hsh Hstep s.
  induction s as [s IH] using (induction_ltof1 _ (@length char)).
  unfold ltof in IH.
  destruct (step s) as [[o r]|] eqn:E.
  - rewrite (scan_match _ Hsh _ _ _ E), List.filter_app, (IH r (Hsh _ _ _ E)).
    destruct (Hstep _ _ _ E) as (m & -> & ->). by rewrite List.filter_app.
  - destruct s as [|c s]; [by rewrite scan_nil|].
    rewrite (scan_skip _ _ _ E). cbn [List.filter].
    by rewrite (IH s (Nat.lt_succ_diag_r _)).
Qed.

Lemma filter_not_LF_run k : List.filter not_LF (replicate k LF) = [].
Proof. induction k as [|k IH]; [done|]. simpl. exact IH. Qed.

Lemma updateCodeBlocks_untouched_content d :
  ~ occurs OPEN (content d) -> content (updateCodeBlocks d) = content d.
Proof.
  intros Hno. rewrite updateCodeBlocks_scan. apply scan_no_match.
  intros a b Hs. destruct (tag_step _ b) as [[o r]|] eqn:E; [|done].
  apply tag_step_Some in E as (X & -> & _). destruct Hno.
  exists a, (X ++ GT :: r). by rewrite Hs.
Qed.

Lemma adjust_untouched s : ~ occurs FENCE s -> adjustClose (adjustOpen s) = s.
Proof.
  intros Hno.
  assert (Ho : adjustOpen s = s).
  { rewrite adjustOpen_scan. apply scan_no_match.
    intros a b Hs. destruct (open_step b) as [[o r]|] eqn:E; [|done].
    apply open_step_Some in E as (X & k & -> & _). destruct Hno.
    exists (a ++ OPEN ++ X ++ GT :: replicate k LF), r. rewrite Hs.
    rewrite <- !app_assoc. cbn [app]. by rewrite <- ?app_assoc. }
  rewrite Ho, adjustClose_scan. apply scan_no_match.
  intros a b Hs. destruct (close_step b) as [[o r]|] eqn:E; [|done].
  apply close_step_Some in E as (k & _ & -> & _). destruct Hno.
  exists a, (replicate k LF ++ CLOSE ++ r). by rewrite Hs.
Qed.

Lemma adjust_filter s :
  List.filter not_LF (adjustClose (adjustOpen s)) = List.filter not_LF s.
Proof.
  rewrite adjustClose_scan, adjustOpen_scan.
  rewrite (scan_filter close_step not_LF close_step_shrinks).
  - apply (scan_filter open_step not_LF open_step_shrinks).
    intros t o r (X & k & -> & _ & _ & ->)%open_step_Some.
    exists (OPEN ++ X ++ GT :: replicate k LF ++ FENCE).
    split.
    + rewrite <- !app_assoc. cbn [app]. by rewrite <- ?app_assoc.
    + unfold open_out. rewrite !List.filter_app. do 2 f_equal. cbn [List.filter app].
      change (not_LF GT) with true. cbv iota. f_equal.
      by rewrite List.filter_app, filter_not_LF_run.
  - intros t o r (k & _ & -> & ->)%close_step_Some.
    exists (FENCE ++ replicate k LF ++ CLOSE). split.
    + by rewrite <- !app_assoc.
    + unfold close_out. rewrite !List.filter_app. f_equal.
      by rewrite filter_not_LF_run.
Qed.

(** X8: A document without [<eslint-code-block] is left as it is by the
    attribute normalization. *)
Theorem updateCodeBlocks_untouched (d : DocFile) :
  ~ occurs OPEN (content d) -> updateCodeBlocks d = d.
Proof.
  intros H. apply DocFile_eq; [done..|]. by apply updateCodeBlocks_untouched_content.
Qed.

(** X10: A document without a fence is left as it is by the spacing
    normalization. *)
Theorem adjustCodeBlocks_untouched (d : DocFile) :
  ~ occurs FENCE (content d) -> adjustCodeBlocks d = d.
Proof.
  intros H. apply DocFile_eq; [done..|]. rewrite adjustCodeBlocks_content.
  by apply adjust_untouched.
Qed.

(** X11: The spacing normalization adds and removes line feeds only: without
    its line feeds the document is the same before and after. *)
Theorem adjustCodeBlocks_changes_line_feeds_only (d : DocFile) :
  List.filter not_LF (content (adjustCodeBlocks d)) = List.filter not_LF (content d).
Proof. rewrite adjustCodeBlocks_content. apply adjust_filter. Qed.

(** *** The attributes kept from a tag *)

Lemma split_ws_run ws s :
  Forall white ws -> split_ws [] true (ws ++ s) = split_ws [] true s.
Proof.
  induction 1 as [|c ws Hc _ IH]; [done|]. cbn [app split_ws]. by rewrite Hc.
Qed.

Lemma split_ws_run_end ws : Forall white ws -> split_ws [] true ws = [[]].
Proof.
  intros H. rewrite <- (app_nil_r ws). by rewrite split_ws_run.
Qed.

Lemma split_ws_sep cur c ws s :
  white c -> Forall white ws ->
  split_ws cur false (c :: ws ++ s) = rev cur :: split_ws [] true s.
Proof. intros Hc Hws. cbn [split_ws]. rewrite Hc. by rewrite split_ws_run. Qed.

Lemma split_ws_into_word w s b :
  word w -> split_ws [] b (w ++ s) = split_ws (rev w) false s.
Proof.
  intros [Hne Hw]. rewrite split_ws_word by done. rewrite app_nil_r.
  by destruct w.
Qed.

Lemma keep_attr_nil : keep_attr [] = false.
Proof. reflexivity. Qed.

Lemma keep_attr_not_fix w : word w -> keep_attr w = not_fix w.
Proof.
  intros [Hne _]. unfold keep_attr, not_fix.
  by rewrite (bool_decide_eq_false_2 (w = [])).
Qed.

Lemma kept_cons_word w l :
  word w ->
  List.filter keep_attr (map trim (w :: l))
  = (if not_fix w then [w] else []) ++ List.filter keep_attr (map trim l).
Proof.
  intros Hw. cbn [map List.filter]. rewrite trim_id by apply Hw.
  rewrite keep_attr_not_fix by done. by destruct (not_fix w).
Qed.

Lemma kept_after_word ps :
  forall w trail,
    word w ->
    Forall (fun p => Forall white (fst p) /\ fst p <> [] /\ word (snd p)) ps ->
    Forall white trail ->
    List.filter keep_attr (map trim (split_ws (rev w) false (attr_segments ps ++ trail)))
    = List.filter not_fix (w :: map snd ps).
Proof.
  induction ps as [|[sep w'] ps IH]; intros w trail Hw Hps Htrail.
  - assert (E : split_ws (rev w) false (attr_segments [] ++ trail)
                = w :: match trail with [] => [] | _ :: _ => [[]] end).
    { cbn [attr_segments map concat app]. destruct trail as [|c trail].
      - cbn [split_ws]. by rewrite rev_involutive.
      - apply Forall_cons in Htrail as [Hc Htrail].
        rewrite <- (app_nil_r trail), split_ws_sep, rev_involutive by done.
        done. }
    etransitivity; [exact (f_equal (fun l => List.filter keep_attr (map trim l)) E)|].
    etransitivity; [by apply kept_cons_word|].
    cbn [map List.filter]. destruct trail; cbn [map List.filter];
      rewrite ?keep_attr_nil; by destruct (not_fix w).
  - apply Forall_cons in Hps as [(Hsep & Hne & Hw') Hps]. cbn [fst snd] in *.
    assert (E : split_ws (rev w) false (attr_segments ((sep, w') :: ps) ++ trail)
                = w :: split_ws (rev w') false (attr_segments ps ++ trail)).
    { change (attr_segments ((sep, w') :: ps)) with ((sep ++ w') ++ attr_segments ps).
      destruct sep as [|c sep]; [done|]. apply Forall_cons in Hsep as [Hc Hsep].
      rewrite <- !app_assoc. cbn [app].
      rewrite split_ws_sep, rev_involutive by done.
      by rewrite split_ws_into_word. }
    etransitivity; [exact (f_equal (fun l => List.filter keep_attr (map trim l)) E)|].
    etransitivity; [by apply kept_cons_word|].
    pose proof (IH w' trail Hw' Hps Htrail) as IH'.
    cbn [map snd List.filter] in *.
    destruct (not_fix w); cbn [app]; [f_equal|]; exact IH'.
Qed.

(** The attributes kept are the words of the attribute text other than
    [fix], in their order. *)
Lemma tokens_segments ps trail :
  Forall (fun p => Forall white (fst p) /\ word (snd p)) ps ->
  Forall (fun p => fst p <> []) (tail ps) ->
  Forall white trail ->
  tokens (attr_segments ps ++ trail) = List.filter not_fix (map snd ps).
Proof.
  intros Hps Hne Htrail. unfold tokens, split_whitespace.
  destruct ps as [|[sep w] ps].
  - cbn [attr_segments map concat app List.filter].
    destruct trail as [|c trail]; [done|].
    apply Forall_cons in Htrail as [Hc Htrail].
    rewrite <- (app_nil_r trail), split_ws_sep by done. done.
  - apply Forall_cons in Hps as [[Hsep Hw] Hps]. cbn [fst snd tail] in *.
    assert (Hps' : Forall (fun p => Forall white (fst p) /\ fst p <> [] /\ word (snd p)) ps).
    { apply Forall_forall. intros p Hp.
      rewrite Forall_forall in Hps, Hne.
      destruct (Hps p Hp). split; [done|]. split; [by apply Hne|done]. }
    assert (E : List.filter keep_attr
                  (map trim (split_ws [] false (attr_segments ((sep, w) :: ps) ++ trail)))
                = List.filter keep_attr
                    (map trim (split_ws (rev w) false (attr_segments ps ++ trail)))).
    { change (attr_segments ((sep, w) :: ps)) with ((sep ++ w) ++ attr_segments ps).
      rewrite <- !app_assoc. destruct sep as [|c sep].
      - cbn [app]. by rewrite split_ws_into_word.
      - apply Forall_cons in Hsep as [Hc Hsep]. cbn [app].
        rewrite split_ws_sep by done. rewrite split_ws_into_word by done.
        cbn [rev map List.filter]. change (trim []) with (@nil char).
        by rewrite keep_attr_nil. }
    etransitivity; [exact E|]. by apply kept_after_word.
Qed.

Lemma inline_space_attr_char c : inline_space c -> attr_char c.
Proof.
  intros [Hw Hd]. split; [done|]. intros ->. done.
Qed.

Lemma word_attr_char w : word w -> GT ∉ w -> Forall attr_char w.
Proof.
  intros [_ Hw] Hgt. apply Forall_forall. intros c Hc.
  rewrite Forall_forall in Hw. specialize (Hw c Hc). unfold nonws in Hw.
  split.
  - unfold cc_dot. unfold isWhiteSpace in Hw.
    destruct (isLineTerminator c); [|done].
    by rewrite !orb_true_r in Hw.
  - intros ->. done.
Qed.

Lemma attr_segments_attr_char ps trail :
  Forall (fun p => Forall inline_space (fst p) /\ word (snd p) /\ GT ∉ snd p) ps ->
  Forall inline_space trail ->
  Forall attr_char (attr_segments ps ++ trail).
Proof.
  intros Hps Htrail. apply Forall_app. split.
  - unfold attr_segments. induction Hps as [|[sep w] ps (Hs & Hw & Hg) _ IH];
      [constructor|].
    cbn [map concat fst snd] in *. rewrite <- app_assoc.
    apply Forall_app. split; [|apply Forall_app; split; [|exact IH]].
    + eapply Forall_impl; [exact Hs|]. apply inline_space_attr_char.
    + by apply word_attr_char.
  - eapply Forall_impl; [exact Htrail|]. apply inline_space_attr_char.
Qed.

(** Every attribute text of a tag is white space and words in turn. *)
Lemma attr_segments_exist X :
  Forall attr_char X ->
  exists ps trail,
    X = attr_segments ps ++ trail
    /\ Forall (fun p => Forall inline_space (fst p) /\ word (snd p) /\ GT ∉ snd p) ps
    /\ Forall (fun p => fst p <> []) (tail ps)
    /\ Forall inline_space trail.
Proof.
  induction 1 as [|c X [Hd Hgt] _ (ps & trail & -> & Hps & Hne & Htrail)].
  - exists [], []. by repeat split.
  - destruct (isWhiteSpace c) eqn:Ew.
    + assert (Hc : inline_space c) by done.
      destruct ps as [|[sep w] ps].
      * exists [], (c :: trail). split; [done|]. split; [done|]. split; [done|].
        by constructor.
      * apply Forall_cons in Hps as [(Hs & Hw & Hg) Hps]. cbn [fst snd tail] in *.
        exists ((c :: sep, w) :: ps), trail. split; [done|]. split; [|done].
        constructor; [|done]. cbn [fst snd]. split; [by constructor|done].
    + assert (Hw1 : word [c]) by (split; [done|by repeat constructor]).
      assert (Hg1 : GT ∉ [c]).
      { apply not_elem_of_cons. split; [congruence|apply not_elem_of_nil]. }
      destruct ps as [|[sep w] ps].
      * exists [([], [c])], trail. split; [done|]. split; [|done].
        constructor; [|done]. cbn [fst snd].
        split; [constructor|]. split; [exact Hw1|exact Hg1].
      * pose proof Hps as Hps0.
        apply Forall_cons in Hps as [(Hs & Hw & Hg) Hps]. cbn [fst snd tail] in *.
        destruct sep as [|s sep].
        -- exists (([], c :: w) :: ps), trail. split; [done|]. split; [|done].
           constructor; [|done]. cbn [fst snd]. split; [constructor|]. split.
           ++ split; [done|]. constructor; [done|apply Hw].
           ++ apply not_elem_of_cons. split; [congruence|done].
        -- exists (([], [c]) :: (s :: sep, w) :: ps), trail.
           split; [done|]. split; [|split; [|done]].
           ++ constructor; [|done]. cbn [fst snd].
              split; [constructor|]. split; [exact Hw1|exact Hg1].
           ++ cbn [tail]. constructor; [done|exact Hne].
Qed.

Lemma updateCodeBlocks_first_tag_tokens d pre X post :
  content d = pre ++ OPEN ++ X ++ GT :: post ->
  LT ∉ pre ->
  Forall attr_char X ->
  content (updateCodeBlocks d)
  = pre ++ OPEN ++ spaced (with_fix (fixable (meta (rule d))) (tokens X)) ++ [GT]
    ++ content (updateCodeBlocks (with_content d post)).
Proof.
  intros Hc Hpre HX.
  rewrite !updateCodeBlocks_scan, Hc. cbn [content rule with_content].
  rewrite scan_app_skip.
  - f_equal. rewrite (scan_match _ (tag_step_shrinks _) _
                        (codeBlockTag (fixable (meta (rule d))) X) post).
    + rewrite codeBlockTag_eq. by rewrite <- !app_assoc.
    + apply tag_step_Some. by exists X.
  - intros u1 u2 -> Hu2.
    destruct (tag_step _ (u2 ++ OPEN ++ X ++ GT :: post)) as [[o r]|] eqn:E; [|done].
    apply tag_step_head in E as [E _]. destruct u2 as [|c u2]; [done|].
    cbn [app head] in E. injection E as ->. destruct Hpre.
    apply elem_of_app. right. by left.
Qed.

(** X9: The first tag of a document, when no [<] stands before it.  Its
    attribute text is white space and words in turn (white space that is not
    a line terminator, words without white space and without [>]).  The text
    in front of the tag is kept; the tag becomes [<eslint-code-block], then
    [ fix] if the rule is fixable, then every word of the attribute text other
    than [fix], in order, one space before each, then [>]; the rest of the
    document is rewritten the same way. *)
Theorem updateCodeBlocks_first_tag (d : DocFile) (pre trail post : text)
    (ps : list (text * text)) :
  content d = pre ++ OPEN ++ (attr_segments ps ++ trail) ++ GT :: post ->
  LT ∉ pre ->
  Forall (fun p => Forall inline_space (fst p) /\ word (snd p) /\ GT ∉ snd p) ps ->
  Forall (fun p => fst p <> []) (tail ps) ->
  Forall inline_space trail ->
  content (updateCodeBlocks d)
  = pre ++ OPEN
    ++ spaced (with_fix (fixable (meta (rule d))) (List.filter not_fix (map snd ps)))
    ++ [GT] ++ content (updateCodeBlocks (with_content d post)).
Proof.
  intros Hc Hpre Hps Hne Htrail.
  rewrite (updateCodeBlocks_first_tag_tokens d pre (attr_segments ps ++ trail) post);
    [|done..|by apply attr_segments_attr_char].
  rewrite tokens_segments; [done| |done|].
  - eapply Forall_impl; [exact Hps|]. intros p (Hs & Hw & _). split; [|done].
    eapply Forall_impl; [exact Hs|]. by intros c [Hc' _].
  - eapply Forall_impl; [exact Htrail|]. by intros c [Hc' _].
Qed.

Lemma updateCodeBlocks_first_tag_witness :
  content (updateCodeBlocks doc_fix_twice)
  = lines ["# yml/quotes"; ""] ++ OPEN
    ++ spaced (with_fix true (List.filter not_fix [str "fix"; str "rules"; str "fix"]))
    ++ [GT]
    ++ content (updateCodeBlocks (with_content doc_fix_twice (lines [""; "text"]))).
Proof.
  apply (updateCodeBlocks_first_tag doc_fix_twice (lines ["# yml/quotes"; ""])
           (str " ") (lines [""; "text"])
           [(str "  ", str "fix"); (str "   ", str "rules"); (str " ", str "fix")]).
  - reflexivity.
  - plain.
  - repeat constructor; try discriminate; plain.
  - repeat constructor; discriminate.
  - repeat constructor.
Defined.

(** The instance: two [fix] and white space runs in the tag of a fixable
    rule. *)
Example updateCodeBlocks_fix_twice :
  content (updateCodeBlocks doc_fix_twice)
  = lines ["# yml/quotes"; ""; "<eslint-code-block fix rules>"; "text"].
Proof. vm_compute. reflexivity. Qed.

Lemma updateCodeBlocks_untouched_witness :
  updateCodeBlocks doc_old_rule = doc_old_rule.
Proof.
  apply updateCodeBlocks_untouched.
  intros H%occursb_spec. vm_compute in H. discriminate H.
Defined.

Lemma adjustCodeBlocks_untouched_witness :
  adjustCodeBlocks doc_old_rule = doc_old_rule.
Proof.
  apply adjustCodeBlocks_untouched.
  intros H%occursb_spec. vm_compute in H. discriminate H.
Defined.

(** ** The header: [updateHeader] on a document with or without one *)










Lemma headerPattern_fails i t :
  head t <> Some HASH -> matcher headerPattern (mkState i t []) Some = None.
Proof.
  intros H. unfold headerPattern. cbn [matcher]. rewrite m_seqs_cons, m_lit_eq.
  destruct (lit_rest (str "#") t) as [r|] eqn:E; [|done].
  apply lit_rest_Some in E as ->. by destruct H.
Qed.


Lemma exec_header_none s : forall i, HASH ∉ s -> exec_from headerPattern i s = None.
Proof.
  induction s as [|c s IH]; intros i Hs; rewrite exec_from_eq;
    cbn [nCaptures headerPattern replicate].
  - by rewrite headerPattern_fails.
  - apply not_elem_of_cons in Hs as [Hc Hs].
    rewrite headerPattern_fails by (cbn [head]; congruence). by apply IH.
Qed.

(** X3: A document without [#] has no header: the header is put in front of the
    trimmed document.  A blank document yields the header and one line feed. *)
Theorem updateHeader_prepends (d : DocFile) :
  HASH ∉ content d ->
  content (updateHeader d) = header (rule d) ++ trim (content d) ++ [LF].
Proof.
  intros H. rewrite updateHeader_content. unfold test.
  by rewrite exec_header_none.
Qed.


Lemma updateHeader_prepends_witness :
  content (updateHeader doc_no_header)
  = header rule_fixable_presets ++ trim (content doc_no_header) ++ [LF].
Proof. apply (updateHeader_prepends doc_no_header). plain. Defined.


(** ** The front matter: second runs and documents without one *)

Lemma computed_block r :
  computed r = DASHES ++ [LF] ++ block (intro_lines r) ++ DASHES ++ replicate 1 LF.
Proof.
  unfold computed, intro_lines, fileIntro, block. cbn [map join concat].
  rewrite <- !app_assoc. cbn [app replicate]. reflexivity.
Qed.

Lemma escape_dot s :
  Forall (fun c => cc_dot c = true) s -> Forall (fun c => cc_dot c = true) (escape s).
Proof.
  induction 1 as [|c s Hc _ IH]; [constructor|].
  unfold escape. cbn [flat_map]. apply Forall_app. split; [|exact IH].
  unfold escape_char. destruct (c =? BACKSLASH)%N; [by repeat constructor|].
  destruct (c =? DQUOTE)%N; by repeat constructor.
Qed.

Lemma intro_lines_dot r :
  Forall (fun c => cc_dot c = true) (ruleId (docs (meta r))) ->
  Forall (fun c => cc_dot c = true) (description (docs (meta r))) ->
  Forall (Forall (fun c => cc_dot c = true)) (intro_lines r).
Proof.
  intros Hi Hd. unfold intro_lines, fileIntro. cbn [map fst snd].
  rewrite !yamlValue_string. cbn [ToString yamlValue].
  repeat constructor; repeat (apply Forall_app; split);
    try (by apply escape_dot); by repeat constructor.
Qed.

Lemma updateFileIntro_block d Ls j rest :
  Ls <> [] ->
  Forall (Forall (fun c => cc_dot c = true)) Ls ->
  content d = DASHES ++ [LF] ++ block Ls ++ DASHES ++ replicate j LF ++ rest ->
  head rest <> Some LF ->
  ~ occurs (LF :: DASHES) (replicate j LF ++ rest) ->
  DOLLAR ∉ computed (rule d) ->
  content (updateFileIntro d) = computed (rule d) ++ rest.
Proof.
  intros HLs Hdot Hc Hrest Hno Hplain.
  destruct (fileIntroPattern_match Ls (replicate j LF ++ rest) HLs Hdot Hno)
    as (e & caps' & He & Hm).
  rewrite span_replicate_LF in Hm by done.
  rewrite drop_app_length' in Hm by (symmetry; apply length_replicate).
  rewrite <- Hc in Hm.
  destruct (replace_all_fileIntro (by_template (content d) (computed (rule d)))
              _ _ _ _ He Hm) as [Ht Hr].
  unfold updateFileIntro, with_content. cbn [content]. rewrite Ht, Hr.
  unfold by_template. by rewrite GetSubstitution_plain.
Qed.


Lemma exec_intro_none s :
  (forall r, s <> DASHES ++ LF :: r) -> exec_from fileIntroPattern 0 s = None.
Proof.
  intros Hno. rewrite exec_from_eq.
  assert (Hm : matcher fileIntroPattern
                 (mkState 0 s (replicate (nCaptures fileIntroPattern) None)) Some
               = None).
  { unfold fileIntroPattern. cbn [matcher nCaptures replicate].
    rewrite m_seqs_cons. unfold m_bol. cbn [endIndex].
    change (Nat.eqb 0 0) with true. cbv iota.
    rewrite m_seqs_cons, m_lit_eq. fold DASHES.
    destruct (lit_rest DASHES s) as [r|] eqn:E; [|done].
    apply lit_rest_Some in E as ->.
    rewrite m_seqs_cons. unfold lf at 1. rewrite m_char_eq.
    destruct r as [|c r]; [done|]. unfold cc_is.
    destruct (N.eqb_spec c LF) as [->|]; [|done]. by destruct (Hno r). }
  rewrite Hm. destruct s as [|c s]; [done|]. apply exec_from_bol. lia.
Qed.

Lemma updateFileIntro_no_block d :
  (forall r, content d <> DASHES ++ LF :: r) ->
  content (updateFileIntro d) = computed (rule d) ++ trim (content d) ++ [LF].
Proof.
  intros H. apply updateFileIntro_absent. unfold test.
  by rewrite exec_intro_none.
Qed.

(** X12: A document that does not start with a [---] line has no front matter:
    the generated block is put in front of the trimmed document. *)
Theorem updateFileIntro_prepends (d : DocFile) :
  (forall r, content d <> DASHES ++ LF :: r) ->
  content (updateFileIntro d) = computed (rule d) ++ trim (content d) ++ [LF].
Proof. apply updateFileIntro_no_block. Qed.


(** X14: A second front-matter rewrite changes nothing either, on a document
    that is not blank and holds no [---] at all. *)
Theorem updateFileIntro_idempotent_plain (d : DocFile) :
  ~ occurs DASHES (content d) ->
  trim (content d) <> [] ->
  Forall (fun c => cc_dot c = true) (ruleId (docs (meta (rule d)))) ->
  Forall (fun c => cc_dot c = true) (description (docs (meta (rule d)))) ->
  DOLLAR ∉ computed (rule d) ->
  updateFileIntro (updateFileIntro d) = updateFileIntro d.
Proof.
  intros Hno Hne Hid Hdesc Hp.
  assert (H1 : content (updateFileIntro d)
               = computed (rule d) ++ trim (content d) ++ [LF]).
  { apply updateFileIntro_no_block. intros r Hr. apply Hno.
    exists [], (LF :: r). by rewrite Hr. }
  apply DocFile_eq; [done..|]. rewrite H1.
  apply (updateFileIntro_block (updateFileIntro d) (intro_lines (rule d)) 1
           (trim (content d) ++ [LF])); try done.
  - by apply intro_lines_dot.
  - rewrite H1, computed_block. by rewrite <- !app_assoc.
  - by apply trim_head_not_LF.
  - cbn [replicate app]. intros (p & q & Ho). apply Hno, occurs_trim.
    assert (Hd : occurs DASHES ((LF :: trim (content d)) ++ [LF])).
    { exists (p ++ [LF]), q. rewrite <- app_assoc. exact Ho. }
    apply occurs_snoc_plain in Hd; [|plain|done].
    apply occurs_cons_inv in Hd as [[r Hr]|Hd]; [discriminate Hr|done].
Qed.

Lemma updateFileIntro_prepends_witness :
  content (updateFileIntro doc_old_rule)
  = computed rule_replaced_by_ABC ++ trim (content doc_old_rule) ++ [LF].
Proof. apply (updateFileIntro_prepends doc_old_rule). intros r H. discriminate H. Defined.


Lemma updateFileIntro_idempotent_plain_witness :
  updateFileIntro (updateFileIntro doc_old_rule) = updateFileIntro doc_old_rule.
Proof.
  apply (updateFileIntro_idempotent_plain doc_old_rule).
  - intros H%occursb_spec. vm_compute in H. discriminate H.
  - discriminate.
  - repeat constructor.
  - repeat constructor.
  - plain.
Defined.

(** ** [yamlValue] on strings *)

Lemma escape_length s :
  length (escape s) = length s + length (List.filter escaped s).
Proof.
  induction s as [|c s IH]; [done|].
  unfold escape in *. cbn [flat_map List.filter]. rewrite length_app, IH.
  unfold escape_char, escaped.
  destruct (c =? BACKSLASH)%N; [simpl; lia|].
  destruct (c =? DQUOTE)%N; simpl; lia.
Qed.

(** X2: For every string, [yamlValue] gives the string between double quotes
    with one backslash added in front of every backslash and every double
    quote, and nothing else added: the body is longer by the number of these
    characters, and reading it back gives the string. *)
Theorem yamlValue_string_reads_back (s : text) :
  exists body,
    ToString (yamlValue (VString s)) = [DQUOTE] ++ body ++ [DQUOTE]
    /\ unescape body = Some s
    /\ length body = length s + length (List.filter escaped s).
Proof.
  exists (escape s). rewrite yamlValue_string. split; [done|].
  split; [apply unescape_escape|apply escape_length].
Qed.

(** ** The whole rewrite: the document starts with the front matter *)

Lemma computed_parts r :
  computed r
  = intro_head ++ escape (ruleId (docs (meta r))) ++ intro_mid
    ++ escape (description (docs (meta r))) ++ intro_tail.
Proof.
  rewrite computed_eq. unfold intro_head, intro_mid, intro_tail.
  by rewrite <- !app_assoc.
Qed.

Lemma computed_after r : computed (rule_after_updateHeader r) = computed r.
Proof.
  unfold rule_after_updateHeader. destruct (deprecated (meta r)); [done|].
  by destruct (categories (docs (meta r))).
Qed.

Lemma guard_app bad u v :
  guard bad u = true -> (forall b, guard b v = true) -> guard bad (u ++ v) = true.
Proof.
  revert bad. induction u as [|c u IH]; intros bad Hu Hv; [apply Hv|].
  cbn [app guard] in *. destruct (c =? LF)%N.
  - apply andb_prop in Hu as [-> Hu]. cbn [andb]. by apply IH.
  - by apply IH.
Qed.

Lemma guard_LF_free v : LF ∉ v -> forall b, guard b v = true.
Proof.
  induction v as [|c v IH]; intros H b; [done|].
  apply not_elem_of_cons in H as [Hc Hv]. cbn [guard].
  destruct (N.eqb_spec c LF); [done|]. by apply IH.
Qed.

Lemma escape_LF_free s : LF ∉ s -> LF ∉ escape s.
Proof.
  induction s as [|c s IH]; intros H; [done|].
  apply not_elem_of_cons in H as [Hc Hs].
  unfold escape. cbn [flat_map]. apply not_elem_of_app. split; [|by apply IH].
  unfold escape_char. destruct (c =? BACKSLASH)%N; [plain|].
  destruct (c =? DQUOTE)%N; [plain|].
  apply not_elem_of_cons. split; [congruence|apply not_elem_of_nil].
Qed.

Lemma guard_computed r :
  LF ∉ ruleId (docs (meta r)) -> LF ∉ description (docs (meta r)) ->
  guard false (computed r) = true.
Proof.
  intros Hi Hd. rewrite computed_parts.
  apply guard_app; [vm_compute; reflexivity|]. intros b.
  apply guard_app; [by apply guard_LF_free, escape_LF_free|]. intros b1.
  apply guard_app; [by destruct b1|]. intros b2.
  apply guard_app; [by apply guard_LF_free, escape_LF_free|]. intros b3.
  by destruct b3.
Qed.

Lemma guard_spec P :
  forall bad, guard bad P = true ->
  forall a c b, P = a ++ c :: LF :: b -> c <> GT /\ c <> BACKTICK.
Proof.
  induction P as [|x P IH]; intros bad H a c b HP; [by destruct a|].
  cbn [guard] in H. destruct a as [|y a]; cbn [app] in HP.
  - apply cons_eq_inv in HP as [Hx HP]. subst x P. cbn [guard] in H.
    change (LF =? LF)%N with true in H. cbv iota in H.
    destruct (N.eqb_spec c LF) as [Hc|_].
    + rewrite Hc. split; discriminate.
    + apply andb_prop in H as [H _].
      destruct (N.eqb_spec c GT) as [Hc|]; [done|].
      destruct (N.eqb_spec c BACKTICK) as [Hc|]; [done|]. done.
  - apply cons_eq_inv in HP as [Hx HP]. subst x P.
    destruct (y =? LF)%N.
    + apply andb_prop in H as [_ H]. by apply (IH _ H a c b).
    + by apply (IH _ H a c b).
Qed.

Lemma scan_open_keeps_prefix P :
  forall bad, guard bad P = true ->
  forall R, exists R', scan open_step (P ++ R) = P ++ R'.
Proof.
  induction P as [|x P IH]; intros bad HP R; [by eexists|].
  destruct (open_step ((x :: P) ++ R)) as [[o r]|] eqn:E.
  - rewrite (scan_match _ open_step_shrinks _ _ _ E).
    apply open_step_Some in E as (X & k & E & Hk & _ & ->).
    replace (OPEN ++ X ++ GT :: replicate k LF ++ FENCE ++ r)
      with ((OPEN ++ X ++ [GT]) ++ replicate k LF ++ FENCE ++ r) in E
      by (by rewrite <- !app_assoc).
    apply app_eq_inv in E as [(k0 & E1 & E2)|(k0 & E1 & E2)].
    + destruct k0 as [|y k0].
      * rewrite app_nil_r in E1. rewrite E1. unfold open_out.
        eexists. rewrite <- !app_assoc. reflexivity.
      * destruct k as [|k]; [lia|]. cbn [replicate app] in E2.
        apply cons_eq_inv in E2 as [<- _].
        rewrite <- !app_assoc in E1. cbn [app] in E1. rewrite app_assoc in E1.
        by destruct (guard_spec _ _ HP _ _ _ E1).
    + unfold open_out. rewrite !app_assoc. rewrite <- (app_assoc OPEN X [GT]), E1.
      eexists. rewrite <- !app_assoc. reflexivity.
  - cbn [app] in *. rewrite (scan_skip _ _ _ E). cbn [guard] in HP.
    destruct (x =? LF)%N.
    + apply andb_prop in HP as [_ HP]. destruct (IH _ HP R) as [R' ->]. by eexists.
    + destruct (IH _ HP R) as [R' ->]. by eexists.
Qed.

Lemma scan_close_keeps_prefix P :
  forall bad, guard bad P = true ->
  forall R, exists R', scan close_step (P ++ R) = P ++ R'.
Proof.
  induction P as [|x P IH]; intros bad HP R; [by eexists|].
  destruct (close_step ((x :: P) ++ R)) as [[o r]|] eqn:E.
  - rewrite (scan_match _ close_step_shrinks _ _ _ E).
    apply close_step_Some in E as (k & Hk & E & ->).
    apply app_eq_inv in E as [(k0 & E1 & E2)|(k0 & E1 & E2)].
    + destruct k0 as [|y k0].
      * rewrite app_nil_r in E1. rewrite E1. unfold close_out.
        eexists. reflexivity.
      * destruct k as [|k]; [lia|]. cbn [replicate app] in E2.
        apply cons_eq_inv in E2 as [<- _].
        change (FENCE ++ LF :: k0) with ([BACKTICK; BACKTICK] ++ BACKTICK :: LF :: k0) in E1.
        by destruct (guard_spec _ _ HP _ _ _ E1).
    + unfold close_out. rewrite E1.
      eexists. rewrite <- !app_assoc. reflexivity.
  - cbn [app] in *. rewrite (scan_skip _ _ _ E). cbn [guard] in HP.
    destruct (x =? LF)%N.
    + apply andb_prop in HP as [_ HP]. destruct (IH _ HP R) as [R' ->]. by eexists.
    + destruct (IH _ HP R) as [R' ->]. by eexists.
Qed.

Lemma exec_intro_start s p y :
  exec_from fileIntroPattern 0 s = Some (p, y) -> p = 0.
Proof.
  rewrite exec_from_eq. destruct (matcher _ _ _); [by intros [= <- _]|].
  destruct s as [|c s]; [done|]. by rewrite exec_from_bol by lia.
Qed.

Lemma updateFileIntro_starts d :
  DOLLAR ∉ computed (rule d) ->
  exists R, content (updateFileIntro d) = computed (rule d) ++ R.
Proof.
  intros Hp. unfold updateFileIntro, with_content. cbn [content].
  unfold test. destruct (exec_from fileIntroPattern 0 (content d)) as [[p y]|] eqn:E.
  - pose proof (exec_intro_start _ _ _ E) as ->.
    unfold replace_all. cbn [replace_loop]. rewrite E.
    rewrite Nat.sub_0_r, take_0. cbn [app].
    unfold by_template. rewrite GetSubstitution_plain by done. by eexists.
  - by eexists.
Qed.

(** X23: After the five rewrites the document starts with the front-matter block
    of the rule, whatever the document was; the rule's id and description hold
    no line feed and the block no [$]. *)
Theorem transform_starts_with_front_matter (d : DocFile) :
  LF ∉ ruleId (docs (meta (rule d))) ->
  LF ∉ description (docs (meta (rule d))) ->
  DOLLAR ∉ computed (rule d) ->
  exists R, content (transform d) = computed (rule d) ++ R.
Proof.
  intros Hi Hd Hp. unfold transform. rewrite adjustCodeBlocks_content.
  set (d3 := updateCodeBlocks (updateFooter (updateHeader d))).
  assert (Hr : computed (rule d3) = computed (rule d)).
  { exact (computed_after (rule d)). }
  destruct (updateFileIntro_starts d3) as [R ->]; [by rewrite Hr|].
  rewrite Hr, adjustOpen_scan, adjustClose_scan.
  pose proof (guard_computed (rule d) Hi Hd) as Hg.
  destruct (scan_open_keeps_prefix _ _ Hg R) as [R1 ->].
  destruct (scan_close_keeps_prefix _ _ Hg R1) as [R2 ->].
  by exists R2.
Qed.

Lemma transform_starts_with_front_matter_witness :
  exists R, content (transform doc_old_header) = computed rule_fixable_presets ++ R.
Proof.
  apply (transform_starts_with_front_matter doc_old_header); plain.
Defined.

(** ** [formatItems] keeps every item *)

Lemma occurs_app_l u a b : occurs u a -> occurs u (a ++ b).
Proof. intros (p & q & ->). exists p, (q ++ b). by rewrite <- !app_assoc. Qed.

Lemma occurs_self u : occurs u u.
Proof. exists [], []. by rewrite app_nil_r. Qed.

Lemma occurs_join x sep items : x ∈ items -> occurs x (join sep items).
Proof.
  induction items as [|a items IH]; intros H; [by apply elem_of_nil in H|].
  apply elem_of_cons in H as [->|H].
  - destruct items as [|b items]; [apply occurs_self|].
    cbn [join]. apply occurs_app_l, occurs_self.
  - destruct items as [|b items]; [by apply elem_of_nil in H|].
    change (join sep (a :: b :: items)) with (a ++ sep ++ join sep (b :: items)).
    apply occurs_suffix, occurs_suffix. by apply IH.
Qed.

(** X1: Every item of the list stands in the text [formatItems] returns, for a
    list of any length. *)
Theorem formatItems_keeps_items (items : list text) (x : text) :
  x ∈ items -> occurs x (formatItems items).
Proof.
  intros H. unfold formatItems. destruct (length items <=? 2) eqn:E.
  - by apply occurs_join.
  - assert (Hne : items <> []) by (intros ->; by apply elem_of_nil in H).
    rewrite (app_removelast_last [] Hne) in H.
    apply elem_of_app in H as [H|H].
    + apply occurs_suffix, occurs_app_l. by apply occurs_join.
    + apply elem_of_cons in H as [->|H]; [|by apply elem_of_nil in H].
      rewrite !app_assoc. apply occurs_suffix, occurs_self.
Qed.

Lemma formatItems_keeps_items_witness :
  occurs (str "B") (formatItems [str "A"; str "B"; str "C"; str "D"]).
Proof.
  apply (formatItems_keeps_items [str "A"; str "B"; str "C"; str "D"] (str "B")).
  right. left.
Defined.
